(** * Graph algorithms of [C++/Graph.cpp]: a shallow embedding and its properties

    The source is a header of templates over the weight type [T]:
    [Edge<T>], [Edges<T>], [Graph<T>], the insertion helpers and the
    algorithms Dijkstra, BellmanFord, WarshallFloyd (with
    [add_edge_to_matrix]), Kruskal, TopologicalSort and isBipartiteGraph.

    Modelling choices, all written out below:
    - [T] is instantiated as [int], as in the usage comments of the source
      ([Graph<int> g(N)]).  A weight is a [Z]; [operator+] on [int] is [add],
      the sum reduced to 32 bits in two's complement.
    - A vertex id is only ever used as an index, so it is a [nat]; an index
      that is not below the size of the vector it is used on is an
      out-of-bounds access, which the model reports as [OutOfBounds].
    - [std::vector] is a [list]; [v[i]] is [vget] / [vset].
    - Loops whose number of iterations is not fixed by their syntax
      (the queue loop of Dijkstra, the recursive lambdas) take fuel, and
      running out of it is the separate outcome [OutOfFuel]. *)

From Stdlib Require Import ZArith Lia Classical.
From stdpp Require Import base tactics option list relations sorting.

Local Open Scope Z_scope.

(** ** Outcomes *)

Inductive result (A : Type) : Type :=
| Ok (a : A)
| OutOfBounds
| OutOfFuel.
Arguments Ok {A} a.
Arguments OutOfBounds {A}.
Arguments OutOfFuel {A}.

#[global] Instance result_ret : MRet result := @Ok.
#[global] Instance result_bind : MBind result := λ A B f m,
  match m with
  | Ok a => f a
  | OutOfBounds => OutOfBounds
  | OutOfFuel => OutOfFuel
  end.

(** ** [int] arithmetic *)

Definition INT_MAX : Z := 2147483647.
Definition INT_MIN : Z := -2147483648.

(** The value of a mathematical integer once stored in an [int]. *)
Definition wrap (x : Z) : Z := (x - INT_MIN) `mod` 4294967296 + INT_MIN.

(** [a + b] on [int]. *)
Definition add (x y : Z) : Z := wrap (x + y).

(** [-a] on [int]. *)
Definition neg (x : Z) : Z := wrap (- x).

(** [numeric_limits<T>::max() / 10]. *)
Definition INF : Z := INT_MAX `div` 10.

(** ** Vectors *)

(** [v[i]] read. *)
Definition vget {A} (v : list A) (i : nat) : result A :=
  match v !! i with
  | Some x => Ok x
  | None => OutOfBounds
  end.

(** [v[i] = x]. *)
Definition vset {A} (v : list A) (i : nat) (x : A) : result (list A) :=
  if decide (i < length v)%nat then Ok (<[i:=x]> v) else OutOfBounds.

(** [for (auto &x : l) body], threading the state the body updates. *)
Fixpoint foldM {A S} (body : S → A → result S) (l : list A) (s : S) : result S :=
  match l with
  | [] => Ok s
  | x :: l' => s' ← body s x; foldM body l' s'
  end.

(** [for (int i = 0; i < n; ++i) body]. *)
Definition for_range {S} (n : nat) (body : nat → S → result S) (s : S) : result S :=
  foldM (λ s i, body i s) (seq 0 n) s.

(** ** Data model *)

Record Edge : Type := mkEdge { from : nat; to : nat; weight : Z }.

#[global] Instance Edge_eq_dec : EqDecision Edge.
Proof. solve_decision. Defined.

(** [Edges<T>], [Graph<T>] and [Matrix<T>] are vectors of vectors. *)
Abbreviation Edges := (list Edge) (only parsing).
Abbreviation Graph := (list (list Edge)) (only parsing).
Abbreviation Matrix := (list (list Z)) (only parsing).

(** [g[i].emplace_back(e)]. *)
Definition emplace_back (g : Graph) (i : nat) (e : Edge) : result Graph :=
  es ← vget g i; vset g i (es ++ [e]).

Definition add_edge (g : Graph) (u v : nat) (w : Z) : result Graph :=
  g ← emplace_back g u (mkEdge u v w); emplace_back g v (mkEdge v u w).

Definition add_arc (g : Graph) (u v : nat) (w : Z) : result Graph :=
  emplace_back g u (mkEdge u v w).

Definition add_to_edges (e : Edges) (u v : nat) (w : Z) : Edges :=
  e ++ [mkEdge u v w].

(** [Graph<T> g(n)]: [n] empty adjacency lists. *)
Definition new_graph (n : nat) : Graph := replicate n [].

(** A triple [(u, v, w)] as handed to [add_edge]. *)
Definition und (u v : nat) (w : Z) : nat * nat * Z := (u, v, w).

(** A graph on [n] vertices built only with [add_edge]. *)
Definition build (n : nat) (l : list (nat * nat * Z)) : result (list (list Edge)) :=
  foldM (λ g '(u, v, w), add_edge g u v w) l (new_graph n).

(** A graph on [n] vertices built only with [add_arc]. *)
Definition build_arcs (n : nat) (l : list (nat * nat * Z)) : result (list (list Edge)) :=
  foldM (λ g '(u, v, w), add_arc g u v w) l (new_graph n).

(** The value of an outcome known to be [Ok]. *)
Definition from_Ok {A} (d : A) (r : result A) : A :=
  match r with Ok a => a | _ => d end.

(** [m[i][j]] read and write. *)
Definition mget (m : Matrix) (i j : nat) : result Z :=
  row ← vget m i; vget row j.

Definition mset (m : Matrix) (i j : nat) (x : Z) : result Matrix :=
  row ← vget m i; row ← vset row j x; vset m i row.

(** ** Dijkstra *)

(** [using Pi = pair<T, int>], compared as [greater<Pi>] does: by weight,
    then by vertex. *)
Abbreviation Pi := (Z * nat)%type (only parsing).

Definition Pi_le (p q : Pi) : bool :=
  (p.1 <? q.1) || ((p.1 =? q.1) && (p.2 <=? q.2)%nat).

(** The priority queue is a min-heap on [Pi]; what the program observes of it
    is [top], its least element, [pop], which removes that element, and
    [emplace].  The model keeps the elements in ascending order, so that
    [top] and [pop] are the head and the tail. *)
Fixpoint que_emplace (p : Pi) (que : list Pi) : list Pi :=
  match que with
  | [] => [p]
  | q :: que' => if Pi_le p q then p :: que else q :: que_emplace p que'
  end.

(** One iteration of [for (auto &e : g[idx])]. *)
Definition dijkstra_edge (w : Z) (st : list Z * list Pi) (e : Edge)
  : result (list Z * list Pi) :=
  let '(dist, que) := st in
  let next_weight := add w (weight e) in
  d ← vget dist (to e);
  if d <=? next_weight then Ok (dist, que)
  else
    dist ← vset dist (to e) next_weight;
    d ← vget dist (to e);
    Ok (dist, que_emplace (d, to e) que).

(** [while (!que.empty())]. *)
Fixpoint dijkstra_loop (fuel : nat) (g : Graph) (dist : list Z) (que : list Pi)
  : result (list Z) :=
  match que with
  | [] => Ok dist
  | (w, idx) :: que =>
    match fuel with
    | O => OutOfFuel
    | S fuel =>
      d ← vget dist idx;
      if d <? w then dijkstra_loop fuel g dist que
      else
        es ← vget g idx;
        '(dist, que) ← foldM (dijkstra_edge w) es (dist, que);
        dijkstra_loop fuel g dist que
    end
  end.

Definition Dijkstra (fuel : nat) (g : Graph) (s : nat) : result (list Z) :=
  let dist := replicate (length g) INF in
  dist ← vset dist s 0;
  d ← vget dist s;
  dijkstra_loop fuel g dist (que_emplace (d, s) []).

(** ** Bellman-Ford *)

(** The body of the relaxation loops. *)
Definition bf_relax (dist : list Z) (e : Edge) : result (list Z) :=
  du ← vget dist (from e);
  if du =? INF then Ok dist
  else
    dv ← vget dist (to e);
    vset dist (to e) (Z.min dv (add du (weight e))).

(** The last loop: [true] stands for its [return vector<T>()]. *)
Fixpoint bf_check (edges : Edges) (dist : list Z) : result bool :=
  match edges with
  | [] => Ok false
  | e :: edges =>
    du ← vget dist (from e);
    if du =? INF then bf_check edges dist
    else
      dv ← vget dist (to e);
      if add du (weight e) <? dv then Ok true else bf_check edges dist
  end.

Definition BellmanFord (edges : Edges) (vertex s : nat) : result (list Z) :=
  let dist := replicate vertex INF in
  dist ← vset dist s 0;
  dist ← for_range (vertex - 1) (λ _ dist, foldM bf_relax edges dist) dist;
  negative ← bf_check edges dist;
  if negative : bool then Ok [] else Ok dist.

(** ** Warshall-Floyd *)

(** The body of the innermost loop, shared by [WarshallFloyd] and
    [add_edge_to_matrix]. *)
Definition wf_relax (k i j : nat) (dist : Matrix) : result Matrix :=
  dik ← mget dist i k;
  dkj ← mget dist k j;
  if negb (dik =? INF) && negb (dkj =? INF) then
    dij ← mget dist i j;
    mset dist i j (Z.min dij (add dik dkj))
  else Ok dist.

(** [for i, for j] at a fixed [k]. *)
Definition wf_pass (vertex k : nat) (dist : Matrix) : result Matrix :=
  for_range vertex (λ i dist,
    for_range vertex (λ j dist, wf_relax k i j dist) dist) dist.

Definition wf_init_edge (dist : Matrix) (e : Edge) : result Matrix :=
  d ← mget dist (from e) (to e);
  mset dist (from e) (to e) (Z.min d (weight e)).

Definition WarshallFloyd (g : Graph) : result Matrix :=
  let vertex := length g in
  let dist := replicate vertex (replicate vertex INF) in
  dist ← for_range vertex (λ i dist, mset dist i i 0) dist;
  dist ← for_range vertex (λ i dist,
            es ← vget g i; foldM wf_init_edge es dist) dist;
  for_range vertex (λ k dist, wf_pass vertex k dist) dist.

(** [mat[from][to] = mat[to][from] = min(mat[from][to], weight)]: the minimum
    is computed once, stored at [to][from], and the stored value is then
    stored at [from][to]. *)
Definition add_edge_to_matrix (mat : Matrix) (u v : nat) (w : Z) : result Matrix :=
  d ← mget mat u v;
  let m := Z.min d w in
  mat ← mset mat v u m;
  m ← mget mat v u;
  mat ← mset mat u v m;
  let vertex := length mat in
  foldM (λ mat k, wf_pass vertex k mat) [u; v] mat.

(** ** Kruskal *)

(** Modelled from the spec: the Union-Find collaborator ([UnionFind], a class
    the source uses and does not define).  [UnionFind(n)] builds [n]
    singleton sets; [unite(a, b)] merges the sets of [a] and [b] and returns
    whether they were distinct. *)
Class UnionFind : Type := {
  uf_t : Type;
  uf_make : nat → uf_t;
  uf_unite : uf_t → nat → nat → result (uf_t * bool)
}.

(** Modelled from the spec: the plainest such structure, a vector holding the
    label of each element's set; [unite] relabels one set. *)
Definition label_unite (tree : list nat) (a b : nat) : result (list nat * bool) :=
  la ← vget tree a;
  lb ← vget tree b;
  if decide (la = lb) then Ok (tree, false)
  else Ok ((λ l, if decide (l = lb) then la else l) <$> tree, true).

#[global] Instance LabelUnionFind : UnionFind := {|
  uf_t := list nat;
  uf_make n := seq 0 n;
  uf_unite := label_unite
|}.

(** The comparator of the [sort] call. *)
Definition weight_le (a b : Edge) : Prop := weight a ≤ weight b.

#[global] Instance weight_le_dec a b : Decision (weight_le a b).
Proof. unfold weight_le. apply _. Defined.

(** [sort(begin(edges), end(edges), by weight)].  [std::sort] leaves the
    relative order of edges of equal weight open; the model fixes one. *)
Definition sort_edges (edges : Edges) : Edges := merge_sort weight_le edges.

(** The body of [for (auto &e : edges)]. *)
Definition kruskal_edge `{UnionFind} (st : uf_t * Z) (e : Edge) : result (uf_t * Z) :=
  let '(tree, ret) := st in
  '(tree, united) ← uf_unite tree (from e) (to e);
  if united : bool then Ok (tree, add ret (weight e)) else Ok (tree, ret).

(** Returns the value of the call and the caller's [edges] after it. *)
Definition Kruskal `{UnionFind} (edges : Edges) (V : nat) : result (Z * Edges) :=
  let edges := sort_edges edges in
  '(_, ret) ← foldM kruskal_edge edges (uf_make V, 0);
  Ok (ret, edges).

(** ** Topological sort *)

(** The state the lambda [visit] captures by reference. *)
Abbreviation visit_state := (list Z * list nat)%type (only parsing).

(** [for (auto &e : g[v])] of [visit]; [rec] is the recursive call. *)
Fixpoint visit_edges (rec : nat → visit_state → result (bool * visit_state))
    (es : Edges) (st : visit_state) : result (bool * visit_state) :=
  match es with
  | [] => Ok (true, st)
  | e :: es =>
    c ← vget st.1 (to e);
    if c =? 2 then visit_edges rec es st
    else if c =? 1 then Ok (false, st)
    else
      '(ok, st) ← rec (to e) st;
      if ok : bool then visit_edges rec es st else Ok (false, st)
  end.

Fixpoint visit (fuel : nat) (g : Graph) (v : nat) (st : visit_state)
  : result (bool * visit_state) :=
  match fuel with
  | O => OutOfFuel
  | S fuel =>
    let '(color, order) := st in
    color ← vset color v 1;
    es ← vget g v;
    '(ok, (color, order)) ← visit_edges (visit fuel g) es (color, order);
    if ok : bool then
      let order := order ++ [v] in
      color ← vset color v 2;
      Ok (true, (color, order))
    else Ok (false, (color, order))
  end.

(** [for (int i = 0; i < V; ++i) if (!color[i] && !visit(i)) return false]. *)
Fixpoint visit_roots (g : Graph) (roots : list nat) (st : visit_state)
  : result (bool * visit_state) :=
  match roots with
  | [] => Ok (true, st)
  | i :: roots =>
    c ← vget st.1 i;
    if c =? 0 then
      '(ok, st) ← visit (length g) g i st;
      if ok : bool then visit_roots g roots st else Ok (false, st)
    else visit_roots g roots st
  end.

(** Returns the value of the call and the caller's [order] after it.  The
    nesting of [visit] is bounded by the number of vertices, which is the
    fuel given. *)
Definition TopologicalSort (g : Graph) (order : list nat) : result (bool * list nat) :=
  let V := length g in
  let color := replicate V 0 in
  '(ok, (_, order)) ← visit_roots g (seq 0 V) (color, order);
  if ok : bool then Ok (true, reverse order) else Ok (false, order).

(** ** Bipartite check *)

(** The lambda [dfs]; the state is [color] and [ret], captured by reference. *)
Fixpoint dfs (fuel : nat) (g : Graph) (i : nat) (clr : Z) (st : list Z * bool)
  : result (list Z * bool) :=
  match fuel with
  | O => OutOfFuel
  | S fuel =>
    let '(color, ret) := st in
    c ← vget color i;
    if negb (c =? 0) then Ok (color, ret)
    else
      color ← vset color i clr;
      es ← vget g i;
      foldM (λ '(color, ret) e,
        c ← vget color (to e);
        if c =? 0 then dfs fuel g (to e) (neg clr) (color, ret)
        else if c =? clr then Ok (color, false)
        else Ok (color, ret)) es (color, ret)
  end.

(** The statements after [return ret] are never run. *)
Definition isBipartiteGraph (g : Graph) : result bool :=
  let V := length g in
  let color := replicate V 0 in
  '(_, ret) ← dfs (S V) g 0 1 (color, true);
  Ok ret.

(** * Properties *)

(** ** The outcome monad, vectors and loops *)

Lemma bind_Ok {A B} (m : result A) (f : A → result B) b :
  m ≫= f = Ok b ↔ ∃ a, m = Ok a ∧ f a = Ok b.
Proof.
  destruct m; simpl; split; try done; eauto.
  - by intros (a0 & [= ->] & ?).
  - by intros (? & ? & ?).
  - by intros (? & ? & ?).
Qed.

Lemma vget_Ok {A} (v : list A) i x : vget v i = Ok x ↔ v !! i = Some x.
Proof. unfold vget. destruct (v !! i); split; congruence. Qed.

Lemma vget_lt {A} (v : list A) i :
  (i < length v)%nat → ∃ x, vget v i = Ok x ∧ v !! i = Some x.
Proof.
  intros Hi. destruct (lookup_lt_is_Some_2 v i Hi) as [x Hx].
  exists x. by rewrite vget_Ok.
Qed.

Lemma vget_ge {A} (v : list A) i : (length v ≤ i)%nat → vget v i = OutOfBounds.
Proof. intros Hi. unfold vget. by rewrite lookup_ge_None_2. Qed.

Lemma vset_Ok {A} (v : list A) i x v' :
  vset v i x = Ok v' ↔ (i < length v)%nat ∧ v' = <[i:=x]> v.
Proof.
  unfold vset. case_decide; split.
  - by intros [= <-].
  - by intros [_ ->].
  - done.
  - by intros [? _].
Qed.

Lemma vset_lt {A} (v : list A) i x :
  (i < length v)%nat → vset v i x = Ok (<[i:=x]> v).
Proof. intros. by apply vset_Ok. Qed.

Lemma foldM_app {A S} (body : S → A → result S) l1 l2 s :
  foldM body (l1 ++ l2) s = foldM body l1 s ≫= foldM body l2.
Proof.
  revert s. induction l1 as [|x l1 IH]; intros s; simpl; [done|].
  destruct (body s x); simpl; auto.
Qed.

(** A loop over a list keeps an invariant that speaks of the elements
    already handled, and then returns. *)
Lemma foldM_inv {A S} (I : list A → S → Prop) (body : S → A → result S) l s :
  I [] s →
  (∀ done x rest s, l = done ++ x :: rest → I done s →
     ∃ s', body s x = Ok s' ∧ I (done ++ [x]) s') →
  ∃ s', foldM body l s = Ok s' ∧ I l s'.
Proof.
  intros H0 Hstep.
  cut (∀ rest done s, l = done ++ rest → I done s →
         ∃ s', foldM body rest s = Ok s' ∧ I l s').
  { intros H. by apply (H l []). }
  induction rest as [|x rest IH]; intros done s0 Hl HI; simpl.
  - exists s0. rewrite app_nil_r in Hl. by subst.
  - destruct (Hstep done x rest s0 Hl HI) as (s1 & -> & HI1). simpl.
    apply (IH (done ++ [x])); [|done]. by rewrite <- app_assoc.
Qed.

(** The same for a counting loop. *)
Lemma for_range_inv {S} (I : nat → S → Prop) n (body : nat → S → result S) s :
  I O s →
  (∀ i s, (i < n)%nat → I i s → ∃ s', body i s = Ok s' ∧ I (Datatypes.S i) s') →
  ∃ s', for_range n body s = Ok s' ∧ I n s'.
Proof.
  intros H0 Hstep. unfold for_range.
  destruct (foldM_inv (λ done s, I (length done) s) (λ s i, body i s) (seq 0 n) s)
    as (s' & Hs' & HI); [done| |].
  - intros done x rest s0 Hl HI.
    assert (x = length done ∧ (x < n)%nat) as [-> Hlt].
    { assert (seq 0 n !! length done = Some x) as Hx.
      { rewrite Hl. by rewrite list_lookup_middle. }
      apply lookup_seq in Hx. lia. }
    destruct (Hstep _ _ Hlt HI) as (s1 & ? & ?). exists s1.
    rewrite length_app. simpl. by rewrite Nat.add_1_r.
  - exists s'. by rewrite length_seq in HI.
Qed.

(** ** [int] arithmetic *)

Lemma INF_val : INF = 214748364.
Proof. reflexivity. Qed.

Lemma wrap_small x : INT_MIN ≤ x ≤ INT_MAX → wrap x = x.
Proof.
  unfold wrap, INT_MIN, INT_MAX. intros H.
  rewrite Z.mod_small; lia.
Qed.

Lemma add_small x y : INT_MIN ≤ x + y ≤ INT_MAX → add x y = x + y.
Proof. apply wrap_small. Qed.

Lemma add_comm x y : add x y = add y x.
Proof. unfold add. by rewrite Z.add_comm. Qed.

Lemma wrap_add_l x y : wrap (wrap x + y) = wrap (x + y).
Proof.
  unfold wrap. f_equal.
  replace ((x - INT_MIN) `mod` 4294967296 + INT_MIN + y - INT_MIN)
    with ((x - INT_MIN) `mod` 4294967296 + y) by lia.
  replace (x + y - INT_MIN) with ((x - INT_MIN) + y) by lia.
  by rewrite Zplus_mod_idemp_l.
Qed.

(** ** Well-formed graphs *)

(** The invariant of the data model: the edges stored at [g[u]] leave [u]
    and lead to a vertex of the graph.  A graph built by [add_edge] and
    [add_arc] has it. *)
Definition edge_ok (n u : nat) (e : Edge) : bool :=
  bool_decide (from e = u) && bool_decide (to e < n)%nat.

Definition graph_ok (g : Graph) : bool :=
  forallb id (imap (λ u es, forallb (edge_ok (length g) u) es) g).

(** [g] has an arc from [u] to [v]. *)
Definition arc (g : Graph) (u v : nat) : Prop :=
  ∃ es e, g !! u = Some es ∧ e ∈ es ∧ to e = v.

Lemma graph_ok_spec g :
  graph_ok g = true ↔
  ∀ u es e, g !! u = Some es → e ∈ es → from e = u ∧ (to e < length g)%nat.
Proof.
  unfold graph_ok. rewrite forallb_forall. split.
  - intros H u es e Hu He.
    assert (forallb (edge_ok (length g) u) es = true) as Hes.
    { apply (H (forallb (edge_ok (length g) u) es)).
      apply list_elem_of_In, list_elem_of_lookup. exists u.
      by rewrite list_lookup_imap, Hu. }
    rewrite forallb_forall in Hes.
    assert (edge_ok (length g) u e = true) as Hok.
    { apply Hes. by apply list_elem_of_In. }
    unfold edge_ok in Hok. apply andb_true_iff in Hok as [H1 H2].
    by apply bool_decide_eq_true in H1, H2.
  - intros H b Hb. apply list_elem_of_In, list_elem_of_lookup in Hb as [u Hu].
    rewrite list_lookup_imap in Hu.
    destruct (g !! u) as [es|] eqn:Hes; simplify_eq/=.
    apply forallb_forall. intros e He. apply list_elem_of_In in He.
    destruct (H u es e Hes He) as [? ?].
    unfold edge_ok. apply andb_true_iff. by rewrite !bool_decide_eq_true.
Qed.

Lemma arc_lt g u v :
  graph_ok g = true → arc g u v → (u < length g)%nat ∧ (v < length g)%nat.
Proof.
  rewrite graph_ok_spec. intros Hok (es & e & Hu & He & <-). split.
  - by apply lookup_lt_Some in Hu.
  - by apply (Hok u es e).
Qed.

(** ** Bipartite check *)

(** A colouring with two colours that is proper on every arc. *)
Definition proper (g : Graph) (χ : nat → bool) : Prop :=
  ∀ u v, arc g u v → χ u ≠ χ v.

(** The same, asked only of the arcs that leave a vertex reachable from
    vertex 0. *)
Definition proper_from0 (g : Graph) (χ : nat → bool) : Prop :=
  ∀ u v, rtc (arc g) 0%nat u → arc g u v → χ u ≠ χ v.

(** The number of vertices [dfs] has not coloured yet. *)
Fixpoint zeros (color : list Z) : nat :=
  match color with
  | [] => O
  | c :: color => ((if decide (c = 0%Z) then 1 else 0) + zeros color)%nat
  end.

Lemma zeros_insert color i c :
  color !! i = Some 0 → c ≠ 0 → (zeros (<[i:=c]> color) < zeros color)%nat.
Proof.
  revert i. induction color as [|x color IH]; intros [|i] Hi Hc; try done.
  - injection Hi as ->. simpl. repeat case_decide; try done. lia.
  - specialize (IH i Hi Hc). simpl. lia.
Qed.

Lemma zeros_le_length color : (zeros color ≤ length color)%nat.
Proof. induction color as [|c color IH]; simpl; [done|]. case_decide; lia. Qed.

Lemma zeros_mono (c c' : list Z) :
  length c = length c' →
  (∀ x v, c !! x = Some v → v ≠ 0 → ∃ v', c' !! x = Some v' ∧ v' ≠ 0) →
  (zeros c' ≤ zeros c)%nat.
Proof.
  revert c'. induction c as [|a c IH]; intros [|a' c'] Hlen Hm; try done.
  assert (zeros c' ≤ zeros c)%nat.
  { apply IH; [by injection Hlen|]. intros x v Hx Hv. by apply (Hm (S x) v). }
  simpl. destruct (decide (a = 0)) as [->|Ha].
  - case_decide; lia.
  - destruct (Hm 0%nat a eq_refl Ha) as (v' & [= <-] & Hv').
    rewrite decide_False by done. lia.
Qed.

Lemma zeros_replicate n : zeros (replicate n 0) = n.
Proof. induction n as [|n IH]; simpl; [done|]. by rewrite IH. Qed.

Lemma neg_pm1 c : c = 1 ∨ c = -1 → neg c = - c.
Proof. by intros [-> | ->]. Qed.

Lemma dfs_unfold fuel g i clr color ret :
  dfs (S fuel) g i clr (color, ret) =
    c ← vget color i;
    if negb (c =? 0) then Ok (color, ret)
    else
      color ← vset color i clr;
      es ← vget g i;
      foldM (λ '(color, ret) e,
        c ← vget color (to e);
        if c =? 0 then dfs fuel g (to e) (neg clr) (color, ret)
        else if c =? clr then Ok (color, false)
        else Ok (color, ret)) es (color, ret).
Proof. reflexivity. Qed.

Section bipartite.
Variable g : list (list Edge).
Hypothesis Hok : graph_ok g = true.

(** What holds of [color] at every moment of the search: its values are
0 (not coloured), 1 and -1; a coloured vertex is reachable from 0; and
every colouring that is proper on the reachable part agrees with
[color], up to renaming the colours. *)
Definition cinv (color : list Z) : Prop :=
length color = length g ∧
(∀ x c, color !! x = Some c → c = 0 ∨ c = 1 ∨ c = -1) ∧
(∀ x c, color !! x = Some c → c ≠ 0 → rtc (arc g) 0%nat x) ∧
(∀ χ, proper_from0 g χ →
 ∀ x c, color !! x = Some c → c ≠ 0 → (c = 1 ↔ χ x = χ 0%nat)).

(** How the state [(c1, r1)] extends an earlier state [(c0, r0)]: colours
given stay, [ret] only goes from true to false and does so only when
no proper colouring exists, and every vertex coloured in between has
all its neighbours coloured, with the other colour as long as [ret]
is true. *)
Definition ext (c0 : list Z) (r0 : bool) (c1 : list Z) (r1 : bool) : Prop :=
cinv c1 ∧
(∀ x c, c0 !! x = Some c → c ≠ 0 → c1 !! x = Some c) ∧
(r1 = true → r0 = true) ∧
(r1 = false → r0 = false ∨ ¬ ∃ χ, proper_from0 g χ) ∧
(∀ x y cx, c0 !! x = Some 0 → arc g x y → c1 !! x = Some cx → cx ≠ 0 →
 ∃ cy, c1 !! y = Some cy ∧ cy ≠ 0 ∧ (r1 = true → cy = - cx)).

Lemma ext_refl c r : cinv c → ext c r c r.
Proof using Type.
intros Hc. split_and!; try done.
- by left.
- intros x y cx Hx _ Hx' Hcx. by simplify_eq.
Qed.

Lemma ext_trans a r0 b r1 c r2 :
cinv a → ext a r0 b r1 → ext b r1 c r2 → ext a r0 c r2.
Proof using Type.
intros Ha (Hb & Hm1 & Ht1 & Hf1 & Hn1) (Hc & Hm2 & Ht2 & Hf2 & Hn2).
split_and!; try done.
- intros x v Hx Hv. apply Hm2; [by apply Hm1|done].
- tauto.
- intros Hr2. destruct (Hf2 Hr2) as [Hr1|?]; [|by right]. by apply Hf1.
- intros x y cx Hx Hxy Hcx Hne.
assert (x < length b)%nat as Hlt.
{ destruct Hb as [-> _], Ha as [<- _]. by apply lookup_lt_Some in Hx. }
destruct (lookup_lt_is_Some_2 b x Hlt) as [bx Hbx].
destruct (decide (bx = 0)) as [->|Hbx0].
+ by apply (Hn2 x y cx).
+ destruct (Hn1 x y bx Hx Hxy Hbx Hbx0) as (cy & Hy & Hcy & Hpr).
pose proof (Hm2 x bx Hbx Hbx0) as Hcx'. simplify_eq.
exists cy. split_and!; [by apply Hm2|done|tauto].
Qed.

Lemma ext_zeros c0 r0 c1 r1 : cinv c0 → ext c0 r0 c1 r1 → (zeros c1 ≤ zeros c0)%nat.
Proof using Type.
intros [Hl0 _] ([Hl1 _] & Hm & _). apply zeros_mono; [congruence|].
intros x v Hx Hv. exists v. split; [by apply Hm|done].
Qed.

Lemma dfs_spec fuel : ∀ i clr c0 r0,
cinv c0 → (i < length g)%nat → clr = 1 ∨ clr = -1 →
(zeros c0 < fuel)%nat →
(c0 !! i = Some 0 →
 rtc (arc g) 0%nat i ∧
 ∀ χ, proper_from0 g χ → (clr = 1 ↔ χ i = χ 0%nat)) →
∃ c1 r1, dfs fuel g i clr (c0, r0) = Ok (c1, r1) ∧ ext c0 r0 c1 r1 ∧
∃ ci, c1 !! i = Some ci ∧ ci ≠ 0 ∧ (c0 !! i = Some 0 → ci = clr).
Proof using Hok.
induction fuel as [|fuel IH]; intros i clr c0 r0 Hc0 Hi Hclr Hfuel Hpre; [lia|].
rewrite dfs_unfold.
pose proof Hc0 as (Hlen0 & Hval0 & Hreach0 & Hcons0).
destruct (vget_lt c0 i) as (ci & -> & Hci); [lia|]. simpl.
destruct (Z.eqb_spec ci 0) as [->|Hci0]; simpl; last first.
{ exists c0, r0. split_and!; [done|by apply ext_refl|].
exists ci. split_and!; try done. intros ?; by simplify_eq. }
destruct (Hpre Hci) as [Hri Hchi].
rewrite vset_lt by lia. simpl.
destruct (vget_lt g i Hi) as (es & -> & Hes). simpl.
set (c1 := <[i:=clr]> c0).
assert (clr ≠ 0) as Hclr0 by lia.
assert (c1 !! i = Some clr) as Hc1i.
{ apply list_lookup_insert_eq. lia. }
assert (cinv c1) as Hc1.
{ split_and!.
- unfold c1. by rewrite length_insert.
- intros x c Hx. destruct (decide (x = i)) as [->|Hne].
+ rewrite Hc1i in Hx. simplify_eq. lia.
+ unfold c1 in Hx. rewrite list_lookup_insert_ne in Hx by done. eauto.
- intros x c Hx Hc. destruct (decide (x = i)) as [->|Hne]; [done|].
unfold c1 in Hx. rewrite list_lookup_insert_ne in Hx by done. eauto.
- intros χ Hχ x c Hx Hc. destruct (decide (x = i)) as [->|Hne].
+ rewrite Hc1i in Hx. simplify_eq. by apply Hchi.
+ unfold c1 in Hx. rewrite list_lookup_insert_ne in Hx by done. eauto. }
assert (zeros c1 < zeros c0)%nat as Hz1 by (by apply zeros_insert).
(* the loop over the edges of [i] *)
destruct (foldM_inv
(λ done '(c, r),
 ext c1 r0 c r ∧
 ∀ e, e ∈ done → ∃ cy, c !! to e = Some cy ∧ cy ≠ 0 ∧ (r = true → cy = - clr))
(λ '(color, ret) e,
c ← vget color (to e);
if c =? 0 then dfs fuel g (to e) (neg clr) (color, ret)
else if c =? clr then Ok (color, false)
else Ok (color, ret)) es (c1, r0)) as ([c2 r2] & Hrun & Hext & Hdone).
{ split; [by apply ext_refl|]. intros e He. by apply elem_of_nil in He. }
{ intros done e rest [c r] Hsplit [Hext Hdone].
assert (e ∈ es) as He by (rewrite Hsplit; set_solver).
assert (arc g i (to e)) as Harc by (by exists es, e).
destruct (arc_lt g _ _ Hok Harc) as [_ Hto].
pose proof Hext as (Hc & Hm & Ht & Hf & Hn).
pose proof Hc as (Hlen & Hval & Hreach & Hcons).
assert (c !! i = Some clr) as Hcci by (by apply Hm).
destruct (vget_lt c (to e)) as (cy & -> & Hcy); [lia|]. simpl.
destruct (Z.eqb_spec cy 0) as [->|Hcy0].
- (* the neighbour is not coloured: the recursive call *)
destruct (IH (to e) (neg clr) c r) as (c' & r' & -> & Hext' & cy' & Hcy' & Hcy'0 & Hcy'c).
+ done.
+ done.
+ rewrite neg_pm1 by done. lia.
+ pose proof (ext_zeros _ _ _ _ Hc1 Hext). lia.
+ intros _. split.
  * eapply rtc_r; [|done]. by apply (Hreach i clr).
  * intros χ Hχ. rewrite neg_pm1 by done.
    pose proof (Hcons χ Hχ i clr Hcci Hclr0) as Hi'.
    assert (χ i ≠ χ (to e)) as Hneq.
    { apply Hχ; [|done]. by apply (Hreach i clr). }
    destruct (χ i), (χ (to e)), (χ 0%nat);
      intuition (try congruence; try lia).
+ exists (c', r'). split; [done|]. split.
  * by apply (ext_trans c1 r0 c r).
  * destruct Hext' as (_ & Hm' & Ht' & _).
    intros e' [He'|He']%elem_of_app.
    -- destruct (Hdone e' He') as (cz & Hz & Hz0 & Hzc).
       exists cz. split_and!; [by apply Hm'|done|tauto].
    -- apply list_elem_of_singleton in He' as ->.
       exists cy'. split_and!; try done. intros _.
       rewrite Hcy'c by done. by apply neg_pm1.
- destruct (Z.eqb_spec cy clr) as [->|Hcyc].
+ (* the neighbour has the colour of [i] *)
  exists (c, false). split; [done|]. split.
  * split_and!; try done.
    -- intros _. right. intros [χ Hχ].
       pose proof (Hcons χ Hχ i clr Hcci Hclr0) as Hi'.
       pose proof (Hcons χ Hχ (to e) clr Hcy Hclr0) as He'.
       assert (χ i ≠ χ (to e)) as Hneq.
       { apply Hχ; [|done]. by apply (Hreach i clr). }
       destruct (χ i), (χ (to e)), (χ 0%nat);
         intuition (try congruence; try lia).
    -- intros x y cx Hx Hxy Hcx Hcx0.
       destruct (Hn x y cx Hx Hxy Hcx Hcx0) as (cz & ? & ? & ?).
       exists cz. by split_and!.
  * intros e' [He'|He']%elem_of_app.
    -- destruct (Hdone e' He') as (cz & Hz & Hz0 & Hzc).
       exists cz. by split_and!.
    -- apply list_elem_of_singleton in He' as ->.
       exists clr. by split_and!.
+ (* the neighbour has the other colour *)
  exists (c, r). split; [done|]. split; [done|].
  intros e' [He'|He']%elem_of_app; [by apply Hdone|].
  apply list_elem_of_singleton in He' as ->.
  exists cy. split_and!; try done. intros _.
  destruct (Hval _ _ Hcy) as [?|[?|?]]; lia. }
exists c2, r2. split; [done|].
pose proof Hext as (Hc2 & Hm & Ht & Hf & Hn).
split.
- split_and!; try done.
+ intros x v Hx Hv. apply Hm; [|done].
unfold c1. rewrite list_lookup_insert_ne; [done|]. intros ->. by simplify_eq.
+ intros x y cx Hx Hxy Hcx Hcx0.
destruct (decide (x = i)) as [->|Hne].
* destruct Hxy as (es' & e & Hes' & He & <-). simplify_eq.
  pose proof (Hm i clr Hc1i Hclr0). simplify_eq. by apply Hdone.
* apply (Hn x y cx); try done.
  unfold c1. by rewrite list_lookup_insert_ne.
- exists clr. split_and!; try done. by apply Hm.
Qed.
End bipartite.

(** [isBipartiteGraph] on a well-formed graph with a vertex 0: it returns,
    and the final state extends the initial one. *)
Lemma isBipartiteGraph_run (g : list (list Edge)) :
  graph_ok g = true → (0 < length g)%nat →
  ∃ color ret, isBipartiteGraph g = Ok ret ∧
    ext g (replicate (length g) 0) true color ret ∧
    ∃ c0, color !! 0%nat = Some c0 ∧ c0 ≠ 0.
Proof.
  intros Hok Hlen. unfold isBipartiteGraph.
  assert (cinv g (replicate (length g) 0)) as Hc.
  { split_and!.
    - by rewrite length_replicate.
    - intros x c [-> _]%lookup_replicate. by left.
    - by intros x c [-> _]%lookup_replicate.
    - by intros χ _ x c [-> _]%lookup_replicate. }
  destruct (dfs_spec g Hok (S (length g)) 0%nat 1 (replicate (length g) 0) true)
    as (c1 & r1 & -> & Hext & c0 & Hc0 & Hne & _); try done.
  - by left.
  - rewrite zeros_replicate. lia.
  - simpl. exists c1, r1. split_and!; try done. by exists c0.
Qed.

Lemma isBipartiteGraph_true_iff (g : list (list Edge)) :
  graph_ok g = true → (0 < length g)%nat →
  (isBipartiteGraph g = Ok true ↔ ∃ χ, proper_from0 g χ).
Proof.
  intros Hok Hlen.
  destruct (isBipartiteGraph_run g Hok Hlen)
    as (color & ret & -> & (Hc & Hm & Ht & Hf & Hn) & c0 & Hc0 & Hc0ne).
  destruct Hc as (Hl & Hval & _ & _).
  split.
  - intros [= ->].
    (* every reachable vertex is coloured *)
    assert (∀ u, rtc (arc g) 0%nat u → ∃ cu, color !! u = Some cu ∧ cu ≠ 0) as Hall.
    { apply rtc_ind_r; [by exists c0|].
      intros u v Hu Huv (cu & Hcu & Hcune).
      destruct (Hn u v cu) as (cv & ? & ? & _); try done; [|by exists cv].
      apply lookup_replicate. split; [done|]. by apply (arc_lt g u v). }
    exists (λ x, bool_decide (color !! x = Some 1)).
    intros u v Hu Huv.
    destruct (Hall u Hu) as (cu & Hcu & Hcune).
    destruct (Hn u v cu) as (cv & Hcv & Hcvne & Hopp); try done.
    { apply lookup_replicate. split; [done|]. by apply (arc_lt g u v). }
    specialize (Hopp eq_refl). rewrite Hcu, Hcv.
    destruct (Hval _ _ Hcu) as [?|[?|?]]; subst; try done.
  - intros Hχ. destruct ret; [done|].
    destruct (Hf eq_refl) as [?|Hno]; [done|]. by destruct Hno.
Qed.

(** C4, as amended.  On a well-formed graph that has a vertex 0,
    [isBipartiteGraph] returns, and it returns true exactly when the part of
    the graph that is reachable from vertex 0 admits a proper colouring with
    two colours; when every vertex is reachable from vertex 0, that is the
    whole graph. *)
Theorem isBipartiteGraph_reachable_part (g : list (list Edge)) :
  graph_ok g = true → (0 < length g)%nat →
  (∃ b, isBipartiteGraph g = Ok b) ∧
  (isBipartiteGraph g = Ok true ↔ ∃ χ, proper_from0 g χ) ∧
  ((∀ v, (v < length g)%nat → rtc (arc g) 0%nat v) →
     (isBipartiteGraph g = Ok true ↔ ∃ χ, proper g χ)).
Proof.
  intros Hok Hlen. split_and!.
  - destruct (isBipartiteGraph_run g Hok Hlen) as (? & ret & ? & _). by exists ret.
  - by apply isBipartiteGraph_true_iff.
  - intros Hconn. rewrite isBipartiteGraph_true_iff by done.
    split; intros [χ Hχ]; exists χ.
    + intros u v Huv. apply Hχ; [|done]. apply Hconn. by apply (arc_lt g u v).
    + intros u v _ Huv. by apply Hχ.
Qed.

(** The examples of the specification: a 4-cycle and a triangle, and a
    triangle that vertex 0 is not part of. *)
Definition cycle4 : list (list Edge) :=
  Eval vm_compute in
    from_Ok [] (build 4 [und 0 1 1; und 1 2 1; und 2 3 1; und 3 0 1]).

Definition triangle : list (list Edge) :=
  Eval vm_compute in from_Ok [] (build 3 [und 0 1 1; und 1 2 1; und 2 0 1]).

Definition triangle_beside_0 : list (list Edge) :=
  Eval vm_compute in from_Ok [] (build 4 [und 1 2 1; und 2 3 1; und 3 1 1]).

Example isBipartiteGraph_cycle4 : isBipartiteGraph cycle4 = Ok true.
Proof. reflexivity. Qed.

Example isBipartiteGraph_triangle : isBipartiteGraph triangle = Ok false.
Proof. reflexivity. Qed.

Lemma isBipartiteGraph_reachable_part_witness :
  (∃ b, isBipartiteGraph cycle4 = Ok b) ∧
  (isBipartiteGraph cycle4 = Ok true ↔ ∃ χ, proper_from0 cycle4 χ) ∧
  ((∀ v, (v < length cycle4)%nat → rtc (arc cycle4) 0%nat v) →
     (isBipartiteGraph cycle4 = Ok true ↔ ∃ χ, proper cycle4 χ)).
Proof.
  apply (isBipartiteGraph_reachable_part cycle4); [reflexivity|simpl; lia].
Defined.

Lemma arc_intro (g : list (list Edge)) u v es e :
  g !! u = Some es → e ∈ es → to e = v → arc g u v.
Proof. intros. by exists es, e. Qed.

(** C4 as stated fails where a part of the graph is out of reach of vertex 0:
    the answer is true although the graph has a triangle. *)
Lemma isBipartiteGraph_counterexample :
  graph_ok triangle_beside_0 = true ∧
  ¬ (isBipartiteGraph triangle_beside_0 = Ok true ↔ ∃ χ, proper triangle_beside_0 χ).
Proof.
  split; [reflexivity|]. intros [H _]. destruct (H eq_refl) as [χ Hχ].
  assert (χ 1%nat ≠ χ 2%nat) as H12.
  { apply Hχ. eapply (arc_intro _ _ _ _ (mkEdge 1 2 1)); [reflexivity|set_solver|reflexivity]. }
  assert (χ 2%nat ≠ χ 3%nat) as H23.
  { apply Hχ. eapply (arc_intro _ _ _ _ (mkEdge 2 3 1)); [reflexivity|set_solver|reflexivity]. }
  assert (χ 3%nat ≠ χ 1%nat) as H31.
  { apply Hχ. eapply (arc_intro _ _ _ _ (mkEdge 3 1 1)); [reflexivity|set_solver|reflexivity]. }
  destruct (χ 1%nat), (χ 2%nat), (χ 3%nat); congruence.
Qed.

(** C10.  [dfs(0, 1)] reads [color[0]] before anything else: on the graph
    with no vertex that read is out of bounds, and on a well-formed graph
    with at least one vertex no access is out of bounds and the call
    returns. *)
Theorem isBipartiteGraph_needs_vertex_0 (g : list (list Edge)) :
  graph_ok g = true →
  (length g = 0%nat → isBipartiteGraph g = OutOfBounds) ∧
  ((0 < length g)%nat → ∃ b, isBipartiteGraph g = Ok b).
Proof.
  intros Hok. split.
  - intros Hl. destruct g; [reflexivity|done].
  - intros Hl. destruct (isBipartiteGraph_run g Hok Hl) as (? & ret & ? & _).
    by exists ret.
Qed.

Lemma isBipartiteGraph_needs_vertex_0_witness :
  (length (@nil (list Edge)) = 0%nat → isBipartiteGraph [] = OutOfBounds) ∧
  ((0 < length (@nil (list Edge)))%nat → ∃ b, isBipartiteGraph [] = Ok b).
Proof. apply (isBipartiteGraph_needs_vertex_0 []). reflexivity. Defined.

(** ** Topological sort *)

(** [g] has a directed cycle. *)
Definition cyclic (g : list (list Edge)) : Prop := ∃ x, tc (arc g) x x.

(** [u] stands at an earlier position of [l] than [v]. *)
Definition before (l : list nat) (u v : nat) : Prop :=
  ∃ i j, l !! i = Some u ∧ l !! j = Some v ∧ (i < j)%nat.

(** [l] lists every vertex of [g] once, and every arc leads forward. *)
Definition topological (g : list (list Edge)) (l : list nat) : Prop :=
  l ≡ₚ seq 0 (length g) ∧ ∀ u v, arc g u v → before l u v.

Lemma before_trans l a b c : NoDup l → before l a b → before l b c → before l a c.
Proof.
  intros Hnd (i & j & Hi & Hj & Hij) (j' & k & Hj' & Hk & Hjk).
  assert (j = j') as <- by (by eapply NoDup_lookup).
  exists i, k. split_and!; try done. lia.
Qed.

Lemma before_irrefl l a : NoDup l → ¬ before l a a.
Proof.
  intros Hnd (i & j & Hi & Hj & Hij).
  assert (i = j) by (by eapply NoDup_lookup). lia.
Qed.

Lemma topological_acyclic g l : topological g l → ¬ cyclic g.
Proof.
  intros [Hp Harc] [x Hx].
  assert (NoDup l) as Hnd by (rewrite Hp; apply NoDup_seq).
  assert (∀ a b, tc (arc g) a b → before l a b) as Htc.
  { intros a b Hab. induction Hab as [a b Hab|a b c Hab _ IH]; [by apply Harc|].
    eapply before_trans; [done|by apply Harc|done]. }
  by apply (before_irrefl l x Hnd), Htc.
Qed.

Lemma visit_unfold fuel g v color order :
  visit (S fuel) g v (color, order) =
    color ← vset color v 1;
    es ← vget g v;
    '(ok, (color, order)) ← visit_edges (visit fuel g) es (color, order);
    if ok : bool then
      let order := order ++ [v] in
      color ← vset color v 2;
      Ok (true, (color, order))
    else Ok (false, (color, order)).
Proof. reflexivity. Qed.

Section topological_sort.
Variable g : list (list Edge).
Hypothesis Hok : graph_ok g = true.
Variable order0 : list nat.

(** The state of the search: colours are 0 (white), 1 (grey) and 2 (black);
[order] is the caller's vector followed by the black vertices, each once,
and every arc out of a black vertex leads to a vertex pushed before it. *)
Definition tinv (color : list Z) (order : list nat) : Prop :=
length color = length g ∧
(∀ x c, color !! x = Some c → c = 0 ∨ c = 1 ∨ c = 2) ∧
∃ fin, order = order0 ++ fin ∧ NoDup fin ∧
(∀ x, x ∈ fin ↔ color !! x = Some 2) ∧
(∀ i u v, fin !! i = Some u → arc g u v → ∃ j, (j < i)%nat ∧ fin !! j = Some v).

(** What a successful part of the search does to the colours: the grey
vertices stay the same, and black stays black. *)
Definition tstep (c c' : list Z) : Prop :=
(∀ x, c' !! x = Some 1 ↔ c !! x = Some 1) ∧
(∀ x, c !! x = Some 2 → c' !! x = Some 2).

Lemma tstep_refl c : tstep c c.
Proof using Type. by split. Qed.

Lemma tstep_trans a b c : tstep a b → tstep b c → tstep a c.
Proof using Type.
intros [H1 H2] [H3 H4]. split.
- intros x. by rewrite H3, H1.
- intros x ?. by apply H4, H2.
Qed.

Lemma tstep_zeros c o c' o' : tinv c o → tinv c' o' → tstep c c' → (zeros c' ≤ zeros c)%nat.
Proof using Type.
intros (Hl & Hv & _) (Hl' & Hv' & _) [Hg Hb]. apply zeros_mono; [congruence|].
intros x v Hx Hne. destruct (Hv x v Hx) as [?|[->| ->]]; [done| |].
- exists 1. split; [by apply Hg|done].
- exists 2. split; [by apply Hb|done].
Qed.

(** The contract of a call [visit(w)]. *)
Definition visit_ok (rec : nat → list Z * list nat → result (bool * (list Z * list nat)))
(fuel : nat) : Prop :=
∀ w c o,
tinv c o → c !! w = Some 0 → (zeros c ≤ fuel)%nat →
(∀ x, c !! x = Some 1 → rtc (arc g) x w) →
∃ ok c' o', rec w (c, o) = Ok (ok, (c', o')) ∧
(ok = true → tinv c' o' ∧ tstep c c' ∧ c' !! w = Some 2) ∧
(ok = false → cyclic g).

Lemma visit_edges_spec rec fuel v es :
visit_ok rec fuel →
∀ c o,
tinv c o → c !! v = Some 1 → (zeros c ≤ fuel)%nat →
(∀ x, c !! x = Some 1 → rtc (arc g) x v) →
(∀ e, e ∈ es → arc g v (to e)) →
∃ ok c' o', visit_edges rec es (c, o) = Ok (ok, (c', o')) ∧
(ok = true → tinv c' o' ∧ tstep c c' ∧ ∀ e, e ∈ es → c' !! to e = Some 2) ∧
(ok = false → cyclic g).
Proof using Hok.
intros Hrec. induction es as [|e es IH]; intros c o Hinv Hv Hfuel Hgrey Harcs.
{ exists true, c, o. split_and!; [done| |done].
intros _. split_and!; [done|apply tstep_refl|]. intros e He. by apply elem_of_nil in He. }
assert (arc g v (to e)) as Harc by (apply Harcs; set_solver).
destruct (arc_lt g _ _ Hok Harc) as [_ Hto].
pose proof Hinv as (Hlen & Hval & _).
simpl. destruct (vget_lt c (to e)) as (ce & -> & Hce); [lia|]. simpl.
destruct (Hval _ _ Hce) as [->|[->| ->]]; simpl.
- (* white: the recursive call *)
destruct (Hrec (to e) c o) as (ok & c1 & o1 & -> & Ht & Hf); try done.
{ intros x Hx. eapply rtc_r; [by apply Hgrey|done]. }
simpl. destruct ok; last first.
{ exists false, c1, o1. split_and!; [done|done|]. intros _. by apply Hf. }
destruct (Ht eq_refl) as (Hinv1 & Hstep1 & Hblack).
destruct (IH c1 o1) as (ok & c2 & o2 & -> & Ht2 & Hf2); try done.
{ by apply Hstep1. }
{ pose proof (tstep_zeros _ _ _ _ Hinv Hinv1 Hstep1). lia. }
{ intros x Hx. apply Hgrey. by apply Hstep1. }
{ intros e' He'. apply Harcs. set_solver. }
exists ok, c2, o2. split_and!; [done| |done].
intros ->. destruct (Ht2 eq_refl) as (Hinv2 & Hstep2 & Hall).
split_and!; [done|by eapply tstep_trans|].
intros e' [->|He']%elem_of_cons; [|by apply Hall]. by apply Hstep2.
- (* grey: a cycle *)
exists false, c, o. split_and!; [done|done|]. intros _. exists v.
eapply tc_rtc_r; [by apply tc_once|]. by apply Hgrey.
- (* black: continue *)
destruct (IH c o) as (ok & c2 & o2 & -> & Ht2 & Hf2); try done.
{ intros e' He'. apply Harcs. set_solver. }
exists ok, c2, o2. split_and!; [done| |done].
intros ->. destruct (Ht2 eq_refl) as (Hinv2 & Hstep2 & Hall).
split_and!; [done|done|].
intros e' [->|He']%elem_of_cons; [|by apply Hall]. by apply Hstep2.
Qed.

Lemma visit_spec fuel : visit_ok (visit fuel g) fuel.
Proof using Hok.
induction fuel as [|fuel IH]; intros v c o Hinv Hv Hfuel Hgrey.
{ assert (0 < zeros c)%nat; [|lia].
pose proof (zeros_insert c v 1 Hv). lia. }
pose proof Hinv as (Hlen & Hval & fin & Ho & Hnd & Hfin & Hfwd).
assert (v < length g)%nat as Hvlt by (rewrite <- Hlen; by eapply lookup_lt_Some).
rewrite visit_unfold. rewrite vset_lt by lia. simpl.
destruct (vget_lt g v Hvlt) as (es & -> & Hes). simpl.
set (c1 := <[v:=1]> c).
assert (c1 !! v = Some 1) as Hc1v by (apply list_lookup_insert_eq; lia).
assert (∀ x, x ≠ v → c1 !! x = c !! x) as Hc1x.
{ intros x Hx. unfold c1. by rewrite list_lookup_insert_ne. }
assert (tinv c1 o) as Hinv1.
{ split_and!.
- unfold c1. by rewrite length_insert.
- intros x cx Hx. destruct (decide (x = v)) as [->|Hne].
+ rewrite Hc1v in Hx. injection Hx as <-. auto.
+ rewrite Hc1x in Hx by done. eauto.
- exists fin. split_and!; try done. intros x. rewrite Hfin.
destruct (decide (x = v)) as [->|Hne].
+ rewrite Hc1v, Hv. split; congruence.
+ by rewrite Hc1x. }
destruct (visit_edges_spec (visit fuel g) fuel v es IH c1 o)
as (ok & c2 & o2 & -> & Ht & Hf); try done.
{ pose proof (zeros_insert c v 1 Hv). unfold c1. lia. }
{ intros x Hx. destruct (decide (x = v)) as [->|Hne]; [done|].
apply Hgrey. by rewrite <- Hc1x. }
{ intros e He. by exists es, e. }
simpl. destruct ok; last first.
{ exists false, c2, o2. split_and!; [done|done|]. intros _. by apply Hf. }
destruct (Ht eq_refl) as (Hinv2 & [Hgrey2 Hblack2] & Hall).
pose proof Hinv2 as (Hlen2 & Hval2 & fin2 & Ho2 & Hnd2 & Hfin2 & Hfwd2).
assert (c2 !! v = Some 1) as Hc2v by (by apply Hgrey2).
rewrite vset_lt by lia. simpl.
exists true, (<[v:=2]> c2), (o2 ++ [v]). split_and!; [done| |done].
intros _.
assert (<[v:=2]> c2 !! v = Some 2) as Hc3v by (apply list_lookup_insert_eq; lia).
assert (v ∉ fin2) as Hvfin by (rewrite Hfin2, Hc2v; congruence).
split_and!; [|split|done].
- split_and!.
+ by rewrite length_insert.
+ intros x cx Hx. destruct (decide (x = v)) as [->|Hne].
* rewrite Hc3v in Hx. injection Hx as <-. auto.
* rewrite list_lookup_insert_ne in Hx by done. eauto.
+ exists (fin2 ++ [v]). split_and!.
* rewrite Ho2. by rewrite app_assoc.
* apply NoDup_app. split_and!; [done| |apply NoDup_singleton].
  intros x Hx ->%list_elem_of_singleton. done.
* intros x. rewrite elem_of_app, list_elem_of_singleton, Hfin2.
  destruct (decide (x = v)) as [->|Hne].
  -- rewrite Hc3v. naive_solver.
  -- rewrite list_lookup_insert_ne by done. naive_solver.
* intros i u y Hi Huy.
  destruct (decide (i < length fin2)%nat) as [Hlt|Hge].
  -- rewrite lookup_app_l in Hi by done.
     destruct (Hfwd2 i u y Hi Huy) as (j & Hj & Hjy).
     exists j. split; [done|]. rewrite lookup_app_l by lia. done.
  -- rewrite lookup_app_r in Hi by lia.
     apply list_lookup_singleton_Some in Hi as [Hi <-].
     destruct Huy as (es' & e & Hes' & He & <-).
     assert (es' = es) as -> by congruence.
     pose proof (Hall e He) as Hblack. apply Hfin2 in Hblack.
     apply list_elem_of_lookup in Hblack as [j Hj].
     exists j. split.
     ++ apply lookup_lt_Some in Hj. lia.
     ++ by apply lookup_app_l_Some.
- intros x. destruct (decide (x = v)) as [->|Hne].
+ rewrite Hc3v, Hv. split; congruence.
+ rewrite list_lookup_insert_ne by done. rewrite Hgrey2. by rewrite Hc1x.
- intros x Hx. destruct (decide (x = v)) as [->|Hne]; [done|].
rewrite list_lookup_insert_ne by done. apply Hblack2. by rewrite Hc1x.
Qed.

Lemma visit_roots_spec roots : ∀ c o,
tinv c o → (∀ x, c !! x ≠ Some 1) → (∀ i, i ∈ roots → (i < length g)%nat) →
∃ ok c' o', visit_roots g roots (c, o) = Ok (ok, (c', o')) ∧
(ok = true → tinv c' o' ∧ tstep c c' ∧ ∀ i, i ∈ roots → c' !! i = Some 2) ∧
(ok = false → cyclic g).
Proof using Hok.
induction roots as [|i roots IH]; intros c o Hinv Hnogrey Hroots.
{ exists true, c, o. split_and!; [done| |done].
intros _. split_and!; [done|apply tstep_refl|]. intros e He. by apply elem_of_nil in He. }
pose proof Hinv as (Hlen & Hval & _).
assert (i < length g)%nat as Hi by (apply Hroots; set_solver).
simpl. destruct (vget_lt c i) as (ci & -> & Hci); [lia|]. simpl.
destruct (Z.eqb_spec ci 0) as [->|Hne].
- destruct (visit_spec (length g) i c o) as (ok & c1 & o1 & -> & Ht & Hf); try done.
{ rewrite <- Hlen. apply zeros_le_length. }
{ intros x Hx. by destruct (Hnogrey x). }
simpl. destruct ok; last first.
{ exists false, c1, o1. split_and!; [done|done|]. intros _. by apply Hf. }
destruct (Ht eq_refl) as (Hinv1 & Hstep1 & Hblack).
destruct (IH c1 o1) as (ok & c2 & o2 & -> & Ht2 & Hf2); try done.
{ intros x Hx. apply Hstep1 in Hx. by destruct (Hnogrey x). }
{ intros j Hj. apply Hroots. set_solver. }
exists ok, c2, o2. split_and!; [done| |done].
intros ->. destruct (Ht2 eq_refl) as (Hinv2 & Hstep2 & Hall).
split_and!; [done|by eapply tstep_trans|].
intros j [->|Hj]%elem_of_cons; [|by apply Hall]. by apply Hstep2.
- destruct (IH c o) as (ok & c2 & o2 & -> & Ht2 & Hf2); try done.
{ intros j Hj. apply Hroots. set_solver. }
exists ok, c2, o2. split_and!; [done| |done].
intros ->. destruct (Ht2 eq_refl) as (Hinv2 & Hstep2 & Hall).
split_and!; [done|done|].
intros j [->|Hj]%elem_of_cons; [|by apply Hall].
apply Hstep2. destruct (Hval _ _ Hci) as [?|[->| ->]]; [done| |done].
by destruct (Hnogrey i).
Qed.

Lemma TopologicalSort_run :
∃ ok o, TopologicalSort g order0 = Ok (ok, o) ∧
(ok = true → ∃ l, o = l ++ reverse order0 ∧ topological g l) ∧
(ok = false → cyclic g).
Proof using Hok.
unfold TopologicalSort.
destruct (visit_roots_spec (seq 0 (length g)) (replicate (length g) 0) order0)
as (ok & c & o & -> & Ht & Hf).
{ split_and!.
- by rewrite length_replicate.
- intros x cx [-> _]%lookup_replicate. auto.
- exists []. split_and!.
+ by rewrite app_nil_r.
+ apply NoDup_nil_2.
+ intros x. split; [by intros ?%elem_of_nil|by intros [? _]%lookup_replicate].
+ intros i u v Hi. by rewrite lookup_nil in Hi. }
{ by intros x [? _]%lookup_replicate. }
{ intros i Hi%elem_of_seq. lia. }
simpl. destruct ok; last first.
{ exists false, o. split_and!; [done|done|]. intros _. by apply Hf. }
exists true, (reverse o). split_and!; [done| |done]. intros _.
destruct (Ht eq_refl) as ((Hlen & Hval & fin & -> & Hnd & Hfin & Hfwd) & _ & Hall).
exists (reverse fin). split; [by rewrite reverse_app|]. split.
- rewrite reverse_Permutation. apply NoDup_Permutation; [done|apply NoDup_seq|].
intros x. rewrite Hfin, elem_of_seq. split.
+ intros Hx%lookup_lt_Some. lia.
+ intros Hx. apply Hall, elem_of_seq. lia.
- intros u v Huv.
assert (u ∈ fin) as [i Hi]%list_elem_of_lookup.
{ apply Hfin, Hall, elem_of_seq. destruct (arc_lt g u v Hok Huv). lia. }
destruct (Hfwd i u v Hi Huv) as (j & Hji & Hj).
pose proof (lookup_lt_Some _ _ _ Hi) as Hilt.
exists (length fin - S i)%nat, (length fin - S j)%nat. split_and!.
+ rewrite reverse_lookup by lia. rewrite <- Hi. f_equal. lia.
+ rewrite reverse_lookup by lia. rewrite <- Hj. f_equal. lia.
+ lia.
Qed.
End topological_sort.

(** A graph has no directed cycle. *)
Definition acyclic (g : list (list Edge)) : Prop := ∀ x, ¬ tc (arc g) x x.

(** C5.  On a well-formed directed graph, [TopologicalSort(g, order)]
    returns.  If the graph has no directed cycle it returns true, and the
    vertices now stand in [order] in a linear order that every arc respects
    (in front of what the caller's vector held, reversed; nothing when the
    vector was empty, as in the usage comment).  If the graph has a directed
    cycle it returns false. *)
Theorem TopologicalSort_correct (g : list (list Edge)) (order0 : list nat) :
  graph_ok g = true →
  (acyclic g →
     ∃ l, TopologicalSort g order0 = Ok (true, l ++ reverse order0) ∧
       l ≡ₚ seq 0 (length g) ∧ ∀ u v, arc g u v → before l u v) ∧
  (cyclic g → ∃ order, TopologicalSort g order0 = Ok (false, order)).
Proof.
  intros Hok.
  destruct (TopologicalSort_run g Hok order0) as (ok & o & Hrun & Ht & Hf).
  split.
  - intros Hac. destruct ok.
    + destruct (Ht eq_refl) as (l & -> & Hp & Harc). by exists l.
    + destruct (Hf eq_refl) as [x Hx]. by destruct (Hac x).
  - intros Hcyc. destruct ok; [|by exists o].
    destruct (Ht eq_refl) as (l & _ & Htopo).
    by destruct (topological_acyclic g l Htopo).
Qed.

Definition dag4 : list (list Edge) :=
  Eval vm_compute in
    from_Ok [] (build_arcs 4 [und 0 1 1; und 1 2 1; und 0 2 1; und 3 0 1]).

Definition cycle3 : list (list Edge) :=
  Eval vm_compute in from_Ok [] (build_arcs 3 [und 0 1 1; und 1 2 1; und 2 0 1]).

Example TopologicalSort_dag4 : TopologicalSort dag4 [] = Ok (true, [3; 0; 1; 2]%nat).
Proof. reflexivity. Qed.

Example TopologicalSort_cycle3 : TopologicalSort cycle3 [] = Ok (false, []).
Proof. reflexivity. Qed.

Lemma TopologicalSort_correct_witness :
  (acyclic dag4 →
     ∃ l, TopologicalSort dag4 [] = Ok (true, l ++ reverse []) ∧
       l ≡ₚ seq 0 (length dag4) ∧ ∀ u v, arc dag4 u v → before l u v) ∧
  (cyclic dag4 → ∃ order, TopologicalSort dag4 [] = Ok (false, order)).
Proof. apply (TopologicalSort_correct dag4 []). reflexivity. Defined.

(** A loop that has returned kept every invariant its body keeps. *)
Lemma foldM_Ok_ind {A S} (I : list A → S → Prop) (body : S → A → result S) l s s' :
  foldM body l s = Ok s' →
  I [] s →
  (∀ done x s s1, I done s → body s x = Ok s1 → I (done ++ [x]) s1) →
  I l s'.
Proof.
  intros Hrun H0 Hstep.
  cut (∀ rest done s, foldM body rest s = Ok s' → I done s → I (done ++ rest) s').
  { intros H. by apply (H l [] s). }
  induction rest as [|x rest IH]; intros done s0 Hr HI; simpl in Hr.
  - injection Hr as <-. by rewrite app_nil_r.
  - apply bind_Ok in Hr as (s1 & Hs1 & Hr).
    replace (done ++ x :: rest) with ((done ++ [x]) ++ rest) by (by rewrite <- app_assoc).
    apply (IH (done ++ [x]) s1); [done|]. by apply (Hstep done x s0 s1).
Qed.

(** ** The edges of a graph *)

(** [e] is stored in one of the adjacency lists of [g]. *)
Definition has_edge (g : list (list Edge)) (e : Edge) : Prop :=
  ∃ i es, g !! i = Some es ∧ e ∈ es.

Lemma has_edge_ok g e :
  graph_ok g = true → has_edge g e → (from e < length g)%nat ∧ (to e < length g)%nat.
Proof.
  rewrite graph_ok_spec. intros Hok (i & es & Hi & He).
  destruct (Hok i es e Hi He) as [-> ?]. split; [|done]. by eapply lookup_lt_Some.
Qed.

Lemma has_edge_at g e :
  graph_ok g = true → has_edge g e → ∃ es, g !! from e = Some es ∧ e ∈ es.
Proof.
  rewrite graph_ok_spec. intros Hok (i & es & Hi & He).
  destruct (Hok i es e Hi He) as [-> ?]. by exists es.
Qed.

Lemma emplace_back_Ok g i e g' :
  emplace_back g i e = Ok g' →
  (i < length g)%nat ∧ length g' = length g ∧
  (∀ e', has_edge g' e' ↔ has_edge g e' ∨ e' = e) ∧
  (graph_ok g = true → from e = i → (to e < length g)%nat → graph_ok g' = true).
Proof.
  unfold emplace_back. intros (es & Hes%vget_Ok & [Hi ->]%vset_Ok)%bind_Ok.
  split_and!; [done|by rewrite length_insert| |].
  - intros e'. split.
    + intros (j & es' & Hj & He'). destruct (decide (j = i)) as [->|Hne].
      * rewrite list_lookup_insert_eq in Hj by done. injection Hj as <-.
        apply elem_of_app in He' as [?| ->%list_elem_of_singleton]; [|by right].
        left. by exists i, es.
      * rewrite list_lookup_insert_ne in Hj by done. left. by exists j, es'.
    + intros [(j & es' & Hj & He')| ->].
      * destruct (decide (j = i)) as [->|Hne].
        -- exists i, (es ++ [e]). rewrite list_lookup_insert_eq by done.
           split; [done|]. assert (es' = es) as -> by congruence. set_solver.
        -- exists j, es'. by rewrite list_lookup_insert_ne.
      * exists i, (es ++ [e]). rewrite list_lookup_insert_eq by done.
        split; [done|]. set_solver.
  - rewrite !graph_ok_spec. intros Hok Hfrom Hto j es' e' Hj He'.
    rewrite length_insert. destruct (decide (j = i)) as [->|Hne].
    + rewrite list_lookup_insert_eq in Hj by done. injection Hj as <-.
      apply elem_of_app in He' as [?| ->%list_elem_of_singleton]; [|done].
      by apply (Hok i es).
    + rewrite list_lookup_insert_ne in Hj by done. by apply (Hok j es').
Qed.

Lemma add_edge_Ok g u v w g' :
  add_edge g u v w = Ok g' →
  (u < length g)%nat ∧ (v < length g)%nat ∧ length g' = length g ∧
  (∀ e, has_edge g' e ↔ has_edge g e ∨ e = mkEdge u v w ∨ e = mkEdge v u w) ∧
  (graph_ok g = true → graph_ok g' = true).
Proof.
  unfold add_edge.
  intros (g1 & (Hu & Hl1 & He1 & Hok1)%emplace_back_Ok
             & (Hv & Hl2 & He2 & Hok2)%emplace_back_Ok)%bind_Ok.
  split_and!; [done|lia|lia| |].
  - intros e. rewrite He2, He1. tauto.
  - intros Hok. apply Hok2; [|done|simpl; lia]. apply Hok1; [done..|simpl; lia].
Qed.

Lemma add_edge_lt g u v w :
  (u < length g)%nat → (v < length g)%nat → ∃ g', add_edge g u v w = Ok g'.
Proof.
  intros Hu Hv. unfold add_edge, emplace_back.
  destruct (vget_lt g u Hu) as (es & -> & _). simpl. rewrite vset_lt by done. simpl.
  destruct (vget_lt (<[u:=es ++ [mkEdge u v w]]> g) v) as (es' & -> & _).
  { by rewrite length_insert. }
  simpl. rewrite vset_lt by (by rewrite length_insert). eauto.
Qed.

(** What [build] builds: a well-formed graph whose edges come in pairs. *)
Lemma build_spec n l g :
  build n l = Ok g →
  length g = n ∧ graph_ok g = true ∧
  (∀ e, has_edge g e ↔
     ∃ u v w, (u, v, w) ∈ l ∧ (e = mkEdge u v w ∨ e = mkEdge v u w)).
Proof.
  unfold build. intros Hrun.
  apply (foldM_Ok_ind
    (λ done g, length g = n ∧ graph_ok g = true ∧
       ∀ e, has_edge g e ↔
         ∃ u v w, (u, v, w) ∈ done ∧ (e = mkEdge u v w ∨ e = mkEdge v u w))
    _ _ _ _ Hrun).
  - unfold new_graph. split_and!.
    + by rewrite length_replicate.
    + apply graph_ok_spec. intros u es e [-> _]%lookup_replicate He.
      by apply elem_of_nil in He.
    + intros e. split.
      * intros (i & es & [-> _]%lookup_replicate & He). by apply elem_of_nil in He.
      * intros (u & v & w & H & _). by apply elem_of_nil in H.
  - intros done [[u v] w] g0 g1 (Hlen & Hok & Hedges) Hg1.
    destruct (add_edge_Ok _ _ _ _ _ Hg1) as (Hu & Hv & Hl1 & He1 & Hok1).
    split_and!; [lia|by apply Hok1|].
    intros e. rewrite He1, Hedges. split.
    + intros [(a & b & c & Habc & He)|He].
      * exists a, b, c. split; [set_solver|done].
      * exists u, v, w. split; [set_solver|done].
    + intros (a & b & c & [Habc|Habc%list_elem_of_singleton]%elem_of_app & He).
      * left. by exists a, b, c.
      * injection Habc as -> -> ->. by right.
Qed.

(** ** Matrices *)

(** An [n] by [n] matrix. *)
Definition square (n : nat) (M : list (list Z)) : Prop :=
  length M = n ∧ ∀ i row, M !! i = Some row → length row = n.

(** The entry [M[i][j]] of a matrix, for indices in range. *)
Definition mat (M : list (list Z)) (i j : nat) : Z :=
  default 0 (M !! i ≫= λ row, row !! j).

Lemma mget_square n M i j :
  square n M → (i < n)%nat → (j < n)%nat → mget M i j = Ok (mat M i j).
Proof.
  intros [Hl Hrow] Hi Hj. unfold mget, mat.
  destruct (vget_lt M i) as (row & -> & Hr); [lia|]. simpl.
  destruct (vget_lt row j) as (x & -> & Hx); [rewrite (Hrow i row Hr); lia|].
  by rewrite Hr; simpl; rewrite Hx.
Qed.

Lemma mget_outside n M i j :
  square n M → ¬ ((i < n)%nat ∧ (j < n)%nat) → mget M i j = OutOfBounds.
Proof.
  intros [Hl Hrow] Hij. unfold mget.
  destruct (decide (i < n)%nat) as [Hi|Hi].
  - destruct (vget_lt M i) as (row & -> & Hr); [lia|]. simpl.
    apply vget_ge. rewrite (Hrow i row Hr). lia.
  - rewrite vget_ge by lia. done.
Qed.

Lemma mset_square n M i j x :
  square n M → (i < n)%nat → (j < n)%nat →
  ∃ M', mset M i j x = Ok M' ∧ square n M' ∧
    ∀ a b, mat M' a b = if decide (a = i ∧ b = j) then x else mat M a b.
Proof.
  intros [Hl Hrow] Hi Hj. unfold mset.
  destruct (vget_lt M i) as (row & -> & Hr); [lia|]. simpl.
  pose proof (Hrow i row Hr) as Hlr.
  rewrite vset_lt by lia. simpl. rewrite vset_lt by lia.
  eexists. split; [done|]. split.
  - split; [by rewrite length_insert|].
    intros a r Ha. destruct (decide (a = i)) as [->|Hne].
    + rewrite list_lookup_insert_eq in Ha by lia. injection Ha as <-.
      by rewrite length_insert.
    + rewrite list_lookup_insert_ne in Ha by done. eauto.
  - intros a b. unfold mat. destruct (decide (a = i)) as [->|Hne].
    + rewrite list_lookup_insert_eq by lia. simpl.
      destruct (decide (b = j)) as [->|Hne].
      * rewrite decide_True by done. by rewrite list_lookup_insert_eq by lia.
      * rewrite decide_False by naive_solver.
        rewrite list_lookup_insert_ne by done. by rewrite Hr.
    + rewrite decide_False by naive_solver.
      by rewrite list_lookup_insert_ne by done.
Qed.

Lemma square_ext n M M' :
  square n M → square n M' →
  (∀ i j, (i < n)%nat → (j < n)%nat → mat M i j = mat M' i j) → M = M'.
Proof.
  intros [Hl Hrow] [Hl' Hrow'] Heq.
  apply list_eq_same_length with n; [done..|].
  intros i r r' Hi Hr Hr'.
  apply list_eq_same_length with n; [by eapply Hrow'|by eapply Hrow|].
  intros j x x' Hj Hx Hx'.
  specialize (Heq i j Hi Hj). unfold mat in Heq.
  rewrite Hr, Hr' in Heq. simpl in Heq. by rewrite Hx, Hx' in Heq.
Qed.

Lemma square_replicate n x : square n (replicate n (replicate n x)).
Proof.
  split; [by rewrite length_replicate|].
  intros i row [-> _]%lookup_replicate. by rewrite length_replicate.
Qed.

Lemma mat_replicate n x i j :
  (i < n)%nat → (j < n)%nat → mat (replicate n (replicate n x)) i j = x.
Proof.
  intros Hi Hj. unfold mat.
  rewrite lookup_replicate_2 by done. simpl. by rewrite lookup_replicate_2.
Qed.

(** ** One relaxation *)

(** The new value of [dist[i][j]], from its old value [x] and the values
    [y] of [dist[i][k]] and [z] of [dist[k][j]]. *)
Definition upd (x y z : Z) : Z :=
  if negb (y =? INF) && negb (z =? INF) then Z.min x (add y z) else x.

Lemma upd_comm x y z : upd x y z = upd x z y.
Proof. unfold upd. by rewrite andb_comm, add_comm. Qed.

Lemma upd_ext x y y' z z' : y = y' → z = z' → upd x y z = upd x y' z'.
Proof. by intros -> ->. Qed.

Lemma upd_range x y z :
  0 ≤ y ≤ INF → 0 ≤ z ≤ INF → Z.min x (y + z) ≤ upd x y z ≤ x.
Proof.
  intros Hy Hz. unfold upd. rewrite INF_val in *.
  destruct (negb _ && negb _); [|lia].
  rewrite add_small by (unfold INT_MIN, INT_MAX; lia). lia.
Qed.

Lemma upd_min x y z :
  x ≤ INF → 0 ≤ y ≤ INF → 0 ≤ z ≤ INF → upd x y z = Z.min x (y + z).
Proof.
  intros Hx Hy Hz. unfold upd.
  destruct (Z.eqb_spec y INF) as [->|?]; simpl; [lia|].
  destruct (Z.eqb_spec z INF) as [->|?]; simpl; [lia|].
  rewrite INF_val in *. rewrite add_small by (unfold INT_MIN, INT_MAX; lia). done.
Qed.

Lemma wf_relax_spec n k i j M :
  square n M → (k < n)%nat → (i < n)%nat → (j < n)%nat →
  ∃ M', wf_relax k i j M = Ok M' ∧ square n M' ∧
    ∀ a b, mat M' a b =
      if decide (a = i ∧ b = j) then upd (mat M i j) (mat M i k) (mat M k j)
      else mat M a b.
Proof.
  intros Hsq Hk Hi Hj. unfold wf_relax.
  rewrite !(mget_square n) by done. simpl. unfold upd.
  destruct (negb _ && negb _).
  - rewrite ?(mget_square n) by done. simpl. by apply mset_square.
  - exists M. split_and!; [done..|]. intros a b. case_decide as H; [|done].
    by destruct H as [-> ->].
Qed.

(** A property of matrices that every relaxation at [k] keeps is kept by
    the pass at [k]. *)
Lemma wf_pass_preserves (P : list (list Z) → Prop) n k M :
  square n M → (k < n)%nat → P M →
  (∀ C i j, square n C → (i < n)%nat → (j < n)%nat → P C →
     ∀ C', wf_relax k i j C = Ok C' → P C') →
  ∃ M', wf_pass n k M = Ok M' ∧ square n M' ∧ P M'.
Proof.
  intros Hsq Hk HP Hstep. unfold wf_pass.
  apply (for_range_inv (λ _ C, square n C ∧ P C)); [done|].
  intros i C Hi [HsqC HPC].
  apply (for_range_inv (λ _ C, square n C ∧ P C)); [done|].
  intros j C1 Hj [HsqC1 HPC1].
  destruct (wf_relax_spec n k i j C1) as (C2 & Hrun & Hsq2 & _); try done.
  exists C2. split_and!; try done. by apply (Hstep C1 i j).
Qed.

(** *** The pass at [k] in closed form

    The pass updates the matrix in place, so an entry read in row [k] or in
    column [k] may be one that the pass has already written.  [pass_kk],
    [pass_col] and [pass_row] are the new values of [dist[k][k]],
    [dist[i][k]] and [dist[k][j]], and [pass_cell] that of [dist[i][j]]. *)
Section pass.
Variable M : list (list Z).
Variable k : nat.

Definition pass_kk : Z := upd (mat M k k) (mat M k k) (mat M k k).

Definition pass_col (i : nat) : Z :=
upd (mat M i k) (mat M i k) (if (k <? i)%nat then pass_kk else mat M k k).

Definition pass_row (j : nat) : Z :=
upd (mat M k j) (if (k <? j)%nat then pass_kk else mat M k k) (mat M k j).

Definition pass_cell (i j : nat) : Z :=
upd (mat M i j)
(if (k <? j)%nat then pass_col i else mat M i k)
(if (k <? i)%nat then pass_row j else mat M k j).

Lemma pass_cell_unfold i j :
pass_cell i j =
  upd (mat M i j)
    (if (k <? j)%nat then pass_col i else mat M i k)
    (if (k <? i)%nat then pass_row j else mat M k j).
Proof using Type. reflexivity. Qed.

Lemma pass_cell_col i : pass_cell i k = pass_col i.
Proof using Type.
unfold pass_cell, pass_col, pass_row. rewrite Nat.ltb_irrefl. done.
Qed.

Lemma pass_cell_row j : pass_cell k j = pass_row j.
Proof using Type.
unfold pass_cell, pass_col, pass_row. rewrite Nat.ltb_irrefl. done.
Qed.

Lemma wf_pass_spec n :
square n M → (k < n)%nat →
∃ M', wf_pass n k M = Ok M' ∧ square n M' ∧
∀ i j, (i < n)%nat → (j < n)%nat → mat M' i j = pass_cell i j.
Proof using Type.
intros Hsq Hk. unfold wf_pass.
destruct (for_range_inv
(λ i0 C, square n C ∧ ∀ a b, (a < n)%nat → (b < n)%nat →
   mat C a b = if (a <? i0)%nat then pass_cell a b else mat M a b)
n (λ i dist, for_range n (λ j dist, wf_relax k i j dist) dist) M)
as (M' & Hrun & Hsq' & HM'); [done| |].
- intros i0 C Hi0 [HsqC HC].
destruct (for_range_inv
  (λ j0 C, square n C ∧ ∀ a b, (a < n)%nat → (b < n)%nat →
     mat C a b = if (a <? i0)%nat || ((a =? i0)%nat && (b <? j0)%nat)
                 then pass_cell a b else mat M a b)
  n (λ j dist, wf_relax k i0 j dist) C) as (C' & Hrun & Hsq' & HC').
+ split; [done|]. intros a b Ha Hb. rewrite HC by done.
  by rewrite andb_false_r, orb_false_r.
+ intros j0 C1 Hj0 [HsqC1 HC1].
  destruct (wf_relax_spec n k i0 j0 C1) as (C2 & HrunC2 & HsqC2 & HC2); try done.
  exists C2. split_and!; try done. intros a b Ha Hb.
  rewrite HC2. case_decide as Hab.
  * destruct Hab as [-> ->].
    assert (mat C1 i0 j0 = mat M i0 j0) as ->.
    { rewrite HC1 by done. by rewrite Nat.ltb_irrefl, Nat.eqb_refl, Nat.ltb_irrefl. }
    assert (mat C1 i0 k = if (k <? j0)%nat then pass_col i0 else mat M i0 k) as ->.
    { rewrite HC1 by done. rewrite Nat.ltb_irrefl, Nat.eqb_refl. simpl.
      by rewrite pass_cell_col. }
    assert (mat C1 k j0 = if (k <? i0)%nat then pass_row j0 else mat M k j0) as ->.
    { rewrite HC1 by done.
      by rewrite Nat.ltb_irrefl, andb_false_r, orb_false_r, pass_cell_row. }
    rewrite Nat.ltb_irrefl, Nat.eqb_refl. simpl.
    rewrite (proj2 (Nat.ltb_lt j0 (S j0))) by lia.
    symmetry. apply pass_cell_unfold.
  * rewrite HC1 by done.
    destruct (Nat.ltb_spec a i0); simpl; [done|].
    destruct (Nat.eqb_spec a i0) as [->|]; simpl; [|done].
    destruct (Nat.ltb_spec b j0), (Nat.ltb_spec b (S j0)); try done; lia.
+ exists C'. split_and!; try done. intros a b Ha Hb.
  rewrite HC' by done.
  destruct (Nat.ltb_spec a i0), (Nat.ltb_spec a (S i0)); simpl; try done; try lia.
  * assert (a = i0) as -> by lia. rewrite Nat.eqb_refl.
    by rewrite (proj2 (Nat.ltb_lt b n)) by done.
  * destruct (Nat.eqb_spec a i0); [lia|done].
- exists M'. split_and!; try done. intros i j Hi Hj.
rewrite HM' by done. by rewrite (proj2 (Nat.ltb_lt i n)) by done.
Qed.
End pass.

(** ** The insertion helpers *)

Lemma emplace_back_ge (g : list (list Edge)) i e :
  (length g ≤ i)%nat → emplace_back g i e = OutOfBounds.
Proof. intros Hi. unfold emplace_back. by rewrite vget_ge. Qed.

Lemma emplace_back_lt (g : list (list Edge)) i e :
  (i < length g)%nat → ∃ g', emplace_back g i e = Ok g'.
Proof.
  intros Hi. unfold emplace_back.
  destruct (vget_lt g i Hi) as (es & -> & _). simpl. rewrite vset_lt by done. eauto.
Qed.

(** [add_edge] indexes the graph at both ends of the edge: it is out of
    bounds unless both are vertices of the graph.  When it returns, the graph
    has the same vertices, it has gained the edge in both directions and
    nothing else, and it is still well-formed. *)
Theorem add_edge_spec (g : list (list Edge)) (u v : nat) (w : Z) :
  (((u < length g)%nat ∧ (v < length g)%nat) ∨ add_edge g u v w = OutOfBounds) ∧
  (((u < length g)%nat ∧ (v < length g)%nat) → ∃ g', add_edge g u v w = Ok g') ∧
  (∀ g', add_edge g u v w = Ok g' →
     length g' = length g ∧
     (∀ e, has_edge g' e ↔ has_edge g e ∨ e = mkEdge u v w ∨ e = mkEdge v u w) ∧
     (graph_ok g = true → graph_ok g' = true)).
Proof.
  split_and!.
  - destruct (decide (u < length g)%nat) as [Hu|Hu]; last first.
    { right. unfold add_edge. by rewrite emplace_back_ge by lia. }
    destruct (decide (v < length g)%nat) as [Hv|Hv]; [by left|]. right.
    unfold add_edge. destruct (emplace_back_lt g u (mkEdge u v w) Hu) as [g1 Hg1].
    rewrite Hg1. simpl. apply emplace_back_ge.
    destruct (emplace_back_Ok _ _ _ _ Hg1) as (_ & -> & _). lia.
  - intros [Hu Hv]. by apply add_edge_lt.
  - intros g' Hg'. destruct (add_edge_Ok _ _ _ _ _ Hg') as (_ & _ & ? & ? & ?). done.
Qed.

(** [add_arc] indexes the graph at the source of the arc only.  It returns
    exactly when the source is a vertex; the target is not looked at, and
    the graph it returns is well-formed exactly when the graph was and the
    target is a vertex too. *)
Theorem add_arc_spec (g : list (list Edge)) (u v : nat) (w : Z) :
  ((u < length g)%nat ∨ add_arc g u v w = OutOfBounds) ∧
  ((u < length g)%nat → ∃ g', add_arc g u v w = Ok g') ∧
  (∀ g', add_arc g u v w = Ok g' →
     length g' = length g ∧
     (∀ e, has_edge g' e ↔ has_edge g e ∨ e = mkEdge u v w) ∧
     (graph_ok g' = true ↔ graph_ok g = true ∧ (v < length g)%nat)).
Proof.
  unfold add_arc. split_and!.
  - destruct (decide (u < length g)%nat) as [Hu|Hu]; [by left|right].
    apply emplace_back_ge. lia.
  - apply emplace_back_lt.
  - intros g' Hg'. destruct (emplace_back_Ok _ _ _ _ Hg') as (Hu & Hl & He & Hok).
    split_and!; [done|done|]. split.
    + intros Hok'. split.
      * apply graph_ok_spec. intros i es e Hi Hin.
        assert (has_edge g' e) as He' by (apply He; left; by exists i, es).
        destruct He' as (j & es' & Hj & Hin').
        pose proof (proj1 (graph_ok_spec g') Hok' j es' e Hj Hin') as [Hf Ht].
        rewrite Hl in Ht. split; [|done].
        (* the edge is stored at its source in [g] already *)
        revert Hg'. unfold emplace_back.
        intros (es0 & Hes0%vget_Ok & [_ ->]%vset_Ok)%bind_Ok.
        destruct (decide (i = u)) as [->|Hne].
        -- assert (es = es0) as -> by congruence.
           assert (<[u:=es0 ++ [mkEdge u v w]]> g !! u = Some (es0 ++ [mkEdge u v w])) as Hu'.
           { by apply list_lookup_insert_eq. }
           apply (proj1 (graph_ok_spec _) Hok' u _ e Hu'). set_solver.
        -- assert (<[u:=es0 ++ [mkEdge u v w]]> g !! i = Some es) as Hi'.
           { by rewrite list_lookup_insert_ne. }
           by apply (proj1 (graph_ok_spec _) Hok' i _ e Hi').
      * assert (has_edge g' (mkEdge u v w)) as Hnew by (apply He; by right).
        destruct (has_edge_ok g' _ Hok' Hnew) as [_ Hv]. simpl in Hv. lia.
    + intros [Hokg Hv]. by apply Hok.
Qed.

(** A graph built only with [add_edge] has the number of vertices it was
    created with, is well-formed, and holds every edge in both directions. *)
Theorem build_symmetric (n : nat) (l : list (nat * nat * Z)) (g : list (list Edge)) :
  build n l = Ok g →
  length g = n ∧ graph_ok g = true ∧
  ∀ u v w, has_edge g (mkEdge u v w) → has_edge g (mkEdge v u w).
Proof.
  intros (Hl & Hok & He)%build_spec. split_and!; [done..|].
  intros u v w (a & b & c & Hin & Heq)%He. apply He. exists a, b, c. split; [done|].
  destruct Heq as [[= -> -> ->]|[= -> -> ->]]; auto.
Qed.

Lemma build_symmetric_witness :
  length cycle4 = 4%nat ∧ graph_ok cycle4 = true ∧
  ∀ u v w, has_edge cycle4 (mkEdge u v w) → has_edge cycle4 (mkEdge v u w).
Proof.
  apply (build_symmetric 4 [und 0 1 1; und 1 2 1; und 2 3 1; und 3 0 1] cycle4).
  reflexivity.
Defined.

(** ** Warshall-Floyd: the initial matrix *)

(** [x] is the least of [base] and the weights of the edges of [S] that go
    from [a] to [b]. *)
Definition entry_min (S : Edge → Prop) (a b : nat) (base x : Z) : Prop :=
  x ≤ base ∧
  (∀ e, S e → from e = a → to e = b → x ≤ weight e) ∧
  (x = base ∨ ∃ e, S e ∧ from e = a ∧ to e = b ∧ x = weight e).

Lemma entry_min_step S a b base x e :
  entry_min S a b base x →
  entry_min (λ e', S e' ∨ e' = e) a b base
    (if decide (a = from e ∧ b = to e) then Z.min x (weight e) else x).
Proof.
  intros (Hb & Hle & Hat). case_decide as Hab.
  - destruct Hab as [-> ->]. split_and!; [lia| |].
    + intros e' [He'| ->] Hf Ht; [specialize (Hle e' He' Hf Ht)|]; lia.
    + destruct (Z.min_spec x (weight e)) as [[_ ->]|[_ ->]].
      * destruct Hat as [?|(e' & ? & ? & ? & ?)]; [by left|right].
        exists e'. auto.
      * right. exists e. auto.
  - split_and!; [done| |].
    + intros e' [He'| ->] Hf Ht; [by apply Hle|]. by destruct Hab.
    + destruct Hat as [?|(e' & ? & ? & ? & ?)]; [by left|right]. exists e'. auto.
Qed.

Lemma entry_min_ext S S' a b base x :
  (∀ e, S e ↔ S' e) → entry_min S a b base x → entry_min S' a b base x.
Proof.
  intros HS (Hb & Hle & Hat). split_and!; [done| |].
  - intros e He. apply Hle. by apply HS.
  - destruct Hat as [?|(e & ? & ?)]; [by left|right]. exists e. split; [by apply HS|done].
Qed.

Lemma entry_min_unique S a b base x y :
  entry_min S a b base x → entry_min S a b base y → x = y.
Proof.
  intros (Hb & Hle & Hat) (Hb' & Hle' & Hat').
  assert (x ≤ y).
  { destruct Hat' as [->|(e & ? & ? & ? & ->)]; [done|by apply Hle]. }
  assert (y ≤ x).
  { destruct Hat as [->|(e & ? & ? & ? & ->)]; [done|by apply Hle']. }
  lia.
Qed.

(** Every edge stored in [g] joins two vertices of [g]. *)
Definition edges_in_range (g : list (list Edge)) : Prop :=
  ∀ e, has_edge g e → (from e < length g)%nat ∧ (to e < length g)%nat.

Lemma graph_ok_in_range g : graph_ok g = true → edges_in_range g.
Proof. intros Hok e He. by apply has_edge_ok. Qed.

Lemma wf_init_edge_spec n D e :
  square n D → (from e < n)%nat → (to e < n)%nat →
  ∃ D', wf_init_edge D e = Ok D' ∧ square n D' ∧
    ∀ a b, mat D' a b =
      if decide (a = from e ∧ b = to e)
      then Z.min (mat D (from e) (to e)) (weight e) else mat D a b.
Proof.
  intros Hsq Hf Ht. unfold wf_init_edge.
  rewrite (mget_square n) by done. simpl. by apply mset_square.
Qed.

(** The diagonal value and the sentinel the matrix starts from. *)
Definition wf_base (a b : nat) : Z := if decide (a = b) then 0 else INF.

(** The two initialisation loops return a matrix that holds, at [a][b], the
    least weight of an edge from [a] to [b], capped by 0 on the diagonal and
    by the sentinel elsewhere; the passes start from it. *)
Lemma WarshallFloyd_init (g : list (list Edge)) :
  edges_in_range g →
  ∃ D, square (length g) D ∧
    (∀ a b, (a < length g)%nat → (b < length g)%nat →
       entry_min (has_edge g) a b (wf_base a b) (mat D a b)) ∧
    WarshallFloyd g =
      for_range (length g) (λ k dist, wf_pass (length g) k dist) D.
Proof.
  intros Hrange. unfold WarshallFloyd. set (n := length g).
  (* the diagonal *)
  destruct (for_range_inv
    (λ i D, square n D ∧ ∀ a b, (a < n)%nat → (b < n)%nat →
       mat D a b = if decide (a = b ∧ (a < i)%nat) then 0 else INF)
    n (λ i dist, mset dist i i 0) (replicate n (replicate n INF)))
    as (D0 & -> & Hsq0 & HD0).
  { split; [apply square_replicate|]. intros a b Ha Hb.
    rewrite mat_replicate by done. rewrite decide_False; [done|lia]. }
  { intros i D Hi [Hsq HD].
    destruct (mset_square n D i i 0 Hsq Hi Hi) as (D' & -> & Hsq' & HD').
    exists D'. split_and!; [done..|]. intros a b Ha Hb. rewrite HD'.
    repeat case_decide; try done; try lia; rewrite HD by done;
      [rewrite decide_True|rewrite decide_False]; try done; lia. }
  simpl.
  (* the edges *)
  destruct (for_range_inv
    (λ i D, square n D ∧ ∀ a b, (a < n)%nat → (b < n)%nat →
       entry_min (λ e, ∃ i' es, (i' < i)%nat ∧ g !! i' = Some es ∧ e ∈ es)
         a b (wf_base a b) (mat D a b))
    n (λ i dist, es ← vget g i; foldM wf_init_edge es dist) D0)
    as (D1 & -> & Hsq1 & HD1).
  { split; [done|]. intros a b Ha Hb. rewrite HD0 by done.
    unfold wf_base. split_and!.
    - repeat case_decide; try done; lia.
    - intros e (i' & _ & Hi' & _). lia.
    - left. repeat case_decide; try done; lia. }
  { intros i D Hi [Hsq HD].
    destruct (vget_lt g i Hi) as (es & -> & Hes). simpl.
    destruct (foldM_inv
      (λ done D, square n D ∧ ∀ a b, (a < n)%nat → (b < n)%nat →
         entry_min (λ e, (∃ i' es, (i' < i)%nat ∧ g !! i' = Some es ∧ e ∈ es) ∨ e ∈ done)
           a b (wf_base a b) (mat D a b))
      wf_init_edge es D) as (D' & -> & Hsq' & HD').
    - split; [done|]. intros a b Ha Hb. eapply entry_min_ext; [|by apply HD].
      intros e. split; [by left|]. intros [?|?%elem_of_nil]; done.
    - intros done e rest D2 Hsplit [Hsq2 HD2].
      assert (has_edge g e) as He.
      { exists i, es. split; [done|]. rewrite Hsplit. set_solver. }
      destruct (Hrange e He) as [Hf Ht].
      destruct (wf_init_edge_spec n D2 e Hsq2 Hf Ht) as (D3 & -> & Hsq3 & HD3).
      exists D3. split_and!; [done..|]. intros a b Ha Hb. rewrite HD3.
      assert (mat D2 (from e) (to e) = mat D2 a b ∨ ¬ (a = from e ∧ b = to e)) as Hab.
      { destruct (decide (a = from e ∧ b = to e)) as [[-> ->]|]; auto. }
      eapply entry_min_ext; last first.
      { pose proof (entry_min_step _ a b _ _ e (HD2 a b Ha Hb)) as Hstep.
        case_decide; [|exact Hstep].
        destruct Hab as [->|?]; [exact Hstep|done]. }
      intros e'. simpl. rewrite elem_of_app, list_elem_of_singleton. tauto.
    - exists D'. split_and!; [done..|]. intros a b Ha Hb.
      eapply entry_min_ext; [|by apply HD'].
      intros e. split.
      + intros [(i' & es' & Hi' & Hes' & He)|He].
        * exists i', es'. split_and!; [lia|done..].
        * exists i, es. split_and!; [lia|done..].
      + intros (i' & es' & Hi' & Hes' & He).
        destruct (decide (i' = i)) as [->|Hne].
        * right. congruence.
        * left. exists i', es'. split_and!; [lia|done..]. }
  simpl. exists D1. split_and!; [done| |done].
  intros a b Ha Hb. eapply entry_min_ext; [|by apply HD1].
  intros e. split.
  - intros (i' & es & _ & Hi' & He). by exists i', es.
  - intros (i' & es & Hi' & He). exists i', es. split_and!; [|done..].
    by eapply lookup_lt_Some.
Qed.

Lemma upd_le x y z : upd x y z ≤ x.
Proof. unfold upd. destruct (negb _ && negb _); lia. Qed.

(** The passes never raise an entry. *)
Lemma wf_passes_le n D :
  square n D →
  ∃ M, for_range n (λ k dist, wf_pass n k dist) D = Ok M ∧ square n M ∧
    ∀ a b, (a < n)%nat → (b < n)%nat → mat M a b ≤ mat D a b.
Proof.
  intros Hsq.
  apply (for_range_inv (λ _ M, square n M ∧
    ∀ a b, (a < n)%nat → (b < n)%nat → mat M a b ≤ mat D a b)).
  { split; [done|]. intros. lia. }
  intros k M Hk [HsqM HM].
  apply (wf_pass_preserves
    (λ M, ∀ a b, (a < n)%nat → (b < n)%nat → mat M a b ≤ mat D a b)); try done.
  intros C i j HsqC Hi Hj HC C' HC' a b Ha Hb.
  destruct (wf_relax_spec n k i j C HsqC Hk Hi Hj) as (C2 & HC2 & _ & Hmat).
  rewrite HC2 in HC'. injection HC' as <-. rewrite Hmat.
  case_decide as Hab; [|by apply HC]. destruct Hab as [-> ->].
  pose proof (upd_le (mat C i j) (mat C i k) (mat C k j)).
  specialize (HC i j Hi Hj). lia.
Qed.

(** On a graph whose edges join vertices of the graph, [WarshallFloyd] makes
    no access out of bounds and returns a matrix with a row and a column per
    vertex.  Whatever the weights are, no entry is above the sentinel, none
    is above the weight of an edge between the two vertices, and the
    diagonal is at most 0. *)
Theorem WarshallFloyd_bounds (g : list (list Edge)) :
  edges_in_range g →
  ∃ M, WarshallFloyd g = Ok M ∧ square (length g) M ∧
    ∀ i j, (i < length g)%nat → (j < length g)%nat →
      mat M i j ≤ INF ∧ (i = j → mat M i j ≤ 0) ∧
      ∀ e, has_edge g e → from e = i → to e = j → mat M i j ≤ weight e.
Proof.
  intros Hrange.
  destruct (WarshallFloyd_init g Hrange) as (D & HsqD & HD & ->).
  destruct (wf_passes_le (length g) D HsqD) as (M & -> & HsqM & HM).
  exists M. split_and!; [done..|]. intros i j Hi Hj.
  specialize (HM i j Hi Hj). destruct (HD i j Hi Hj) as (Hb & Hle & _).
  unfold wf_base in Hb. split_and!.
  - case_decide; rewrite INF_val in *; lia.
  - intros ->. rewrite decide_True in Hb by done. lia.
  - intros e He Hf Ht. specialize (Hle e He Hf Ht). lia.
Qed.

Lemma WarshallFloyd_bounds_witness :
  ∃ M, WarshallFloyd cycle3 = Ok M ∧ square (length cycle3) M ∧
    ∀ i j, (i < length cycle3)%nat → (j < length cycle3)%nat →
      mat M i j ≤ INF ∧ (i = j → mat M i j ≤ 0) ∧
      ∀ e, has_edge cycle3 e → from e = i → to e = j → mat M i j ≤ weight e.
Proof.
  apply (WarshallFloyd_bounds cycle3). apply graph_ok_in_range. reflexivity.
Defined.

(** ** Warshall-Floyd: out of bounds, and symmetry *)

(** The variant of [foldM_Ok_ind] that tells the body where in the list it
    is. *)
Lemma foldM_Ok_split {A S} (I : list A → S → Prop) (body : S → A → result S) l s s' :
  foldM body l s = Ok s' →
  I [] s →
  (∀ done x rest s s1, l = done ++ x :: rest →
     I done s → body s x = Ok s1 → I (done ++ [x]) s1) →
  I l s'.
Proof.
  intros Hrun H0 Hstep.
  cut (∀ rest done s, l = done ++ rest →
         foldM body rest s = Ok s' → I done s → I l s').
  { intros H. by apply (H l [] s). }
  induction rest as [|x rest IH]; intros done s0 Hl Hr HI; simpl in Hr.
  - injection Hr as <-. rewrite app_nil_r in Hl. by subst.
  - apply bind_Ok in Hr as (s1 & Hs1 & Hr).
    apply (IH (done ++ [x]) s1); [by rewrite <- app_assoc|done|].
    by apply (Hstep done x rest s0 s1).
Qed.

Lemma for_range_Ok_ind {S} (I : nat → S → Prop) n (body : nat → S → result S) s s' :
  for_range n body s = Ok s' →
  I O s →
  (∀ i s s1, (i < n)%nat → I i s → body i s = Ok s1 → I (Datatypes.S i) s1) →
  I n s'.
Proof.
  unfold for_range. intros Hrun H0 Hstep.
  cut (I (length (seq 0 n)) s'); [by rewrite length_seq|].
  apply (foldM_Ok_split (λ done s, I (length done) s) _ _ _ _ Hrun); [done|].
  intros done x rest s0 s1 Hl HI Hx.
  assert (x = length done ∧ (x < n)%nat) as [-> Hlt].
  { assert (seq 0 n !! length done = Some x) as Hs.
    { rewrite Hl. by rewrite list_lookup_middle. }
    apply lookup_seq in Hs. lia. }
  rewrite length_app. simpl. rewrite Nat.add_1_r. by apply (Hstep _ s0).
Qed.

(** Loops whose body never runs out of fuel do not either. *)
Lemma foldM_fuel {A S} (body : S → A → result S) l s :
  (∀ s x, body s x ≠ OutOfFuel) → foldM body l s ≠ OutOfFuel.
Proof.
  intros Hb. revert s. induction l as [|x l IH]; intros s; simpl; [done|].
  specialize (Hb s x). destruct (body s x); simpl; auto.
Qed.

Lemma bind_fuel {A B} (m : result A) (f : A → result B) :
  m ≠ OutOfFuel → (∀ a, f a ≠ OutOfFuel) → m ≫= f ≠ OutOfFuel.
Proof. intros Hm Hf. destruct m; simpl; auto. Qed.

Lemma vget_fuel {A} (v : list A) i : vget v i ≠ OutOfFuel.
Proof. unfold vget. by destruct (v !! i). Qed.

Lemma vset_fuel {A} (v : list A) i x : vset v i x ≠ OutOfFuel.
Proof. unfold vset. by case_decide. Qed.

Lemma mget_fuel M i j : mget M i j ≠ OutOfFuel.
Proof. unfold mget. apply bind_fuel; [apply vget_fuel|]. intros. apply vget_fuel. Qed.

Lemma mset_fuel M i j x : mset M i j x ≠ OutOfFuel.
Proof.
  unfold mset. apply bind_fuel; [apply vget_fuel|]. intros row.
  apply bind_fuel; [apply vset_fuel|]. intros. apply vset_fuel.
Qed.

Lemma wf_relax_fuel k i j M : wf_relax k i j M ≠ OutOfFuel.
Proof.
  unfold wf_relax. apply bind_fuel; [apply mget_fuel|]. intros dik.
  apply bind_fuel; [apply mget_fuel|]. intros dkj.
  destruct (negb _ && negb _); [|done].
  apply bind_fuel; [apply mget_fuel|]. intros. apply mset_fuel.
Qed.

Lemma WarshallFloyd_fuel g : WarshallFloyd g ≠ OutOfFuel.
Proof.
  unfold WarshallFloyd, for_range, wf_pass, for_range.
  apply bind_fuel.
  { apply foldM_fuel. intros. apply mset_fuel. }
  intros D0. apply bind_fuel.
  { apply foldM_fuel. intros D i. apply bind_fuel; [apply vget_fuel|].
    intros es. apply foldM_fuel. intros D' e. unfold wf_init_edge.
    apply bind_fuel; [apply mget_fuel|]. intros. apply mset_fuel. }
  intros D1. apply foldM_fuel. intros D k. apply foldM_fuel. intros D' i.
  apply foldM_fuel. intros D'' j. apply wf_relax_fuel.
Qed.

Lemma WarshallFloyd_Ok_in_range g M : WarshallFloyd g = Ok M → edges_in_range g.
Proof.
  unfold WarshallFloyd. set (n := length g).
  intros (D0 & HD0 & (D1 & HD1 & _)%bind_Ok)%bind_Ok.
  assert (square n D0) as Hsq0.
  { apply (for_range_Ok_ind (λ _ D, square n D) _ _ _ _ HD0); [apply square_replicate|].
    intros i D D' Hi Hsq HD'.
    destruct (mset_square n D i i 0 Hsq Hi Hi) as (D2 & HD2 & Hsq2 & _). congruence. }
  assert (square n D1 ∧
    ∀ i es e, (i < n)%nat → g !! i = Some es → e ∈ es →
      (from e < n)%nat ∧ (to e < n)%nat) as [_ Hall].
  { apply (for_range_Ok_ind (λ i0 D, square n D ∧
      ∀ i es e, (i < i0)%nat → g !! i = Some es → e ∈ es →
        (from e < n)%nat ∧ (to e < n)%nat) _ _ _ _ HD1).
    { split; [done|]. intros. lia. }
    intros i D D' Hi [Hsq Hin] (es & Hes%vget_Ok & Hfold)%bind_Ok.
    assert (square n D' ∧ ∀ e, e ∈ es → (from e < n)%nat ∧ (to e < n)%nat) as [Hsq' Hes'].
    { apply (foldM_Ok_ind (λ done D, square n D ∧
        ∀ e, e ∈ done → (from e < n)%nat ∧ (to e < n)%nat) _ _ _ _ Hfold).
      { split; [done|]. by intros e ?%elem_of_nil. }
      intros done e D2 D3 [Hsq2 Hdone] He.
      assert ((from e < n)%nat ∧ (to e < n)%nat) as [Hf Ht].
      { destruct (decide ((from e < n)%nat ∧ (to e < n)%nat)) as [|Hno]; [done|].
        unfold wf_init_edge in He. by rewrite (mget_outside n) in He. }
      destruct (wf_init_edge_spec n D2 e Hsq2 Hf Ht) as (D4 & HD4 & Hsq4 & _).
      split; [congruence|].
      intros e' [?| ->%list_elem_of_singleton]%elem_of_app; auto. }
    split; [done|]. intros i' es' e Hi' Hes'' He.
    destruct (decide (i' = i)) as [->|Hne].
    - apply Hes'. congruence.
    - apply (Hin i' es' e); [lia|done..]. }
  intros e (i & es & Hi & He). apply (Hall i es e); [|done..].
  by eapply lookup_lt_Some.
Qed.

(** [WarshallFloyd] indexes the matrix by both ends of every stored edge:
    when an edge has an end that is no vertex of the graph, the call is an
    access out of bounds. *)
Theorem WarshallFloyd_out_of_bounds (g : list (list Edge)) :
  ¬ edges_in_range g → WarshallFloyd g = OutOfBounds.
Proof.
  intros Hno. destruct (WarshallFloyd g) as [M| |] eqn:Hrun; [|done|].
  - destruct Hno. by eapply WarshallFloyd_Ok_in_range.
  - by destruct (WarshallFloyd_fuel g).
Qed.

Definition arc_out : list (list Edge) :=
  Eval vm_compute in from_Ok [] (build_arcs 2 [und 0 5 1]).

Lemma WarshallFloyd_out_of_bounds_witness : WarshallFloyd arc_out = OutOfBounds.
Proof.
  apply (WarshallFloyd_out_of_bounds arc_out). intros H.
  destruct (H (mkEdge 0 5 1)) as [_ Hto].
  - exists 0%nat, [mkEdge 0 5 1]. split; [reflexivity|set_solver].
  - simpl in Hto. lia.
Defined.

(** The pass keeps a symmetric matrix symmetric, although it reads entries
    it has already written. *)
Lemma pass_cell_sym M k n :
  (∀ i j, (i < n)%nat → (j < n)%nat → mat M i j = mat M j i) → (k < n)%nat →
  ∀ i j, (i < n)%nat → (j < n)%nat → pass_cell M k i j = pass_cell M k j i.
Proof.
  intros Hsym Hk i j Hi Hj.
  assert (∀ a, (a < n)%nat → pass_col M k a = pass_row M k a) as Hcr.
  { intros a Ha. unfold pass_col, pass_row. rewrite (Hsym a k Ha Hk). apply upd_comm. }
  rewrite !pass_cell_unfold. rewrite upd_comm. rewrite (Hsym i j Hi Hj).
  apply upd_ext.
  - rewrite (Hsym k j Hk Hj). by rewrite <- Hcr by done.
  - rewrite (Hsym i k Hi Hk). by rewrite Hcr by done.
Qed.

(** For a graph built only with [add_edge], whatever the weights,
    [WarshallFloyd] returns a symmetric matrix. *)
Theorem WarshallFloyd_symmetric (n : nat) (l : list (nat * nat * Z)) (g : list (list Edge)) :
  build n l = Ok g →
  ∃ M, WarshallFloyd g = Ok M ∧ ∀ i j, mget M i j = mget M j i.
Proof.
  intros (Hlen & Hok & Hsym)%build_symmetric.
  destruct (WarshallFloyd_init g (graph_ok_in_range g Hok)) as (D & HsqD & HD & ->).
  rewrite Hlen in *.
  destruct (for_range_inv
    (λ _ M, square n M ∧ ∀ i j, (i < n)%nat → (j < n)%nat → mat M i j = mat M j i)
    n (λ k dist, wf_pass n k dist) D) as (M & -> & HsqM & HM).
  - split; [done|]. intros i j Hi Hj.
    eapply entry_min_unique; [by apply HD|].
    destruct (HD j i Hj Hi) as (Hb & Hle & Hat). unfold wf_base in *.
    split_and!.
    + repeat case_decide; try done; lia.
    + intros [u v w] He ? ?; simplify_eq/=. by apply (Hle (mkEdge j i w)); [apply Hsym|..].
    + destruct Hat as [->|([u v w] & He & ? & ? & ->)]; simplify_eq/=.
      * left. repeat case_decide; try done; lia.
      * right. exists (mkEdge i j w). split_and!; try done. by apply Hsym.
  - intros k M Hk [HsqM HM].
    destruct (wf_pass_spec M k n HsqM Hk) as (M' & -> & HsqM' & HM').
    exists M'. split_and!; [done..|]. intros i j Hi Hj.
    rewrite !HM' by done. by apply (pass_cell_sym M k n).
  - exists M. split; [done|]. intros i j.
    destruct (decide ((i < n)%nat ∧ (j < n)%nat)) as [[Hi Hj]|Hno].
    + rewrite !(mget_square n) by done. by rewrite HM.
    + rewrite !(mget_outside n) by (done || lia). done.
Qed.

Lemma WarshallFloyd_symmetric_witness :
  ∃ M, WarshallFloyd cycle4 = Ok M ∧ ∀ i j, mget M i j = mget M j i.
Proof.
  apply (WarshallFloyd_symmetric 4 [und 0 1 1; und 1 2 1; und 2 3 1; und 3 0 1] cycle4).
  reflexivity.
Defined.

(** ** [add_edge_to_matrix] *)

(** The first statement of [add_edge_to_matrix]: both [mat[v][u]] and
    [mat[u][v]] receive the minimum of [w] and the old [mat[u][v]]. *)
Lemma add_edge_to_matrix_start n M u v w :
  square n M → (u < n)%nat → (v < n)%nat →
  ∃ M1, square n M1 ∧
    (∀ a b, mat M1 a b =
       if decide ((a = u ∧ b = v) ∨ (a = v ∧ b = u))
       then Z.min (mat M u v) w else mat M a b) ∧
    add_edge_to_matrix M u v w = foldM (λ mat k, wf_pass n k mat) [u; v] M1.
Proof.
  intros Hsq Hu Hv. unfold add_edge_to_matrix.
  rewrite (mget_square n) by done. simpl.
  destruct (mset_square n M v u (Z.min (mat M u v) w) Hsq Hv Hu)
    as (M0 & -> & Hsq0 & HM0). simpl.
  rewrite (mget_square n) by done. simpl.
  destruct (mset_square n M0 u v (mat M0 v u) Hsq0 Hu Hv) as (M1 & -> & Hsq1 & HM1).
  simpl. exists M1. split_and!; [done| |by destruct Hsq1 as [-> _]].
  intros a b. rewrite HM1, !HM0. rewrite (decide_True (P := v = v ∧ u = u)) by done.
  repeat case_decide; try done; naive_solver.
Qed.

(** [add_edge_to_matrix] reads [mat[from][to]] first: it is out of bounds
    unless both ends are indices of the matrix.  On a square matrix it then
    returns a square matrix in which every entry other than [mat[to][from]]
    is at most what it was, whatever the values are; [mat[to][from]] is the
    one entry that is overwritten without being read, and it is at most
    [weight] and at most the old [mat[from][to]]. *)
Theorem add_edge_to_matrix_entries (n : nat) (M : list (list Z)) (u v : nat) (w : Z) :
  square n M →
  (¬ ((u < n)%nat ∧ (v < n)%nat) → add_edge_to_matrix M u v w = OutOfBounds) ∧
  ((u < n)%nat → (v < n)%nat →
     ∃ M', add_edge_to_matrix M u v w = Ok M' ∧ square n M' ∧
       mat M' u v ≤ Z.min (mat M u v) w ∧
       mat M' v u ≤ Z.min (mat M u v) w ∧
       ∀ a b, (a < n)%nat → (b < n)%nat → ¬ (a = v ∧ b = u) →
         mat M' a b ≤ mat M a b).
Proof.
  intros Hsq. split.
  { intros Hno. unfold add_edge_to_matrix. by rewrite (mget_outside n). }
  intros Hu Hv.
  destruct (add_edge_to_matrix_start n M u v w Hsq Hu Hv) as (M1 & Hsq1 & HM1 & ->).
  set (P := λ C : list (list Z),
    ∀ a b, (a < n)%nat → (b < n)%nat → mat C a b ≤ mat M1 a b).
  assert (∀ k, (k < n)%nat → ∀ C i j, square n C → (i < n)%nat → (j < n)%nat → P C →
            ∀ C', wf_relax k i j C = Ok C' → P C') as Hstep.
  { intros k Hk C i j HsqC Hi Hj HC C' HC' a b Ha Hb.
    destruct (wf_relax_spec n k i j C HsqC Hk Hi Hj) as (C2 & HC2 & _ & Hmat).
    rewrite HC2 in HC'. injection HC' as <-. rewrite Hmat.
    case_decide as Hab; [|by apply HC]. destruct Hab as [-> ->].
    pose proof (upd_le (mat C i j) (mat C i k) (mat C k j)).
    specialize (HC i j Hi Hj). lia. }
  simpl.
  destruct (wf_pass_preserves P n u M1 Hsq1 Hu) as (M2 & -> & Hsq2 & HM2).
  { intros a b _ _. lia. }
  { by apply Hstep. }
  simpl.
  destruct (wf_pass_preserves P n v M2 Hsq2 Hv HM2) as (M3 & -> & Hsq3 & HM3).
  { by apply Hstep. }
  simpl. exists M3. split_and!; [done..| | |].
  - specialize (HM3 u v Hu Hv). rewrite HM1 in HM3.
    rewrite decide_True in HM3 by auto. done.
  - specialize (HM3 v u Hv Hu). rewrite HM1 in HM3.
    rewrite decide_True in HM3 by auto. done.
  - intros a b Ha Hb Hab. specialize (HM3 a b Ha Hb). rewrite HM1 in HM3.
    case_decide as Hc; [|done].
    destruct Hc as [[-> ->]|[-> ->]]; [lia|by destruct Hab].
Qed.

Lemma add_edge_to_matrix_entries_witness :
  (¬ ((0 < 2)%nat ∧ (1 < 2)%nat) →
     add_edge_to_matrix [[0; INF]; [1; 0]] 0 1 5 = OutOfBounds) ∧
  ((0 < 2)%nat → (1 < 2)%nat →
     ∃ M', add_edge_to_matrix [[0; INF]; [1; 0]] 0 1 5 = Ok M' ∧ square 2 M' ∧
       mat M' 0 1 ≤ Z.min (mat [[0; INF]; [1; 0]] 0 1) 5 ∧
       mat M' 1 0 ≤ Z.min (mat [[0; INF]; [1; 0]] 0 1) 5 ∧
       ∀ a b, (a < 2)%nat → (b < 2)%nat → ¬ (a = 1%nat ∧ b = 0%nat) →
         mat M' a b ≤ mat [[0; INF]; [1; 0]] a b).
Proof.
  apply (add_edge_to_matrix_entries 2 [[0; INF]; [1; 0]] 0 1 5).
  split; [reflexivity|]. intros [|[|[|i]]] row Hrow; simplify_eq/=; reflexivity.
Defined.

(** When the two diagonal entries and the new minimum lie between 0 and the
    sentinel, the relaxations that follow leave the pair alone: after the
    call both [mat[from][to]] and [mat[to][from]] are the minimum of [weight]
    and the old [mat[from][to]].  The old [mat[to][from]] plays no part: a
    smaller value there is lost. *)
Theorem add_edge_to_matrix_pair (n : nat) (M : list (list Z)) (u v : nat) (w : Z) :
  square n M → (u < n)%nat → (v < n)%nat →
  0 ≤ mat M u u ≤ INF → 0 ≤ mat M v v ≤ INF → 0 ≤ Z.min (mat M u v) w ≤ INF →
  ∃ M', add_edge_to_matrix M u v w = Ok M' ∧
    mat M' u v = Z.min (mat M u v) w ∧ mat M' v u = Z.min (mat M u v) w.
Proof.
  intros Hsq Hu Hv Huu Hvv Hm.
  destruct (add_edge_to_matrix_start n M u v w Hsq Hu Hv) as (M1 & Hsq1 & HM1 & ->).
  set (m := Z.min (mat M u v) w) in *.
  set (P := λ C : list (list Z),
    mat C u v = m ∧ mat C v u = m ∧ 0 ≤ mat C u u ≤ INF ∧ 0 ≤ mat C v v ≤ INF).
  assert (P M1) as HP1.
  { unfold P. rewrite !HM1. rewrite !decide_True by auto.
    split_and!; try done; case_decide; lia. }
  assert (∀ k, k = u ∨ k = v → ∀ C i j, square n C → (i < n)%nat → (j < n)%nat → P C →
            ∀ C', wf_relax k i j C = Ok C' → P C') as Hstep.
  { intros k Hk C i j HsqC Hi Hj (Huv & Hvu & Hcu & Hcv) C' HC'.
    assert (k < n)%nat as Hkn by (destruct Hk; by subst).
    destruct (wf_relax_spec n k i j C HsqC Hkn Hi Hj) as (C2 & HC2 & _ & Hmat).
    rewrite HC2 in HC'. injection HC' as <-.
    assert (∀ a b, (a = u ∨ a = v) → (b = u ∨ b = v) → 0 ≤ mat C a b ≤ INF) as Hcell.
    { intros a b [-> | ->] [-> | ->]; lia. }
    assert (∀ a b, (a = u ∨ a = v) → (b = u ∨ b = v) →
              Z.min (mat C a b) (mat C a k + mat C k b) ≤ mat C2 a b ≤ mat C a b) as Hnew.
    { intros a b Ha Hb. rewrite Hmat. case_decide as Hab.
      - destruct Hab as [-> ->].
        apply (upd_range (mat C i j) (mat C i k) (mat C k j)
                 (Hcell i k Ha Hk) (Hcell k j Hk Hb)).
      - pose proof (Hcell a k Ha Hk). pose proof (Hcell k b Hk Hb). lia. }
    unfold P.
    pose proof (Hnew u v (or_introl eq_refl) (or_intror eq_refl)).
    pose proof (Hnew v u (or_intror eq_refl) (or_introl eq_refl)).
    pose proof (Hnew u u (or_introl eq_refl) (or_introl eq_refl)).
    pose proof (Hnew v v (or_intror eq_refl) (or_intror eq_refl)).
    destruct Hk as [-> | ->]; split_and!; lia. }
  simpl.
  destruct (wf_pass_preserves P n u M1 Hsq1 Hu HP1) as (M2 & -> & Hsq2 & HM2).
  { apply Hstep. by left. }
  simpl.
  destruct (wf_pass_preserves P n v M2 Hsq2 Hv HM2) as (M3 & -> & Hsq3 & HM3).
  { apply Hstep. by right. }
  simpl. exists M3. destruct HM3 as (? & ? & _). done.
Qed.

Lemma add_edge_to_matrix_pair_witness :
  ∃ M', add_edge_to_matrix [[0; INF]; [1; 0]] 0 1 5 = Ok M' ∧
    mat M' 0 1 = Z.min (mat [[0; INF]; [1; 0]] 0 1) 5 ∧
    mat M' 1 0 = Z.min (mat [[0; INF]; [1; 0]] 0 1) 5.
Proof.
  apply (add_edge_to_matrix_pair 2 [[0; INF]; [1; 0]] 0 1 5);
    try (vm_compute; split; congruence); try lia.
  split; [reflexivity|]. intros [|[|[|i]]] row Hrow; simplify_eq/=; reflexivity.
Defined.

(** ** Bellman-Ford *)

Lemma bf_relax_spec n dist e :
  length dist = n → (from e < n)%nat → (to e < n)%nat →
  ∃ dist', bf_relax dist e = Ok dist' ∧ length dist' = n ∧
    ∀ v d, dist !! v = Some d → ∃ d', dist' !! v = Some d' ∧ d' ≤ d.
Proof.
  intros Hl Hf Ht. unfold bf_relax.
  destruct (vget_lt dist (from e)) as (du & -> & Hdu); [lia|]. simpl.
  destruct (du =? INF).
  { exists dist. split_and!; [done..|]. intros v d Hv. exists d. split; [done|lia]. }
  destruct (vget_lt dist (to e)) as (dv & -> & Hdv); [lia|]. simpl.
  rewrite vset_lt by lia. eexists. split_and!; [done|by rewrite length_insert|].
  intros v d Hv. destruct (decide (v = to e)) as [->|Hne].
  - rewrite list_lookup_insert_eq by lia. eexists. split; [done|].
    assert (d = dv) as -> by congruence. lia.
  - rewrite list_lookup_insert_ne by done. exists d. split; [done|lia].
Qed.

(** The last loop answers whether an edge can still be relaxed. *)
Lemma bf_check_spec n edges dist :
  length dist = n →
  (∀ e, e ∈ edges → (from e < n)%nat ∧ (to e < n)%nat) →
  ∃ b, bf_check edges dist = Ok b ∧
    (b = false →
       ∀ e du dv, e ∈ edges → dist !! from e = Some du → du ≠ INF →
         dist !! to e = Some dv → dv ≤ add du (weight e)).
Proof.
  intros Hl. induction edges as [|e edges IH]; intros Hin; simpl.
  { exists false. split; [done|]. intros _ e du dv He. by apply elem_of_nil in He. }
  destruct (Hin e) as [Hf Ht]; [set_solver|].
  destruct IH as (b & Hb & Hfix); [intros e' He'; apply Hin; set_solver|].
  destruct (vget_lt dist (from e)) as (du & -> & Hdu); [lia|]. simpl.
  destruct (Z.eqb_spec du INF) as [->|Hne].
  { exists b. split; [done|]. intros -> e' du' dv' [->|He']%elem_of_cons Hu' Hne' Hv'.
    - congruence.
    - by apply (Hfix eq_refl e' du' dv'). }
  destruct (vget_lt dist (to e)) as (dv & -> & Hdv); [lia|]. simpl.
  destruct (Z.ltb_spec (add du (weight e)) dv) as [Hlt|Hge].
  { exists true. split; [done|]. done. }
  exists b. split; [done|]. intros -> e' du' dv' [->|He']%elem_of_cons Hu' Hne' Hv'.
  - assert (du' = du) as -> by congruence. assert (dv' = dv) as -> by congruence. lia.
  - by apply (Hfix eq_refl e' du' dv').
Qed.

(** [BellmanFord] writes [dist[from]] first: with a source that is not below
    [vertex], and in particular with [vertex = 0], it is out of bounds. *)
Theorem BellmanFord_source_out_of_bounds (edges : list Edge) (vertex s : nat) :
  (vertex ≤ s)%nat → BellmanFord edges vertex s = OutOfBounds.
Proof.
  intros Hs. unfold BellmanFord, vset. rewrite length_replicate.
  by rewrite decide_False by lia.
Qed.

Lemma BellmanFord_source_out_of_bounds_witness :
  BellmanFord [mkEdge 0 1 1] 0 0 = OutOfBounds.
Proof. apply (BellmanFord_source_out_of_bounds [mkEdge 0 1 1] 0 0). lia. Defined.

(** With the source and the ends of every edge below [vertex], [BellmanFord]
    makes no access out of bounds and returns either the empty vector or a
    vector with an entry per vertex.  In the second case, whatever the
    weights are, no entry is above the sentinel, the entry of the source is
    at most 0, and no edge whose source has an entry other than the sentinel
    can be relaxed any more. *)
Theorem BellmanFord_result (edges : list Edge) (vertex s : nat) :
  (s < vertex)%nat →
  (∀ e, e ∈ edges → (from e < vertex)%nat ∧ (to e < vertex)%nat) →
  ∃ r, BellmanFord edges vertex s = Ok r ∧
    (r = [] ∨
     (length r = vertex ∧
      (∀ v d, r !! v = Some d → d ≤ INF) ∧
      (∃ d, r !! s = Some d ∧ d ≤ 0) ∧
      ∀ e du dv, e ∈ edges → r !! from e = Some du → du ≠ INF →
        r !! to e = Some dv → dv ≤ add du (weight e))).
Proof.
  intros Hs Hin. unfold BellmanFord.
  rewrite vset_lt by (by rewrite length_replicate). simpl.
  set (d0 := <[s:=0]> (replicate vertex INF)).
  set (P := λ dist : list Z, length dist = vertex ∧
    ∀ v d, d0 !! v = Some d → ∃ d', dist !! v = Some d' ∧ d' ≤ d).
  assert (P d0) as HP0.
  { split; [unfold d0; by rewrite length_insert, length_replicate|].
    intros v d Hv. exists d. split; [done|lia]. }
  assert (∀ dist, P dist → ∃ dist', foldM bf_relax edges dist = Ok dist' ∧ P dist') as Hround.
  { intros dist HPd.
    destruct (foldM_inv (λ _ dist, P dist) bf_relax edges dist) as (dist' & ? & ?);
      [done| |by exists dist'].
    intros done e rest dist1 Hsplit [Hl1 Hle1].
    destruct (Hin e) as [Hf Ht]; [rewrite Hsplit; set_solver|].
    destruct (bf_relax_spec vertex dist1 e Hl1 Hf Ht) as (dist2 & -> & Hl2 & Hle2).
    exists dist2. unfold P. split_and!; [done..|]. intros v d Hv.
    destruct (Hle1 v d Hv) as (d1 & Hd1 & ?). destruct (Hle2 v d1 Hd1) as (d2 & Hd2 & ?).
    exists d2. split; [done|lia]. }
  destruct (for_range_inv (λ _ dist, P dist) (vertex - 1)
    (λ _ dist, foldM bf_relax edges dist) d0) as (dist & -> & Hl & Hle); [done| |].
  { intros i dist _ HPd. by apply Hround. }
  simpl. destruct (bf_check_spec vertex edges dist Hl Hin) as (b & -> & Hfix).
  simpl. destruct b.
  { exists []. split; [done|by left]. }
  exists dist. split; [done|]. right. split_and!; [done| | |by apply Hfix].
  - intros v d Hv.
    assert (v < vertex)%nat as Hlt by (rewrite <- Hl; by eapply lookup_lt_Some).
    destruct (lookup_lt_is_Some_2 d0 v) as [x Hx].
    { unfold d0. by rewrite length_insert, length_replicate. }
    destruct (Hle v x Hx) as (d' & Hd' & ?). assert (d' = d) as -> by congruence.
    unfold d0 in Hx. destruct (decide (v = s)) as [->|Hne].
    + rewrite list_lookup_insert_eq in Hx by (by rewrite length_replicate).
      injection Hx as <-. rewrite INF_val. lia.
    + rewrite list_lookup_insert_ne in Hx by done.
      apply lookup_replicate in Hx as [-> _]. lia.
  - destruct (Hle s 0) as (d' & Hd' & ?); [|by exists d'].
    unfold d0. apply list_lookup_insert_eq. by rewrite length_replicate.
Qed.

Lemma BellmanFord_result_witness :
  ∃ r, BellmanFord [mkEdge 0 1 4; mkEdge 1 2 (-2); mkEdge 0 2 7] 3 0 = Ok r ∧
    (r = [] ∨
     (length r = 3%nat ∧
      (∀ v d, r !! v = Some d → d ≤ INF) ∧
      (∃ d, r !! 0%nat = Some d ∧ d ≤ 0) ∧
      ∀ e du dv, e ∈ [mkEdge 0 1 4; mkEdge 1 2 (-2); mkEdge 0 2 7] →
        r !! from e = Some du → du ≠ INF →
        r !! to e = Some dv → dv ≤ add du (weight e))).
Proof.
  apply (BellmanFord_result [mkEdge 0 1 4; mkEdge 1 2 (-2); mkEdge 0 2 7] 3 0); [lia|].
  intros e He. repeat (apply elem_of_cons in He as [->|He]; [simpl; lia|]).
  by apply elem_of_nil in He.
Defined.

(** With no edge at all, [BellmanFord] returns 0 for the source and the
    sentinel for every other vertex. *)
Theorem BellmanFord_no_edges (vertex s : nat) :
  (s < vertex)%nat →
  BellmanFord [] vertex s = Ok (<[s:=0]> (replicate vertex INF)).
Proof.
  intros Hs. unfold BellmanFord.
  rewrite vset_lt by (by rewrite length_replicate). simpl.
  destruct (for_range_inv (λ _ dist, dist = <[s:=0]> (replicate vertex INF))
    (vertex - 1) (λ _ dist, Ok dist) (<[s:=0]> (replicate vertex INF)))
    as (dist & -> & ->); [done| |done].
  intros i dist _ ->. by eexists.
Qed.

Lemma BellmanFord_no_edges_witness :
  BellmanFord [] 3 1 = Ok (<[1%nat:=0]> (replicate 3 INF)).
Proof. apply (BellmanFord_no_edges 3 1). lia. Defined.

(** ** Kruskal: forests *)

(** [x] and [y] are joined by edges of [F], walked in either direction. *)
Inductive conn (F : list Edge) : nat → nat → Prop :=
| conn_refl x : conn F x x
| conn_fwd e y : e ∈ F → conn F (to e) y → conn F (from e) y
| conn_bwd e y : e ∈ F → conn F (from e) y → conn F (to e) y.

Lemma conn_trans F x y z : conn F x y → conn F y z → conn F x z.
Proof. induction 1; eauto using conn. Qed.

Lemma conn_edge F e : e ∈ F → conn F (from e) (to e).
Proof. intros He. apply conn_fwd; [done|apply conn_refl]. Qed.

Lemma conn_edge_rev F e : e ∈ F → conn F (to e) (from e).
Proof. intros He. apply conn_bwd; [done|apply conn_refl]. Qed.

Lemma conn_sym F x y : conn F x y → conn F y x.
Proof.
  induction 1 as [x|e y He _ IH|e y He _ IH]; [apply conn_refl|..].
  - eapply conn_trans; [exact IH|by apply conn_edge_rev].
  - eapply conn_trans; [exact IH|by apply conn_edge].
Qed.

(** Edges whose ends are joined anyway join nothing new. *)
Lemma conn_sub F G x y :
  (∀ e, e ∈ F → conn G (from e) (to e)) → conn F x y → conn G x y.
Proof.
  intros HFG. induction 1 as [x|e y He _ IH|e y He _ IH]; [apply conn_refl|..].
  - eapply conn_trans; [by apply HFG|done].
  - eapply conn_trans; [apply conn_sym; by apply HFG|done].
Qed.

Lemma conn_mono F G x y : (∀ e, e ∈ F → e ∈ G) → conn F x y → conn G x y.
Proof. intros HFG. apply conn_sub. intros e He. by apply conn_edge, HFG. Qed.

(** A path that uses the edge [e] can be cut at [e]. *)
Lemma conn_bridge F e x y :
  conn (e :: F) x y →
  conn F x y ∨ (conn F x (from e) ∧ conn F (to e) y) ∨
  (conn F x (to e) ∧ conn F (from e) y).
Proof.
  induction 1 as [x|e' y He' _ IH|e' y He' _ IH]; [left; apply conn_refl|..].
  - apply elem_of_cons in He' as [->|He'].
    + destruct IH as [?|[[? ?]|[? ?]]].
      * right; left. split; [apply conn_refl|done].
      * right; left. split; [apply conn_refl|done].
      * by left.
    + destruct IH as [?|[[? ?]|[? ?]]].
      * left. by apply conn_fwd.
      * right; left. split; [by apply conn_fwd|done].
      * right; right. split; [by apply conn_fwd|done].
  - apply elem_of_cons in He' as [->|He'].
    + destruct IH as [?|[[? ?]|[? ?]]].
      * right; right. split; [apply conn_refl|done].
      * by left.
      * right; right. split; [apply conn_refl|done].
    + destruct IH as [?|[[? ?]|[? ?]]].
      * left. by apply conn_bwd.
      * right; left. split; [by apply conn_bwd|done].
      * right; right. split; [by apply conn_bwd|done].
Qed.

Lemma conn_cons_ext P Q t :
  (∀ x y, conn P x y ↔ conn Q x y) → ∀ x y, conn (t :: P) x y ↔ conn (t :: Q) x y.
Proof.
  intros HPQ x y. split; apply conn_sub; intros e [->|He]%elem_of_cons;
    try (apply conn_edge; set_solver).
  - eapply conn_mono; [|apply (proj1 (HPQ _ _)), conn_edge, He]. set_solver.
  - eapply conn_mono; [|apply (proj2 (HPQ _ _)), conn_edge, He]. set_solver.
Qed.

(** If [t] joins the ends of [e], which were apart, then [e] joins the ends
    of [t]. *)
Lemma conn_swap P e t :
  ¬ conn P (from e) (to e) → conn (t :: P) (from e) (to e) →
  conn (e :: P) (from t) (to t).
Proof.
  intros Hno [?|[[H1 H2]|[H1 H2]]]%conn_bridge; [done|..].
  - eapply conn_trans; [eapply conn_mono; [|apply conn_sym, H1]; set_solver|].
    eapply conn_trans; [apply conn_edge; set_solver|].
    eapply conn_mono; [|apply conn_sym, H2]; set_solver.
  - eapply conn_trans; [eapply conn_mono; [|apply H2]; set_solver|].
    eapply conn_trans; [apply conn_edge_rev; set_solver|].
    eapply conn_mono; [|apply H1]; set_solver.
Qed.

(** [T], added edge by edge to what [P] joins already, never joins two
    vertices that are joined. *)
Fixpoint indep (P T : list Edge) : Prop :=
  match T with
  | [] => True
  | t :: T => ¬ conn P (from t) (to t) ∧ indep (t :: P) T
  end.

Lemma indep_ext T : ∀ P Q,
  (∀ x y, conn P x y ↔ conn Q x y) → indep P T → indep Q T.
Proof.
  induction T as [|t T IH]; intros P Q HPQ; simpl; [done|].
  intros [Hno HT]. split; [by rewrite <- HPQ|].
  eapply IH; [|done]. by apply conn_cons_ext.
Qed.

Lemma indep_elem T : ∀ P t, indep P T → t ∈ T → ¬ conn P (from t) (to t).
Proof.
  induction T as [|t0 T IH]; intros P t; simpl; [by intros _ ?%elem_of_nil|].
  intros [Hno HT] [->|Ht]%elem_of_cons; [done|].
  intros Hc. apply (IH _ t HT Ht). eapply conn_mono; [|done]. set_solver.
Qed.

Lemma conn_cons_comm P a b x y : conn (a :: b :: P) x y ↔ conn (b :: a :: P) x y.
Proof. split; apply conn_mono; set_solver. Qed.

Lemma indep_middle T1 : ∀ P e T2, indep P (T1 ++ e :: T2) → indep P (e :: T1 ++ T2).
Proof.
  induction T1 as [|t T1 IH]; intros P e T2; [done|].
  simpl. intros [Ht HT]. apply IH in HT. simpl in HT. destruct HT as [He HT].
  split_and!.
  - intros Hc. apply He. eapply conn_mono; [|done]. set_solver.
  - intros Hc. apply He. by apply conn_swap.
  - eapply indep_ext; [|done]. intros x y. apply conn_cons_comm.
Qed.

Lemma indep_bridge T : ∀ P e,
  ¬ conn P (from e) (to e) → indep (e :: P) T → ¬ conn (T ++ P) (from e) (to e).
Proof.
  induction T as [|s T IH]; intros P e Hno; simpl; [done|].
  intros [Hs HT] Hc. apply (IH (s :: P) e).
  - intros Hc'. apply Hs. by apply conn_swap.
  - eapply indep_ext; [|done]. intros x y. apply conn_cons_comm.
  - eapply conn_mono; [|done]. set_solver.
Qed.

(** A forest: no edge joins two vertices that the other edges join. *)
Definition forest (F : list Edge) : Prop :=
  ∀ F1 e F2, F = F1 ++ e :: F2 → ¬ conn (F1 ++ F2) (from e) (to e).

Lemma forest_indep T : ∀ P,
  (∀ T1 t T2, T = T1 ++ t :: T2 → ¬ conn (T1 ++ T2 ++ P) (from t) (to t)) →
  indep P T.
Proof.
  induction T as [|t T IH]; intros P HT; simpl; [done|]. split.
  - intros Hc. apply (HT [] t T eq_refl). eapply conn_mono; [|done]. set_solver.
  - apply IH. intros T1 t' T2 -> Hc. apply (HT (t :: T1) t' T2 eq_refl).
    eapply conn_mono; [|done]. set_solver.
Qed.

Lemma indep_forest T P :
  indep P T →
  ∀ T1 t T2, T = T1 ++ t :: T2 → ¬ conn (T1 ++ T2 ++ P) (from t) (to t).
Proof.
  intros HT T1 t T2 ->. apply indep_middle in HT. simpl in HT. destruct HT as [Ht HT].
  rewrite app_assoc. by apply indep_bridge.
Qed.

Lemma forest_iff_indep F : forest F ↔ indep [] F.
Proof.
  split.
  - intros HF. apply forest_indep. intros T1 t T2 HT. rewrite app_nil_r. by apply HF.
  - intros HF F1 e F2 HT. pose proof (indep_forest F [] HF F1 e F2 HT) as H.
    by rewrite app_nil_r in H.
Qed.

(** The exchange step: when [T] joins the ends of [e] and [P] does not, one
    edge of [T] can make room for [e]. *)
Lemma indep_exchange T : ∀ P e,
  indep P T → ¬ conn P (from e) (to e) → conn (T ++ P) (from e) (to e) →
  ∃ T1 t T2, T = T1 ++ t :: T2 ∧ indep (e :: P) (T1 ++ T2) ∧
    ∀ x y, conn (T ++ P) x y ↔ conn ((T1 ++ T2) ++ e :: P) x y.
Proof.
  induction T as [|t T IH]; intros P e HT Hno Hc; [done|].
  simpl in HT. destruct HT as [Ht HT].
  destruct (classic (conn (e :: P) (from t) (to t))) as [Hte|Hte].
  - (* [t] is the edge to give up *)
    assert (conn (t :: P) (from e) (to e)) as Het by (by apply conn_swap).
    assert (∀ x y, conn (t :: P) x y ↔ conn (e :: P) x y) as Heq.
    { intros x y. split; apply conn_sub; intros f [->|Hf]%elem_of_cons; try done;
        apply conn_edge; set_solver. }
    exists [], t, T. split_and!; [done|by eapply indep_ext|].
    intros x y. simpl. split; apply conn_sub; intros f Hf.
    + apply elem_of_cons in Hf as [->|[Hf|Hf]%elem_of_app].
      * eapply conn_mono; [|apply Hte]. set_solver.
      * apply conn_edge. set_solver.
      * apply conn_edge. set_solver.
    + apply elem_of_app in Hf as [Hf|[->|Hf]%elem_of_cons].
      * apply conn_edge. set_solver.
      * eapply conn_mono; [|apply Het]. set_solver.
      * apply conn_edge. set_solver.
  - (* [t] stays *)
    destruct (IH (t :: P) e HT) as (T1 & t' & T2 & -> & Hind & Heq).
    + intros Hc'. apply Hte. by apply conn_swap.
    + eapply conn_mono; [|done]. set_solver.
    + exists (t :: T1), t', T2. split_and!; [done| |].
      * simpl. split; [done|]. eapply indep_ext; [|done]. intros x y. apply conn_cons_comm.
      * intros x y. transitivity (conn ((T1 ++ t' :: T2) ++ t :: P) x y).
        { split; apply conn_mono; set_solver. }
        rewrite Heq. split; apply conn_mono; set_solver.
Qed.

(** ** Kruskal: the loop *)

(** The sum of the weights, as a mathematical integer. *)
Definition total (F : list Edge) : Z := foldr (λ e s, weight e + s) 0 F.

Lemma total_app F G : total (F ++ G) = total F + total G.
Proof. induction F as [|e F IH]; simpl; lia. Qed.

Lemma wrap_range x : INT_MIN ≤ wrap x ≤ INT_MAX.
Proof.
  unfold wrap, INT_MIN, INT_MAX.
  pose proof (Z.mod_pos_bound (x - -2147483648) 4294967296). lia.
Qed.

#[global] Instance weight_le_total : Total weight_le.
Proof. intros a b. unfold weight_le. lia. Qed.

#[global] Instance weight_le_trans : Transitive weight_le.
Proof. intros a b c. unfold weight_le. lia. Qed.

(** Modelled from the spec: what makes a Union-Find collaborator correct.
    [uf_valid n t] says that [t] is a structure over the elements below [n],
    and [uf_same t a b] that [a] and [b] are in one set of [t].
    [UnionFind(n)] has [n] singletons; [unite(a, b)] returns whether [a] and
    [b] were in distinct sets and merges the two sets, touching no other. *)
Class UnionFindLaws (U : UnionFind) : Type := {
  uf_valid : nat → uf_t → Prop;
  uf_same : uf_t → nat → nat → Prop;
  uf_make_valid n : uf_valid n (uf_make n);
  uf_make_same n a b :
    (a < n)%nat → (b < n)%nat → uf_same (uf_make n) a b ↔ a = b;
  uf_unite_spec n t a b :
    uf_valid n t → (a < n)%nat → (b < n)%nat →
    ∃ t' r, uf_unite t a b = Ok (t', r) ∧ uf_valid n t' ∧
      (r = true ↔ ¬ uf_same t a b) ∧
      ∀ x y, (x < n)%nat → (y < n)%nat →
        (uf_same t' x y ↔
           uf_same t x y ∨ (uf_same t x a ∧ uf_same t b y) ∨
           (uf_same t x b ∧ uf_same t a y))
}.

(** The vector of labels is such a collaborator. *)
#[global] Program Instance LabelUnionFindLaws : UnionFindLaws LabelUnionFind := {|
  uf_valid n t := length t = n;
  uf_same t a b := t !! a = t !! b
|}.
Next Obligation. intros n. simpl. by rewrite length_seq. Qed.
Next Obligation.
  intros n a b Ha Hb. simpl. rewrite !lookup_seq_lt by done. simpl.
  split; [by intros [= ->]|by intros ->].
Qed.
Next Obligation.
  intros n t a b Hl Ha Hb. simpl in *. unfold label_unite.
  destruct (vget_lt t a) as (la & -> & Hla); [by rewrite Hl|].
  destruct (vget_lt t b) as (lb & -> & Hlb); [by rewrite Hl|]. simpl.
  rewrite Hla, Hlb. destruct (decide (la = lb)) as [->|Hne].
  - exists t, false. split_and!; [done..| |].
    + split; [done|]. by intros [].
    + intros x y _ _. split; [by left|]. intros [?|[[? ?]|[? ?]]]; congruence.
  - eexists _, true. split_and!; [done|by rewrite length_fmap| |].
    + split; [intros _; congruence|done].
    + intros x y Hx Hy. rewrite !list_lookup_fmap.
      destruct (lookup_lt_is_Some_2 t x) as [lx Hlx]; [lia|].
      destruct (lookup_lt_is_Some_2 t y) as [ly Hly]; [lia|].
      rewrite ?Hla, ?Hlb, Hlx, Hly. simpl.
      assert (∀ p q : nat, Some p = Some q ↔ p = q) as Hinj.
      { intros p q. split; [by intros [= ->]|by intros ->]. }
      rewrite !Hinj. repeat case_decide; subst; intuition congruence.
Qed.

Section kruskal.
Context {U : UnionFind} {UL : UnionFindLaws U}.
Variable V : nat.

Lemma kruskal_step t ret e L t1 (r : bool) :
uf_unite t (from e) (to e) = Ok (t1, r) →
foldM kruskal_edge (e :: L) (t, ret) =
  foldM kruskal_edge L (t1, if r then add ret (weight e) else ret).
Proof using Type. intros Hrun. simpl. rewrite Hrun. simpl. by destruct r. Qed.

Lemma kruskal_loop_spec L :
StronglySorted weight_le L →
(∀ e, e ∈ L → (from e < V)%nat ∧ (to e < V)%nat) →
∀ t ret P,
  uf_valid V t → INT_MIN ≤ ret ≤ INT_MAX →
  (∀ x y, (x < V)%nat → (y < V)%nat → uf_same t x y ↔ conn P x y) →
  ∃ t' F, foldM kruskal_edge L (t, ret) = Ok (t', wrap (ret + total F)) ∧
    (∀ e, e ∈ F → e ∈ L) ∧ indep P F ∧
    (∀ x y, conn (L ++ P) x y → conn (F ++ P) x y) ∧
    (∀ T, (∀ e, e ∈ T → e ∈ L) → indep P T →
       (∀ x y, conn (L ++ P) x y → conn (T ++ P) x y) → total F ≤ total T).
Proof using UL.
induction L as [|e L IH]; intros Hsort Hrange t ret P Hval Hret Hsame.
{ exists t, []. simpl. rewrite Z.add_0_r, wrap_small by done.
  split_and!; try done.
  intros T HT _ _. destruct T as [|t0 T]; [done|].
  assert (t0 ∈ @nil Edge) as ?%elem_of_nil by (apply HT; apply list_elem_of_here). done. }
apply StronglySorted_inv in Hsort as [Hsort Hmin].
destruct (Hrange e) as [Hf Ht]; [set_solver|].
destruct (uf_unite_spec V t (from e) (to e) Hval Hf Ht)
  as (t1 & r & Hrun & Hval1 & Hr & Hsame1).
rewrite (kruskal_step _ _ _ _ _ _ Hrun). destruct r.
- (* the edge joins two sets *)
  assert (¬ conn P (from e) (to e)) as Hno.
  { rewrite <- Hsame by done. by apply Hr. }
  destruct (IH Hsort (λ e' He', Hrange e' (list_elem_of_further _ _ _ He'))
              t1 (add ret (weight e)) (e :: P) Hval1 (wrap_range _))
    as (t2 & F & -> & HFL & HFind & HFspan & HFopt).
  { intros x y Hx Hy. rewrite Hsame1 by done. rewrite !Hsame by done. split.
    - intros [?|[[? ?]|[? ?]]].
      + eapply conn_mono; [|done]. set_solver.
      + eapply conn_trans; [eapply conn_mono; [|done]; set_solver|].
        eapply conn_trans; [apply conn_edge; set_solver|].
        eapply conn_mono; [|done]. set_solver.
      + eapply conn_trans; [eapply conn_mono; [|done]; set_solver|].
        eapply conn_trans; [apply conn_edge_rev; set_solver|].
        eapply conn_mono; [|done]. set_solver.
    - apply conn_bridge. }
  exists t2, (e :: F). split_and!.
  + f_equal. f_equal. unfold add. rewrite wrap_add_l. simpl. f_equal. lia.
  + intros e' [->|He']%elem_of_cons; set_solver.
  + done.
  + intros x y Hc. eapply conn_mono; [|apply HFspan; eapply conn_mono; [|exact Hc]];
      set_solver.
  + intros T HTL HTind HTspan.
    destruct (decide (e ∈ T)) as [HeT|HeT].
    * (* [T] has the edge *)
      apply list_elem_of_split in HeT as (T1 & T2 & ->).
      apply indep_middle in HTind. simpl in HTind. destruct HTind as [_ HTind].
      assert (total F ≤ total (T1 ++ T2)) as Hle.
      { apply HFopt; [|done|].
        - intros e' He'.
          assert (e' ∈ e :: L) as [->|?]%elem_of_cons by (apply HTL; set_solver); [|done].
          destruct (indep_elem _ _ _ HTind He'). apply conn_edge. set_solver.
        - intros x y Hc. eapply conn_mono;
            [|apply HTspan; eapply conn_mono; [|exact Hc]]; set_solver. }
      rewrite total_app in *. simpl. lia.
    * (* [T] does without it: exchange *)
      assert (∀ e', e' ∈ T → e' ∈ L) as HTL'.
      { intros e' He'.
        assert (e' ∈ e :: L) as [->|?]%elem_of_cons by (by apply HTL); done. }
      destruct (indep_exchange T P e HTind Hno) as (T1 & t' & T2 & -> & Hind' & Heq).
      { apply HTspan. apply conn_edge. set_solver. }
      assert (total F ≤ total (T1 ++ T2)) as Hle.
      { apply HFopt; [set_solver|done|].
        intros x y Hc. apply Heq, HTspan. eapply conn_mono; [|exact Hc]. set_solver. }
      assert (weight e ≤ weight t') as Hw.
      { rewrite Forall_forall in Hmin. apply Hmin, HTL'.
        apply elem_of_app. right. apply list_elem_of_here. }
      rewrite total_app in *. simpl. lia.
- (* the edge is inside one set *)
  assert (conn P (from e) (to e)) as Hyes.
  { rewrite <- Hsame by done. apply NNPP. intros Hn. by apply Hr in Hn. }
  destruct (IH Hsort (λ e' He', Hrange e' (list_elem_of_further _ _ _ He'))
              t1 ret P Hval1 Hret)
    as (t2 & F & -> & HFL & HFind & HFspan & HFopt).
  { intros x y Hx Hy. rewrite Hsame1 by done. rewrite !Hsame by done. split; [|by left].
    intros [?|[[H1 H2]|[H1 H2]]]; [done|..].
    - apply (conn_trans _ _ (from e)); [done|].
      by apply (conn_trans _ _ (to e)).
    - apply (conn_trans _ _ (to e)); [done|].
      apply (conn_trans _ _ (from e)); [by apply conn_sym|done]. }
  assert (∀ x y, conn ((e :: L) ++ P) x y → conn (L ++ P) x y) as Hdrop.
  { intros x y. apply conn_sub. intros f Hfin. simpl in Hfin.
    apply elem_of_cons in Hfin as [->|Hfin].
    - eapply conn_mono; [|done]. set_solver.
    - by apply conn_edge. }
  exists t2, F. split_and!; [done|set_solver|done| |].
  + intros x y Hc. by apply HFspan, Hdrop.
  + intros T HTL HTind HTspan. apply HFopt; [|done|].
    * intros e' He'.
      assert (e' ∈ e :: L) as [->|?]%elem_of_cons by (by apply HTL); [|done].
      by destruct (indep_elem _ _ _ HTind He').
    * intros x y Hc. apply HTspan. eapply conn_mono; [|done]. set_solver.
Qed.
End kruskal.

(** [F] is a minimum spanning forest of the edges [E]: a forest made of
    edges of [E] that joins whatever [E] joins, and no such forest weighs
    less. *)
Definition spanning_forest (E F : list Edge) : Prop :=
  forest F ∧ (∀ e, e ∈ F → e ∈ E) ∧ (∀ x y, conn E x y → conn F x y).

Definition minimum_spanning_forest (E F : list Edge) : Prop :=
  spanning_forest E F ∧ ∀ T, spanning_forest E T → total F ≤ total T.

(** With a Union-Find collaborator that behaves as the specification says,
    and every edge between vertices below [V], [Kruskal] returns the total
    weight (as an [int]) of a minimum spanning forest, and leaves the
    caller's edges sorted by weight. *)
Theorem Kruskal_minimum_spanning_forest {U : UnionFind} {UL : UnionFindLaws U}
    (edges : list Edge) (V : nat) :
  (∀ e, e ∈ edges → (from e < V)%nat ∧ (to e < V)%nat) →
  ∃ ret edges' F,
    Kruskal edges V = Ok (ret, edges') ∧
    edges' ≡ₚ edges ∧ StronglySorted weight_le edges' ∧
    minimum_spanning_forest edges F ∧
    ret = wrap (total F) ∧
    (INT_MIN ≤ total F ≤ INT_MAX → ret = total F).
Proof.
  intros Hrange. unfold Kruskal.
  pose proof (merge_sort_Permutation weight_le edges) as Hperm.
  pose proof (StronglySorted_merge_sort weight_le edges) as Hsort.
  fold (sort_edges edges) in Hperm, Hsort.
  assert (∀ e, e ∈ sort_edges edges ↔ e ∈ edges) as Hmem.
  { intros e. by rewrite Hperm. }
  destruct (kruskal_loop_spec V (sort_edges edges) Hsort) with
    (t := uf_make V) (ret := 0) (P := @nil Edge) as (t' & F & -> & HFL & HFind & HFspan & HFopt).
  - intros e He. by apply Hrange, Hmem.
  - apply uf_make_valid.
  - unfold INT_MIN, INT_MAX. lia.
  - intros x y Hx Hy. rewrite uf_make_same by done. split; [intros ->; apply conn_refl|].
    intros Hc. inversion Hc as [|e ? He|e ? He]; [done|..]; by apply elem_of_nil in He.
  - simpl. exists (wrap (total F)), (sort_edges edges), F.
    split_and!; [done..| |done|by apply wrap_small].
    split.
    + split_and!.
      * by apply forest_iff_indep.
      * intros e He. by apply Hmem, HFL.
      * intros x y Hc. rewrite <- (app_nil_r F). apply HFspan.
        eapply conn_mono; [|done]. intros e He. rewrite app_nil_r. by apply Hmem.
    + intros T (HTf & HTE & HTspan). apply HFopt.
      * intros e He. by apply Hmem, HTE.
      * by apply forest_iff_indep.
      * intros x y Hc. rewrite app_nil_r in *. apply HTspan.
        eapply conn_mono; [|done]. intros e He. by apply Hmem.
Qed.

Example Kruskal_triangle :
  Kruskal [mkEdge 0 1 1; mkEdge 1 2 2; mkEdge 0 2 3] 3 =
    Ok (3, [mkEdge 0 1 1; mkEdge 1 2 2; mkEdge 0 2 3]).
Proof. reflexivity. Qed.

Lemma Kruskal_minimum_spanning_forest_witness :
  ∃ ret edges' F,
    Kruskal [mkEdge 0 2 3; mkEdge 1 2 2; mkEdge 0 1 1] 3 = Ok (ret, edges') ∧
    edges' ≡ₚ [mkEdge 0 2 3; mkEdge 1 2 2; mkEdge 0 1 1] ∧
    StronglySorted weight_le edges' ∧
    minimum_spanning_forest [mkEdge 0 2 3; mkEdge 1 2 2; mkEdge 0 1 1] F ∧
    ret = wrap (total F) ∧
    (INT_MIN ≤ total F ≤ INT_MAX → ret = total F).
Proof.
  apply (Kruskal_minimum_spanning_forest [mkEdge 0 2 3; mkEdge 1 2 2; mkEdge 0 1 1] 3).
  intros e He. repeat (apply elem_of_cons in He as [->|He]; [simpl; lia|]).
  by apply elem_of_nil in He.
Defined.

(** ** Dijkstra *)

(** A walk from [u] to [v] along edges of [E], of total weight [W] (as a
    mathematical integer). *)
Inductive walk (E : Edge → Prop) (u : nat) : nat → Z → Prop :=
| walk_nil : walk E u u 0
| walk_snoc e W : walk E u (from e) W → E e → walk E u (to e) (W + weight e).

(** [Dijkstra] writes [dist[from]] first: with a source that is no vertex of
    the graph it is out of bounds, whatever the fuel. *)
Theorem Dijkstra_source_out_of_bounds (fuel : nat) (g : list (list Edge)) (s : nat) :
  (length g ≤ s)%nat → Dijkstra fuel g s = OutOfBounds.
Proof.
  intros Hs. unfold Dijkstra, vset. rewrite length_replicate.
  by rewrite decide_False by lia.
Qed.

Lemma Dijkstra_source_out_of_bounds_witness : Dijkstra 5 cycle4 4 = OutOfBounds.
Proof. apply (Dijkstra_source_out_of_bounds 5 cycle4 4). simpl. lia. Defined.

(** *** The queue *)

Lemma que_emplace_perm p que : que_emplace p que ≡ₚ p :: que.
Proof.
  induction que as [|q que IH]; simpl; [done|].
  destruct (Pi_le p q); [done|]. rewrite IH. apply Permutation_swap.
Qed.

(** The order the program can observe: that of the weights. *)
Definition que_le (p q : Z * nat) : Prop := p.1 ≤ q.1.

Lemma que_emplace_sorted p que :
  StronglySorted que_le que → StronglySorted que_le (que_emplace p que).
Proof.
  induction 1 as [|q que Hs IH Hq]; simpl.
  { repeat constructor. }
  destruct (Pi_le p q) eqn:Hpq.
  - assert (que_le p q) as Hle.
    { unfold Pi_le in Hpq. unfold que_le.
      apply orb_true_iff in Hpq as [?%Z.ltb_lt|[?%Z.eqb_eq _]%andb_true_iff]; lia. }
    constructor; [by constructor|]. constructor; [done|].
    eapply Forall_impl; [done|]. intros x. unfold que_le in *. lia.
  - assert (que_le q p) as Hle.
    { unfold Pi_le in Hpq. unfold que_le.
      apply orb_false_iff in Hpq as [?%Z.ltb_ge _]. lia. }
    constructor; [done|]. rewrite que_emplace_perm. by constructor.
Qed.

(** *** The edges still to be relaxed *)

(** The number of edges that leave a vertex outside [D]; [i] is the index of
    the first adjacency list of [g]. *)
Fixpoint pend (D : list nat) (g : list (list Edge)) (i : nat) : nat :=
  match g with
  | [] => O
  | es :: g => ((if decide (i ∈ D) then O else length es) + pend D g (S i))%nat
  end.

Lemma pend_nil g i : pend [] g i = length (concat g).
Proof.
  revert i. induction g as [|es g IH]; intros i; simpl; [done|].
  by rewrite length_app, IH.
Qed.

Lemma pend_outside D g i u :
  (u < i)%nat → pend (u :: D) g i = pend D g i.
Proof.
  revert i. induction g as [|es g IH]; intros i Hu; simpl; [done|].
  rewrite IH by lia.
  destruct (decide (i ∈ D)).
  - rewrite decide_True by set_solver. done.
  - rewrite decide_False; [done|]. intros [?|?]%elem_of_cons; [lia|done].
Qed.

Lemma pend_done D g : ∀ i v es,
  v ∉ D → (i ≤ v)%nat → g !! (v - i)%nat = Some es →
  (pend (v :: D) g i + length es = pend D g i)%nat.
Proof.
  induction g as [|es0 g IH]; intros i v es Hv Hi Hes; [done|]. simpl.
  destruct (decide (v = i)) as [->|Hne].
  - rewrite Nat.sub_diag in Hes. injection Hes as ->.
    rewrite decide_True by set_solver. rewrite decide_False by done.
    rewrite pend_outside by lia. lia.
  - replace (v - i)%nat with (S (v - S i)) in Hes by lia. simpl in Hes.
    specialize (IH (S i) v es Hv ltac:(lia) Hes).
    destruct (decide (i ∈ D)).
    + rewrite decide_True by set_solver. lia.
    + rewrite decide_False; [lia|]. intros [?|?]%elem_of_cons; [lia|done].
Qed.

Lemma que_emplace_elem p q que : q ∈ que_emplace p que ↔ q = p ∨ q ∈ que.
Proof. rewrite que_emplace_perm. apply elem_of_cons. Qed.

Lemma dijkstra_loop_nil fuel g dist : dijkstra_loop fuel g dist [] = Ok dist.
Proof. by destruct fuel. Qed.

Lemma dijkstra_loop_cons fuel g dist w idx que :
  dijkstra_loop (S fuel) g dist ((w, idx) :: que) =
    d ← vget dist idx;
    if d <? w then dijkstra_loop fuel g dist que
    else
      es ← vget g idx;
      '(dist, que) ← foldM (dijkstra_edge w) es (dist, que);
      dijkstra_loop fuel g dist que.
Proof. reflexivity. Qed.

Section dijkstra.
Variable g : list (list Edge).
Variable s : nat.
Hypothesis Hok : graph_ok g = true.
Hypothesis Hs : (s < length g)%nat.
Hypothesis Hw : ∀ e, has_edge g e → 0 ≤ weight e ≤ INT_MAX - INF.

(** Every edge out of [u] has been relaxed. *)
Definition relaxed (dist : list Z) (u : nat) : Prop :=
  ∀ es e, g !! u = Some es → e ∈ es →
    ∃ du dv, dist !! u = Some du ∧ dist !! to e = Some dv ∧ dv ≤ du + weight e.

(** The state of the queue loop.  [D] lists the vertices whose edges have
    been handled: their distances are final, at most every weight in the
    queue, and what the queue still holds for them is stale.  Every other
    vertex that has been reached waits in the queue with its distance. *)
Record dcore (dist : list Z) (que : list (Z * nat)) (D : list nat) : Prop := {
  di_len : length dist = length g;
  di_src : dist !! s = Some 0;
  di_val : ∀ v d, dist !! v = Some d → 0 ≤ d ≤ INF;
  di_walk : ∀ v d, dist !! v = Some d → d < INF → walk (has_edge g) s v d;
  di_que : ∀ w v, (w, v) ∈ que → ∃ d, dist !! v = Some d ∧ d ≤ w ∧ w < INF;
  di_nodup : NoDup que;
  di_sorted : StronglySorted que_le que;
  di_done_le : ∀ u w v, u ∈ D → (w, v) ∈ que → ∃ du, dist !! u = Some du ∧ du ≤ w;
  di_done_stale : ∀ u w, u ∈ D → (w, u) ∈ que → ∃ du, dist !! u = Some du ∧ du < w;
  di_open : ∀ u du, u ∉ D → dist !! u = Some du → du = INF ∨ (du, u) ∈ que;
  di_done_lt : ∀ u, u ∈ D → (u < length g)%nat
}.

Lemma dijkstra_edge_spec w idx D dist que e :
  dcore dist que (idx :: D) → (∀ u, u ∈ D → relaxed dist u) →
  dist !! idx = Some w → w < INF →
  (∀ u du, u ∈ idx :: D → dist !! u = Some du → du ≤ w) →
  has_edge g e → from e = idx →
  ∃ dist' que', dijkstra_edge w (dist, que) e = Ok (dist', que') ∧
    dcore dist' que' (idx :: D) ∧ (∀ u, u ∈ D → relaxed dist' u) ∧
    dist' !! idx = Some w ∧
    (∀ u du, u ∈ idx :: D → dist' !! u = Some du → du ≤ w) ∧
    (∀ v d, dist !! v = Some d → ∃ d', dist' !! v = Some d' ∧ d' ≤ d) ∧
    (∃ dv, dist' !! to e = Some dv ∧ dv ≤ w + weight e) ∧
    (length que' ≤ S (length que))%nat.
Proof.
  intros Hc Hrel Hidx HwINF Hbelow He Hfrom.
  destruct (has_edge_ok g e Hok He) as [_ Hto].
  pose proof (Hw e He) as Hwe.
  pose proof (di_val _ _ _ Hc idx w Hidx) as Hw0.
  assert (add w (weight e) = w + weight e) as Hadd.
  { apply add_small. rewrite INF_val in *. unfold INT_MIN, INT_MAX in *. lia. }
  unfold dijkstra_edge. rewrite Hadd.
  destruct (vget_lt dist (to e)) as (dv & -> & Hdv); [rewrite (di_len _ _ _ Hc); lia|].
  simpl. destruct (Z.leb_spec dv (w + weight e)) as [Hle|Hlt].
  { exists dist, que. split_and!; try done.
    - intros v d Hv. exists d. split; [done|lia].
    - by exists dv.
    - lia. }
  set (v := to e) in *. set (next := w + weight e) in *.
  assert ((v < length dist)%nat) as Hvlt by (by eapply lookup_lt_Some).
  rewrite vset_lt by done. simpl.
  assert (<[v:=next]> dist !! v = Some next) as Hnew by (by apply list_lookup_insert_eq).
  rewrite (proj2 (vget_Ok _ _ _) Hnew). simpl.
  pose proof (di_val _ _ _ Hc v dv Hdv) as Hdv0.
  assert (v ∉ idx :: D) as HvD.
  { intros Hin. specialize (Hbelow v dv Hin Hdv). lia. }
  assert (v ≠ idx) as Hvidx by (intros Heq; apply HvD; rewrite Heq; by left).
  assert (v ∉ D) as HvD' by (intros Hin; apply HvD; by right).
  assert (v ≠ s) as Hvs.
  { intros ->. pose proof (di_src _ _ _ Hc). simplify_eq. lia. }
  assert (∀ x, x ≠ v → <[v:=next]> dist !! x = dist !! x) as Hother.
  { intros x Hx. by rewrite list_lookup_insert_ne. }
  assert (∀ x d, <[v:=next]> dist !! x = Some d →
            ∃ d0, dist !! x = Some d0 ∧ d ≤ d0 ∧ (x ≠ v → d = d0) ∧ (x = v → d = next)) as Hold.
  { intros x d Hx. destruct (decide (x = v)) as [->|Hne].
    - rewrite Hnew in Hx. injection Hx as <-. exists dv. split_and!; try done; lia.
    - rewrite Hother in Hx by done. exists d. split_and!; try done; lia. }
  exists (<[v:=next]> dist), (que_emplace (next, v) que).
  split_and!; [done| | | | | | |].
  - constructor.
    + rewrite length_insert. apply Hc.
    + rewrite Hother by done. apply Hc.
    + intros x d Hx. destruct (Hold x d Hx) as (d0 & Hd0 & ? & Hne & Heq).
      destruct (decide (x = v)) as [->|?].
      * rewrite (Heq eq_refl). lia.
      * rewrite (Hne ltac:(done)). by apply (di_val _ _ _ Hc x).
    + intros x d Hx Hd. destruct (decide (x = v)) as [->|Hne].
      * rewrite Hnew in Hx. injection Hx as <-. unfold v, next.
        apply walk_snoc; [|done]. rewrite Hfrom. by apply (di_walk _ _ _ Hc).
      * rewrite Hother in Hx by done. by apply (di_walk _ _ _ Hc).
    + intros w' x [[= -> ->]|Hin]%que_emplace_elem.
      * exists next. split_and!; [done|lia|lia].
      * destruct (di_que _ _ _ Hc w' x Hin) as (d & Hd & ? & ?).
        destruct (decide (x = v)) as [->|Hne].
        -- exists next. split_and!; [done| |done]. simplify_eq. lia.
        -- exists d. by rewrite Hother.
    + rewrite que_emplace_perm. apply NoDup_cons. split; [|apply Hc].
      intros Hin. destruct (di_que _ _ _ Hc next v Hin) as (d & Hd & ? & ?).
      simplify_eq. lia.
    + apply que_emplace_sorted, Hc.
    + intros u w' x Hu [[= -> ->]|Hin]%que_emplace_elem.
      * assert (u ≠ v) as Hne by (intros ->; done).
        rewrite Hother by done.
        destruct (lookup_lt_is_Some_2 dist u) as [du Hdu].
        { rewrite (di_len _ _ _ Hc). by apply (di_done_lt _ _ _ Hc). }
        exists du. split; [done|]. specialize (Hbelow u du Hu Hdu). lia.
      * assert (u ≠ v) as Hne by (intros ->; done).
        rewrite Hother by done. by apply (di_done_le _ _ _ Hc u w' x).
    + intros u w' Hu [[= -> ->]|Hin]%que_emplace_elem; [done|].
      assert (u ≠ v) as Hne by (intros ->; done).
      rewrite Hother by done. by apply (di_done_stale _ _ _ Hc).
    + intros u du Hu Hdu. destruct (decide (u = v)) as [->|Hne].
      * rewrite Hnew in Hdu. injection Hdu as <-. right.
        apply que_emplace_elem. by left.
      * rewrite Hother in Hdu by done.
        destruct (di_open _ _ _ Hc u du Hu Hdu) as [?|?]; [by left|right].
        apply que_emplace_elem. by right.
    + apply Hc.
  - intros u Hu es e' Hes He'.
    destruct (Hrel u Hu es e' Hes He') as (du & dv' & Hdu & Hdv' & Hle).
    assert (u ≠ v) as Hne by (intros ->; done).
    exists du. rewrite Hother by done.
    destruct (decide (to e' = v)) as [Heq|Hne'].
    + exists next. rewrite Heq. split_and!; [done..|]. rewrite Heq in Hdv'.
      simplify_eq. lia.
    + exists dv'. by rewrite Hother.
  - by rewrite Hother.
  - intros u du Hu Hdu. assert (u ≠ v) as Hne by (intros ->; done).
    rewrite Hother in Hdu by done. by apply (Hbelow u).
  - intros x d Hx. destruct (decide (x = v)) as [->|Hne].
    + exists next. split; [done|]. simplify_eq. lia.
    + exists d. rewrite Hother by done. split; [done|lia].
  - exists next. split; [done|]. unfold next. lia.
  - rewrite que_emplace_perm. simpl. lia.
Qed.

Lemma dijkstra_edges_spec w idx D es :
  (∀ e, e ∈ es → has_edge g e ∧ from e = idx) → w < INF →
  ∀ dist que,
  dcore dist que (idx :: D) → (∀ u, u ∈ D → relaxed dist u) →
  dist !! idx = Some w →
  (∀ u du, u ∈ idx :: D → dist !! u = Some du → du ≤ w) →
  ∃ dist' que', foldM (dijkstra_edge w) es (dist, que) = Ok (dist', que') ∧
    dcore dist' que' (idx :: D) ∧ (∀ u, u ∈ D → relaxed dist' u) ∧
    dist' !! idx = Some w ∧
    (∀ v d, dist !! v = Some d → ∃ d', dist' !! v = Some d' ∧ d' ≤ d) ∧
    (∀ e, e ∈ es → ∃ dv, dist' !! to e = Some dv ∧ dv ≤ w + weight e) ∧
    (length que' ≤ length que + length es)%nat.
Proof.
  intros Hes HwINF.
  induction es as [|e es IH]; intros dist que Hc Hrel Hidx Hbelow; cbn [foldM].
  { exists dist, que. split_and!; try done.
    - intros v d Hv. exists d. split; [done|lia].
    - by intros e ?%elem_of_nil.
    - lia. }
  destruct (Hes e ltac:(left)) as [He Hfrom].
  destruct (dijkstra_edge_spec w idx D dist que e Hc Hrel Hidx HwINF Hbelow He Hfrom)
    as (dist1 & que1 & -> & Hc1 & Hrel1 & Hidx1 & Hbelow1 & Hmono1 & Hrelax1 & Hlen1).
  simpl.
  destruct (IH ltac:(intros; apply Hes; by right) dist1 que1 Hc1 Hrel1 Hidx1 Hbelow1)
    as (dist2 & que2 & -> & Hc2 & Hrel2 & Hidx2 & Hmono2 & Hrelax2 & Hlen2).
  exists dist2, que2. split_and!; try done.
  - intros v d Hv. destruct (Hmono1 v d Hv) as (d1 & Hd1 & ?).
    destruct (Hmono2 v d1 Hd1) as (d2 & Hd2 & ?). exists d2. split; [done|lia].
  - intros e' [->|He']%elem_of_cons; [|by apply Hrelax2].
    destruct Hrelax1 as (dv & Hdv & ?).
    destruct (Hmono2 _ _ Hdv) as (d2 & Hd2 & ?). exists d2. split; [done|lia].
  - lia.
Qed.

Lemma dijkstra_loop_spec fuel :
  ∀ dist que D,
  dcore dist que D → (∀ u, u ∈ D → relaxed dist u) →
  (length que + pend D g 0 ≤ fuel)%nat →
  ∃ dist' D', dijkstra_loop fuel g dist que = Ok dist' ∧
    dcore dist' [] D' ∧ (∀ u, u ∈ D' → relaxed dist' u).
Proof.
  induction fuel as [|fuel IH]; intros dist que D Hc Hrel Hfuel.
  { destruct que as [|p que]; [|simpl in Hfuel; lia].
    exists dist, D. by rewrite dijkstra_loop_nil. }
  destruct que as [|[w idx] que].
  { exists dist, D. by rewrite dijkstra_loop_nil. }
  rewrite dijkstra_loop_cons.
  destruct (di_que _ _ _ Hc w idx ltac:(left)) as (d & Hd & Hdw & HwINF).
  rewrite (proj2 (vget_Ok _ _ _) Hd). simpl.
  pose proof (di_nodup _ _ _ Hc) as [Hnotin Hnodup]%NoDup_cons.
  pose proof (di_sorted _ _ _ Hc) as Hsorted.
  apply StronglySorted_inv in Hsorted as [Hsorted Hfirst].
  rewrite Forall_forall in Hfirst.
  destruct (Z.ltb_spec d w) as [Hlt|Hge].
  - (* a stale entry *)
    apply (IH dist que D); [|done|simpl in Hfuel; lia].
    constructor; try apply Hc; try done.
    + intros w' v Hin. apply (di_que _ _ _ Hc). by right.
    + intros u w' v Hu Hin. apply (di_done_le _ _ _ Hc u w' v); [done|by right].
    + intros u w' Hu Hin. apply (di_done_stale _ _ _ Hc); [done|by right].
    + intros u du Hu Hdu.
      destruct (di_open _ _ _ Hc u du Hu Hdu) as [?|Hin]; [by left|right].
      apply elem_of_cons in Hin as [[= -> ->]|Hin]; [|done].
      simplify_eq. lia.
  - assert (d = w) as -> by lia.
    assert (idx ∉ D) as HidxD.
    { intros Hin. destruct (di_done_stale _ _ _ Hc idx w Hin ltac:(left)) as (du & ? & ?).
      simplify_eq. lia. }
    assert (idx < length g)%nat as Hidxlt.
    { rewrite <- (di_len _ _ _ Hc). by eapply lookup_lt_Some. }
    destruct (lookup_lt_is_Some_2 g idx Hidxlt) as [es Hes].
    rewrite (proj2 (vget_Ok _ _ _) Hes). simpl.
    assert (dcore dist que (idx :: D)) as Hc'.
    { constructor; try apply Hc; try done.
      - intros w' v Hin. apply (di_que _ _ _ Hc). by right.
      - intros u w' v [->|Hu]%elem_of_cons Hin.
        + exists w. split; [done|]. apply (Hfirst (w', v) Hin).
        + apply (di_done_le _ _ _ Hc u w' v); [done|by right].
      - intros u w' [->|Hu]%elem_of_cons Hin.
        + exists w. split; [done|]. pose proof (Hfirst (w', idx) Hin) as Hle.
          unfold que_le in Hle. simpl in Hle.
          assert (w' ≠ w) by (intros ->; done). lia.
        + apply (di_done_stale _ _ _ Hc); [done|by right].
      - intros u du Hu Hdu. apply not_elem_of_cons in Hu as [Hne Hu].
        destruct (di_open _ _ _ Hc u du Hu Hdu) as [?|Hin]; [by left|right].
        apply elem_of_cons in Hin as [[= -> ->]|Hin]; done.
      - intros u [->|Hu]%elem_of_cons; [done|]. by apply (di_done_lt _ _ _ Hc). }
    assert (∀ u du, u ∈ idx :: D → dist !! u = Some du → du ≤ w) as Hbelow.
    { intros u du [->|Hu]%elem_of_cons Hdu; [simplify_eq; lia|].
      destruct (di_done_le _ _ _ Hc u w idx Hu ltac:(left)) as (du' & ? & ?).
      simplify_eq. lia. }
    assert (∀ e, e ∈ es → has_edge g e ∧ from e = idx) as Hedges.
    { intros e He. split; [by exists idx, es|].
      by apply (proj1 (graph_ok_spec g) Hok idx es e). }
    destruct (dijkstra_edges_spec w idx D es Hedges HwINF dist que Hc' Hrel Hd Hbelow)
      as (dist' & que' & -> & Hc2 & Hrel2 & Hidx2 & _ & Hrelax2 & Hlen2).
    simpl. apply (IH dist' que' (idx :: D)); [done| |].
    + intros u [->|Hu]%elem_of_cons; [|by apply Hrel2].
      intros es' e Hes' He. assert (es' = es) as -> by congruence.
      destruct (Hrelax2 e He) as (dv & Hdv & ?). by exists w, dv.
    + pose proof (pend_done D g 0 idx es HidxD ltac:(lia)) as Hp.
      rewrite Nat.sub_0_r in Hp. specialize (Hp Hes). simpl in Hfuel. lia.
Qed.

Lemma dijkstra_init :
  dcore (<[s:=0]> (replicate (length g) INF)) [(0, s)] [].
Proof.
  assert (∀ v d, <[s:=0]> (replicate (length g) INF) !! v = Some d →
            (v = s ∧ d = 0) ∨ (v ≠ s ∧ d = INF)) as Hlk.
  { intros v d Hv. destruct (decide (v = s)) as [->|Hne].
    - rewrite list_lookup_insert_eq in Hv by (rewrite length_replicate; lia).
      left. by simplify_eq.
    - rewrite list_lookup_insert_ne in Hv by done.
      apply lookup_replicate in Hv as [-> _]. by right. }
  pose proof INF_val as HINF.
  constructor.
  - by rewrite length_insert, length_replicate.
  - apply list_lookup_insert_eq. rewrite length_replicate. lia.
  - intros v d [[-> ->]|[_ ->]]%Hlk; lia.
  - intros v d [[-> ->]|[_ ->]]%Hlk ?; [constructor|lia].
  - intros w v [= -> ->]%list_elem_of_singleton. exists 0. split_and!; [|lia..].
    apply list_lookup_insert_eq. rewrite length_replicate. lia.
  - apply NoDup_singleton.
  - repeat constructor.
  - by intros u w v ?%elem_of_nil.
  - by intros u w ?%elem_of_nil.
  - intros u du _ [[-> ->]|[_ ->]]%Hlk; [right; by left|by left].
  - by intros u ?%elem_of_nil.
Qed.

Lemma dijkstra_final dist D :
  dcore dist [] D → (∀ u, u ∈ D → relaxed dist u) →
  ∀ v W, walk (has_edge g) s v W → ∃ d, dist !! v = Some d ∧ d ≤ W.
Proof.
  intros Hc Hrel v W Hwalk. induction Hwalk as [|e W Hwalk (du & Hdu & Hle) He].
  { exists 0. split; [apply Hc|lia]. }
  destruct (has_edge_ok g e Hok He) as [_ Hto].
  destruct (lookup_lt_is_Some_2 dist (to e)) as [dv Hdv].
  { by rewrite (di_len _ _ _ Hc). }
  exists dv. split; [done|].
  pose proof (Hw e He). pose proof (di_val _ _ _ Hc _ _ Hdv).
  destruct (decide (from e ∈ D)) as [Hin|Hout].
  - destruct (has_edge_at g e Hok He) as (es & Hes & Hees).
    destruct (Hrel _ Hin es e Hes Hees) as (du' & dv' & ? & ? & ?).
    simplify_eq. lia.
  - destruct (di_open _ _ _ Hc _ _ Hout Hdu) as [->|[]%elem_of_nil]. lia.
Qed.

Lemma Dijkstra_run fuel :
  (length (concat g) < fuel)%nat →
  ∃ dist, Dijkstra fuel g s = Ok dist ∧ length dist = length g ∧
    ∀ v, (v < length g)%nat →
      ∃ d, dist !! v = Some d ∧ 0 ≤ d ≤ INF ∧
        (∀ W, walk (has_edge g) s v W → d ≤ W) ∧
        (d < INF → walk (has_edge g) s v d).
Proof.
  intros Hfuel. unfold Dijkstra.
  rewrite vset_lt by (rewrite length_replicate; lia). simpl.
  assert (<[s:=0]> (replicate (length g) INF) !! s = Some 0) as H0.
  { apply list_lookup_insert_eq. rewrite length_replicate. lia. }
  rewrite (proj2 (vget_Ok _ _ _) H0). simpl.
  destruct (dijkstra_loop_spec fuel _ _ [] dijkstra_init) as (dist & D & -> & Hc & Hrel).
  { by intros u ?%elem_of_nil. }
  { rewrite pend_nil. simpl. lia. }
  exists dist. split_and!; [done|apply Hc|].
  intros v Hv. destruct (lookup_lt_is_Some_2 dist v) as [d Hd].
  { by rewrite (di_len _ _ _ Hc). }
  exists d. split_and!; [done|by apply (di_val _ _ _ Hc v)..| |].
  - intros W HW. destruct (dijkstra_final dist D Hc Hrel v W HW) as (d' & ? & ?).
    simplify_eq. lia.
  - by apply (di_walk _ _ _ Hc).
Qed.

End dijkstra.

Lemma has_edge_concat g e : has_edge g e ↔ e ∈ concat g.
Proof.
  rewrite list_elem_of_In, in_concat. setoid_rewrite <- list_elem_of_In. split.
  - intros (i & es & Hi & He). exists es. split; [|done].
    by eapply list_elem_of_lookup_2.
  - intros (es & [i Hi]%list_elem_of_lookup_1 & He). by exists i, es.
Qed.

(** On a well-formed graph whose weights lie between 0 and [INT_MAX - INF],
    with a source that is a vertex and fuel for one round of the loop per edge
    and one more, [Dijkstra] returns: [dist[s]] is 0, every [dist[v]] lies
    between 0 and [INF], no walk from [s] to [v] weighs less than [dist[v]],
    and a [dist[v]] below [INF] is the weight of a walk from [s] to [v].  So
    [dist[v]] is the least weight of a walk when that is below [INF], and
    [INF] when there is no such walk. *)
Theorem Dijkstra_shortest (fuel : nat) (g : list (list Edge)) (s : nat) :
  graph_ok g = true → (s < length g)%nat →
  (∀ e, has_edge g e → 0 ≤ weight e ≤ INT_MAX - INF) →
  (length (concat g) < fuel)%nat →
  ∃ dist, Dijkstra fuel g s = Ok dist ∧ length dist = length g ∧
    ∀ v, (v < length g)%nat →
      ∃ d, dist !! v = Some d ∧ 0 ≤ d ≤ INF ∧
        (∀ W, walk (has_edge g) s v W → d ≤ W) ∧
        (d < INF → walk (has_edge g) s v d).
Proof. intros Hok Hs Hw. by apply Dijkstra_run. Qed.

(** The graph of the documentation's example: edges (0,1,4), (1,2,1) and
    (0,2,7), undirected. *)
Definition roads : list (list Edge) :=
  Eval vm_compute in from_Ok [] (build 3 [und 0 1 4; und 1 2 1; und 0 2 7]).

Example Dijkstra_roads : Dijkstra 7 roads 0 = Ok [0; 4; 5].
Proof. reflexivity. Qed.

Lemma roads_weights e : has_edge roads e → 0 ≤ weight e ≤ INT_MAX - INF.
Proof.
  intros He%has_edge_concat. rewrite INF_val. unfold INT_MAX.
  vm_compute in He.
  repeat (apply elem_of_cons in He as [->|He]; [simpl; lia|]).
  by apply elem_of_nil in He.
Qed.

Lemma Dijkstra_shortest_witness :
  ∃ dist, Dijkstra 7 roads 0 = Ok dist ∧ length dist = length roads ∧
    ∀ v, (v < length roads)%nat →
      ∃ d, dist !! v = Some d ∧ 0 ≤ d ≤ INF ∧
        (∀ W, walk (has_edge roads) 0 v W → d ≤ W) ∧
        (d < INF → walk (has_edge roads) 0 v d).
Proof.
  apply (Dijkstra_shortest 7 roads 0);
    [reflexivity | simpl; lia | apply roads_weights | simpl; lia].
Defined.

(** Under the same conditions the distances [Dijkstra] returns are closed
    under the edges: [dist[to e] ≤ dist[from e] + weight e] for every edge
    [e] of the graph. *)
Theorem Dijkstra_edges_relaxed (fuel : nat) (g : list (list Edge)) (s : nat)
    (dist : list Z) (e : Edge) :
  graph_ok g = true → (s < length g)%nat →
  (∀ e, has_edge g e → 0 ≤ weight e ≤ INT_MAX - INF) →
  (length (concat g) < fuel)%nat →
  Dijkstra fuel g s = Ok dist → has_edge g e →
  ∃ du dv, dist !! from e = Some du ∧ dist !! to e = Some dv ∧
    dv ≤ du + weight e.
Proof.
  intros Hok Hs Hw Hfuel Hrun He.
  destruct (Dijkstra_run g s Hok Hs Hw fuel Hfuel) as (dist' & Hrun' & _ & Hdist).
  assert (dist' = dist) as -> by congruence.
  destruct (has_edge_ok g e Hok He) as [Hfrom Hto].
  destruct (Hdist _ Hfrom) as (du & Hdu & Hdu0 & _ & Hwalk).
  destruct (Hdist _ Hto) as (dv & Hdv & Hdv0 & Hmin & _).
  exists du, dv. split_and!; [done..|].
  pose proof (Hw e He).
  destruct (decide (du < INF)) as [Hlt|Hge]; [|lia].
  apply Hmin. apply walk_snoc; [|done]. by apply Hwalk.
Qed.

Lemma Dijkstra_edges_relaxed_witness :
  ∃ du dv, [0; 4; 5] !! from (mkEdge 1 2 1) = Some du ∧
    [0; 4; 5] !! to (mkEdge 1 2 1) = Some dv ∧ dv ≤ du + weight (mkEdge 1 2 1).
Proof.
  apply (Dijkstra_edges_relaxed 7 roads 0 [0; 4; 5] (mkEdge 1 2 1));
    [reflexivity | simpl; lia | apply roads_weights | simpl; lia | reflexivity |].
  apply has_edge_concat. vm_compute. set_solver.
Defined.

(** ** Walks as lists of edges *)

Lemma walk_trans E u v x W W' :
  walk E u v W → walk E v x W' → walk E u x (W + W').
Proof.
  intros H1 H2. induction H2 as [|e W' H2 IH He].
  - by rewrite Z.add_0_r.
  - rewrite Z.add_assoc. by constructor.
Qed.

Lemma walk_impl (E E' : Edge → Prop) u v W :
  (∀ e, E e → E' e) → walk E u v W → walk E' u v W.
Proof. intros HE. induction 1; constructor; auto. Qed.

(** [es] leads from [u] to [v]. *)
Fixpoint chain (u : nat) (es : list Edge) (v : nat) : Prop :=
  match es with
  | [] => u = v
  | e :: es => from e = u ∧ chain (to e) es v
  end.

Lemma chain_app u es1 x es2 v :
  chain u es1 x → chain x es2 v → chain u (es1 ++ es2) v.
Proof.
  revert u. induction es1 as [|e es1 IH]; intros u; simpl.
  - by intros ->.
  - intros [? ?] ?. split; [done|]. by apply IH.
Qed.

Lemma chain_app_inv u es1 es2 v :
  chain u (es1 ++ es2) v → ∃ x, chain u es1 x ∧ chain x es2 v.
Proof.
  revert u. induction es1 as [|e es1 IH]; intros u; simpl.
  - intros H. by exists u.
  - intros [? (x & ? & ?)%IH]. by exists x.
Qed.

Lemma walk_chain E u v W :
  walk E u v W ↔ ∃ es, chain u es v ∧ Forall E es ∧ total es = W.
Proof.
  split.
  - induction 1 as [|e W Hwalk (es & Hch & HE & Htot) He].
    + by exists [].
    + exists (es ++ [e]). split_and!.
      * by apply (chain_app _ _ (from e)).
      * apply Forall_app. split; [done|]. by constructor.
      * rewrite total_app. simpl. lia.
  - intros (es & Hch & HE & <-). revert u Hch.
    induction HE as [|e es He HE IH]; intros u; simpl.
    + intros <-. constructor.
    + intros [<- Hch].
      replace (weight e + total es) with (0 + weight e + total es) by lia.
      apply (walk_trans _ _ (to e)); [|by apply IH].
      apply walk_snoc; [constructor|done].
Qed.

(** A vertex met on the way cuts the list in two. *)
Lemma chain_split u es v x :
  chain u es v → x ∈ u :: map to es →
  ∃ p q, es = p ++ q ∧ chain u p x ∧ chain x q v.
Proof.
  revert u. induction es as [|e es IH]; intros u Hch Hx.
  - apply list_elem_of_singleton in Hx as ->. by exists [], [].
  - destruct (decide (x = u)) as [->|Hne].
    { by exists [], (e :: es). }
    apply elem_of_cons in Hx as [?|Hx]; [done|].
    destruct Hch as [Hfrom Hch].
    destruct (IH (to e) Hch Hx) as (p & q & -> & Hp & Hq).
    by exists (e :: p), q.
Qed.

(** A list of edges either meets no vertex twice or goes round a cycle. *)
Lemma chain_NoDup_or_cycle u es v :
  chain u es v →
  NoDup (u :: map to es) ∨
  ∃ p c q x, es = p ++ c ++ q ∧ c ≠ [] ∧ chain u p x ∧ chain x c x ∧ chain x q v.
Proof.
  revert u. induction es as [|e es IH]; intros u Hch.
  { left. apply NoDup_singleton. }
  destruct Hch as [Hfrom Hch].
  destruct (IH (to e) Hch) as [Hnd|(p & c & q & x & -> & Hc & Hp & Hcx & Hq)].
  - destruct (decide (u ∈ to e :: map to es)) as [Hu|Hu].
    + right. destruct (chain_split _ _ _ _ Hch Hu) as (p & q & -> & Hp & Hq).
      exists [], (e :: p), q, u. by split_and!.
    + left. by apply NoDup_cons.
  - right. exists (e :: p), c, q, x. by split_and!.
Qed.

Lemma NoDup_below_length (l : list nat) (n : nat) :
  NoDup l → (∀ x, x ∈ l → (x < n)%nat) → (length l ≤ n)%nat.
Proof.
  intros Hnd Hlt. trans (length (seq 0 n)); [|by rewrite length_seq].
  apply submseteq_length, NoDup_submseteq; [done|].
  intros x Hx%Hlt. apply elem_of_seq. lia.
Qed.

(** Cutting cycles out: a list of edges has a cycle of negative weight on
    it, or a list with the same ends that is no heavier and has fewer than
    [n] edges. *)
Lemma chain_shorten (E : Edge → Prop) (n : nat) u v :
  (u < n)%nat → (∀ e, E e → (to e < n)%nat) →
  ∀ es, chain u es v → Forall E es →
  (∃ es', chain u es' v ∧ Forall E es' ∧ (length es' < n)%nat ∧ total es' ≤ total es) ∨
  (∃ x p c, chain u p x ∧ Forall E p ∧ chain x c x ∧ Forall E c ∧ total c < 0).
Proof.
  intros Hu Hto es.
  remember (length es) as k eqn:Hk. revert es Hk.
  induction (lt_wf k) as [k _ IH]. intros es Hk Hch HE.
  destruct (chain_NoDup_or_cycle _ _ _ Hch)
    as [Hnd|(p & c & q & x & -> & Hc & Hp & Hcx & Hq)].
  - left. exists es. split_and!; [done..| |lia].
    apply NoDup_below_length with (n := n) in Hnd.
    + simpl in Hnd. rewrite length_map in Hnd. lia.
    + intros y [->|Hy]%elem_of_cons; [done|].
      apply list_elem_of_fmap in Hy as (e & -> & He).
      apply Hto. by apply (proj1 (Forall_forall _ _) HE).
  - apply Forall_app in HE as [HEp [HEc HEq]%Forall_app].
    destruct (decide (total c < 0)) as [Hneg|Hpos].
    { right. by exists x, p, c. }
    destruct (IH (length (p ++ q))) with (es := p ++ q)
      as [(es' & ? & ? & ? & Hle)|?]; [| done | | |left|by right].
    + rewrite Hk, !length_app. destruct c; [done|simpl; lia].
    + by apply (chain_app _ _ x).
    + by apply Forall_app.
    + exists es'. split_and!; [done..|]. rewrite !total_app in *. lia.
Qed.

Lemma total_bound (E : Edge → Prop) (B : Z) es :
  (∀ e, E e → - B ≤ weight e ≤ B) → Forall E es →
  - (Z.of_nat (length es) * B) ≤ total es ≤ Z.of_nat (length es) * B.
Proof.
  intros HB. induction 1 as [|e es He HE IH]; simpl; [lia|].
  pose proof (HB e He). lia.
Qed.

(** ** Bellman-Ford: shortest walks and negative cycles *)

(** No entry of [dist'] is above that of [dist]. *)
Definition below (dist' dist : list Z) : Prop :=
  ∀ v d, dist !! v = Some d → ∃ d', dist' !! v = Some d' ∧ d' ≤ d.

Lemma below_refl dist : below dist dist.
Proof. intros v d Hv. exists d. split; [done|lia]. Qed.

Lemma below_trans d3 d2 d1 : below d2 d1 → below d3 d2 → below d3 d1.
Proof.
  intros H12 H23 v d Hv. destruct (H12 v d Hv) as (d' & Hv' & ?).
  destruct (H23 v d' Hv') as (d'' & ? & ?). exists d''. split; [done|lia].
Qed.

Lemma bf_check_true edges dist :
  bf_check edges dist = Ok true →
  ∃ e du dv, e ∈ edges ∧ dist !! from e = Some du ∧ du ≠ INF ∧
    dist !! to e = Some dv ∧ add du (weight e) < dv.
Proof.
  induction edges as [|e edges IH]; simpl; [done|].
  destruct (vget dist (from e)) as [du| |] eqn:Hdu; simpl; [|done..].
  apply vget_Ok in Hdu.
  destruct (Z.eqb_spec du INF) as [->|Hne].
  { intros (e' & du' & dv' & ? & ?)%IH. exists e', du', dv'. split; [by right|done]. }
  destruct (vget dist (to e)) as [dv| |] eqn:Hdv; simpl; [|done..].
  apply vget_Ok in Hdv.
  destruct (Z.ltb_spec (add du (weight e)) dv) as [Hlt|Hge].
  - intros _. exists e, du, dv. split_and!; [by left|done..].
  - intros (e' & du' & dv' & ? & ?)%IH. exists e', du', dv'. split; [by right|done].
Qed.

Section bellman_ford.
Variable edges : list Edge.
Variable vertex s : nat.
Variable B : Z.
Hypothesis Hs : (s < vertex)%nat.
Hypothesis Hin : ∀ e, e ∈ edges → (from e < vertex)%nat ∧ (to e < vertex)%nat.
Hypothesis HB : ∀ e, e ∈ edges → - B ≤ weight e ≤ B.
Hypothesis HB0 : 0 ≤ B.
Hypothesis Hbound : B * (Z.of_nat vertex * Z.of_nat (length edges)) < INF.

(** After [c] relaxations every entry other than the sentinel is the weight
    of a walk from the source, of absolute value at most [c * B]. *)
Definition bf_inv (c : Z) (dist : list Z) : Prop :=
  length dist = vertex ∧ (∃ d, dist !! s = Some d ∧ d ≤ 0) ∧
  ∀ v d, dist !! v = Some d →
    d = INF ∨ (walk (.∈ edges) s v d ∧ - (c * B) ≤ d ≤ c * B).

Lemma bf_inv_le_INF c dist v d :
  bf_inv c dist → c * B < INF → dist !! v = Some d → d ≤ INF.
Proof. intros (_ & _ & H) Hc Hv. destruct (H v d Hv) as [->|[_ ?]]; lia. Qed.

Lemma bf_relax_inv c dist e :
  bf_inv c dist → e ∈ edges → 0 ≤ c → (c + 1) * B < INF →
  ∃ dist', bf_relax dist e = Ok dist' ∧ bf_inv (c + 1) dist' ∧ below dist' dist ∧
    ∀ du, dist !! from e = Some du → du ≠ INF →
      ∃ dv, dist' !! to e = Some dv ∧ dv ≤ du + weight e.
Proof.
  intros (Hlen & (d0 & Hd0 & Hd0le) & Hval) He Hc Hc1.
  destruct (Hin e He) as [Hfrom Hto]. pose proof (HB e He) as Hwe.
  assert (∀ v d, dist !! v = Some d →
            d = INF ∨ (walk (.∈ edges) s v d ∧ - ((c + 1) * B) ≤ d ≤ (c + 1) * B)) as Hval'.
  { intros v d Hv. destruct (Hval v d Hv) as [?|[? ?]]; [by left|right].
    split; [done|nia]. }
  unfold bf_relax.
  destruct (vget_lt dist (from e)) as (du & -> & Hdu); [lia|]. simpl.
  destruct (Z.eqb_spec du INF) as [->|Hne].
  { exists dist. split_and!; [done| |apply below_refl|].
    - split_and!; [done|by exists d0|done].
    - intros du' ? ?. congruence. }
  destruct (Hval _ _ Hdu) as [?|[Hwalk Hdub]]; [done|].
  destruct (vget_lt dist (to e)) as (dv & -> & Hdv); [lia|]. simpl.
  assert (add du (weight e) = du + weight e) as ->.
  { apply add_small. pose proof INF_val. unfold INT_MIN, INT_MAX. nia. }
  rewrite vset_lt by lia.
  set (new := Z.min dv (du + weight e)).
  assert (∀ v d, <[to e:=new]> dist !! v = Some d →
            (v = to e ∧ d = new) ∨ (v ≠ to e ∧ dist !! v = Some d)) as Hlk.
  { intros v d Hv. destruct (decide (v = to e)) as [->|Hv'].
    - rewrite list_lookup_insert_eq in Hv by lia. left. by simplify_eq.
    - rewrite list_lookup_insert_ne in Hv by done. by right. }
  exists (<[to e:=new]> dist). split_and!; [done| | |].
  - split_and!.
    + by rewrite length_insert.
    + destruct (decide (s = to e)) as [Heq|Hne'].
      * exists new. rewrite Heq, list_lookup_insert_eq by lia. split; [done|].
        rewrite Heq in Hd0. unfold new. simplify_eq. lia.
      * exists d0. by rewrite list_lookup_insert_ne.
    + intros v d [[-> ->]|[_ Hv]]%Hlk; [|by apply Hval'].
      unfold new. destruct (Z.min_spec dv (du + weight e)) as [[_ ->]|[_ ->]].
      * by apply Hval'.
      * right. split; [by apply walk_snoc|nia].
  - intros v d Hv. destruct (decide (v = to e)) as [->|Hv'].
    + exists new. rewrite list_lookup_insert_eq by lia. split; [done|].
      unfold new. simplify_eq. lia.
    + exists d. rewrite list_lookup_insert_ne by done. split; [done|lia].
  - intros du' ? _. exists new. rewrite list_lookup_insert_eq by lia.
    split; [done|]. unfold new. simplify_eq. lia.
Qed.

Lemma bf_relax_list l :
  ∀ c dist, (∀ e, e ∈ l → e ∈ edges) → bf_inv c dist → 0 ≤ c →
  (c + Z.of_nat (length l)) * B < INF →
  ∃ dist', foldM bf_relax l dist = Ok dist' ∧
    bf_inv (c + Z.of_nat (length l)) dist' ∧ below dist' dist ∧
    ∀ e du, e ∈ l → dist !! from e = Some du → du ≠ INF →
      ∃ dv, dist' !! to e = Some dv ∧ dv ≤ du + weight e.
Proof.
  induction l as [|e l IH]; intros c dist Hl Hinv Hc Hc1; cbn [foldM].
  { exists dist. replace (c + Z.of_nat (length (@nil Edge))) with c by (simpl; lia).
    split_and!; [done|done|apply below_refl|].
    by intros e du ?%elem_of_nil. }
  rewrite length_cons, Nat2Z.inj_succ in *.
  destruct (bf_relax_inv c dist e Hinv) as (dist1 & -> & Hinv1 & Hbel1 & Hrel1);
    [apply Hl; by left|done|nia|].
  simpl.
  destruct (IH (c + 1) dist1) as (dist2 & -> & Hinv2 & Hbel2 & Hrel2);
    [intros; apply Hl; by right|done|lia| |].
  { replace (c + 1 + Z.of_nat (length l)) with (c + Z.succ (Z.of_nat (length l))) by lia.
    done. }
  exists dist2. split_and!; [done| |by eapply below_trans|].
  { replace (c + Z.succ (Z.of_nat (length l))) with (c + 1 + Z.of_nat (length l)) by lia.
    done. }
  intros e' du [->|He']%elem_of_cons Hdu Hne.
  - destruct (Hrel1 du Hdu Hne) as (dv & Hdv & ?).
    destruct (Hbel2 _ _ Hdv) as (dv' & ? & ?). exists dv'. split; [done|lia].
  - destruct (Hbel1 _ _ Hdu) as (du1 & Hdu1 & ?).
    assert (du ≤ INF) by (apply (bf_inv_le_INF c dist (from e') du); [done|nia|done]).
    destruct (Hrel2 e' du1 He' Hdu1 ltac:(lia)) as (dv & ? & ?).
    exists dv. split; [done|lia].
Qed.

(** After [k] rounds no entry is above the weight of a list of at most [k]
    edges that leads to it from the source. *)
Definition bf_short (k : nat) (dist : list Z) : Prop :=
  ∀ es v, chain s es v → Forall (.∈ edges) es → (length es ≤ k)%nat →
    ∃ d, dist !! v = Some d ∧ d ≤ total es.

Lemma bf_round k dist :
  (k < vertex - 1)%nat →
  bf_inv (Z.of_nat k * Z.of_nat (length edges)) dist → bf_short k dist →
  ∃ dist', foldM bf_relax edges dist = Ok dist' ∧
    bf_inv (Z.of_nat (S k) * Z.of_nat (length edges)) dist' ∧ bf_short (S k) dist'.
Proof.
  intros Hk Hinv Hshort.
  set (m := Z.of_nat (length edges)) in *.
  assert (0 ≤ m) by (unfold m; lia).
  assert ((Z.of_nat k * m + m) * B < INF) as Hc1.
  { eapply Z.le_lt_trans; [|exact Hbound]. fold m. nia. }
  destruct (bf_relax_list edges (Z.of_nat k * m) dist) as (dist' & Hrun & Hinv' & Hbel & Hrel);
    [done|done|nia|done|].
  exists dist'. split_and!; [done| |].
  { replace (Z.of_nat (S k) * m) with (Z.of_nat k * m + m) by lia. done. }
  intros es v Hch HE Hlen.
  destruct es as [|e es _] using rev_ind.
  { simpl in Hch. subst v. destruct Hinv' as (_ & (d & ? & ?) & _).
    exists d. split; [done|]. simpl. lia. }
  apply chain_app_inv in Hch as (x & Hch & [Hx <-]).
  apply Forall_app in HE as [HE [He _]%Forall_cons].
  rewrite length_app in Hlen. simpl in Hlen.
  destruct (Hshort es x Hch HE ltac:(lia)) as (du & Hdu & Hdule).
  pose proof (total_bound (.∈ edges) B es HB HE) as Htot.
  assert (du ≠ INF) as Hne.
  { assert (Z.of_nat (length es) * B ≤ B * (Z.of_nat vertex * m)); [|lia].
    destruct edges as [|e0 edges0]; [by apply elem_of_nil in He|].
    unfold m. rewrite length_cons. nia. }
  rewrite <- Hx in Hdu.
  destruct (Hrel e du He Hdu Hne) as (dv & ? & ?).
  exists dv. split; [done|]. rewrite total_app. simpl. lia.
Qed.

Lemma bf_rounds :
  ∃ dist,
    for_range (vertex - 1) (λ _ dist, foldM bf_relax edges dist)
      (<[s:=0]> (replicate vertex INF)) = Ok dist ∧
    bf_inv (Z.of_nat (vertex - 1) * Z.of_nat (length edges)) dist ∧
    bf_short (vertex - 1) dist.
Proof.
  apply (for_range_inv
    (λ k dist, bf_inv (Z.of_nat k * Z.of_nat (length edges)) dist ∧ bf_short k dist)).
  - assert (<[s:=0]> (replicate vertex INF) !! s = Some 0) as H0.
    { apply list_lookup_insert_eq. by rewrite length_replicate. }
    split.
    + split_and!.
      * by rewrite length_insert, length_replicate.
      * by exists 0.
      * intros v d Hv. destruct (decide (v = s)) as [->|Hne].
        -- right. assert (d = 0) as -> by congruence. split; [constructor|lia].
        -- rewrite list_lookup_insert_ne in Hv by done.
           apply lookup_replicate in Hv as [-> _]. by left.
    + intros es v Hch _ Hlen. destruct es; [|simpl in Hlen; lia].
      simpl in Hch. subst v. exists 0. by split.
  - intros k dist Hk [Hinv Hshort].
    destruct (bf_round k dist Hk Hinv Hshort) as (dist' & ? & ? & ?). by exists dist'.
Qed.

(** What the run of [BellmanFord] comes to. *)
Lemma BellmanFord_run :
  ∃ dist (b : bool),
    BellmanFord edges vertex s = Ok (if b then [] else dist) ∧
    bf_inv (Z.of_nat (vertex - 1) * Z.of_nat (length edges)) dist ∧
    bf_short (vertex - 1) dist ∧
    bf_check edges dist = Ok b.
Proof.
  destruct bf_rounds as (dist & Hrun & Hinv & Hshort).
  destruct (bf_check_spec vertex edges dist) as (b & Hb & _); [apply Hinv|done|].
  exists dist, b. split_and!; [|done..].
  unfold BellmanFord. rewrite vset_lt by (by rewrite length_replicate). simpl.
  rewrite Hrun. simpl. rewrite Hb. simpl. by destruct b.
Qed.

(** Where no edge can be relaxed the entries are the least weights. *)
Lemma bf_fixed dist :
  bf_inv (Z.of_nat (vertex - 1) * Z.of_nat (length edges)) dist →
  bf_check edges dist = Ok false →
  ∀ v W, walk (.∈ edges) s v W → ∃ d, dist !! v = Some d ∧ d ≠ INF ∧ d ≤ W.
Proof.
  intros Hinv Hb.
  destruct (bf_check_spec vertex edges dist) as (b & Hb' & Hfix); [apply Hinv|done|].
  assert (b = false) as -> by congruence. specialize (Hfix eq_refl).
  intros v W Hwalk. induction Hwalk as [|e W Hwalk (du & Hdu & Hne & Hle) He].
  { destruct Hinv as (_ & (d & ? & ?) & _). exists d. pose proof INF_val.
    split_and!; [done|lia|done]. }
  destruct (Hin e He) as [_ Hto]. pose proof (HB e He).
  destruct (lookup_lt_is_Some_2 dist (to e)) as [dv Hdv].
  { destruct Hinv as (-> & _). done. }
  pose proof (Hfix e du dv He Hdu Hne Hdv) as Hrel.
  destruct Hinv as (_ & _ & Hval).
  destruct (Hval _ _ Hdu) as [?|[_ Hdub]]; [done|].
  set (m := Z.of_nat (length edges)) in *.
  assert (Z.of_nat (vertex - 1) * m * B + B ≤ B * (Z.of_nat vertex * m)) as Hb1.
  { destruct edges as [|e0 edges0]; [by apply elem_of_nil in He|].
    unfold m. rewrite length_cons. nia. }
  rewrite add_small in Hrel by (pose proof INF_val; unfold INT_MIN, INT_MAX; lia).
  exists dv. split_and!; [done|lia|lia].
Qed.

Lemma bf_exact dist :
  bf_inv (Z.of_nat (vertex - 1) * Z.of_nat (length edges)) dist →
  bf_check edges dist = Ok false →
  ∀ v, (v < vertex)%nat →
    ∃ d, dist !! v = Some d ∧
      ((d = INF ∧ ∀ W, ¬ walk (.∈ edges) s v W) ∨
       (d < INF ∧ walk (.∈ edges) s v d ∧ ∀ W, walk (.∈ edges) s v W → d ≤ W)).
Proof.
  intros Hinv Hb v Hv. pose proof (bf_fixed dist Hinv Hb) as Hfix.
  destruct (lookup_lt_is_Some_2 dist v) as [d Hd].
  { destruct Hinv as (-> & _). done. }
  exists d. split; [done|].
  destruct Hinv as (_ & _ & Hval). destruct (Hval v d Hd) as [->|[Hwalk Hdb]].
  - left. split; [done|]. intros W (d' & ? & ? & _)%Hfix. congruence.
  - right. destruct (Hfix v d Hwalk) as (d' & ? & ? & ?).
    assert (d' = d) as -> by congruence.
    assert (d < INF).
    { destruct (decide (0 ≤ d)); [|pose proof INF_val; lia].
      assert (Z.of_nat (vertex - 1) * Z.of_nat (length edges) * B
                ≤ B * (Z.of_nat vertex * Z.of_nat (length edges))) by nia.
      lia. }
    split_and!; [done..|]. intros W (d' & ? & _ & ?)%Hfix. simplify_eq. lia.
Qed.

Lemma bf_no_negative_cycle dist :
  bf_inv (Z.of_nat (vertex - 1) * Z.of_nat (length edges)) dist →
  bf_check edges dist = Ok false →
  ∀ u W c, walk (.∈ edges) s u W → walk (.∈ edges) u u c → 0 ≤ c.
Proof.
  intros Hinv Hb u W c Hwalk Hcyc.
  pose proof (bf_fixed dist Hinv Hb) as Hfix.
  destruct (decide (0 ≤ c)) as [|Hneg]; [done|exfalso].
  assert (∀ n : nat, walk (.∈ edges) u u (Z.of_nat n * c)) as Hiter.
  { induction n as [|n IH]; [constructor|].
    replace (Z.of_nat (S n) * c) with (Z.of_nat n * c + c) by lia.
    by apply (walk_trans _ _ u). }
  destruct (Hfix u W Hwalk) as (d & Hd & Hne & Hle).
  destruct Hinv as (_ & _ & Hval). destruct (Hval u d Hd) as [?|[_ Hdb]]; [done|].
  set (M := Z.of_nat (vertex - 1) * Z.of_nat (length edges) * B) in *.
  destruct (Hfix u (W + Z.of_nat (Z.to_nat (W + M + 1)) * c)) as (d' & ? & _ & ?).
  { apply (walk_trans _ _ u); [done|apply Hiter]. }
  simplify_eq. rewrite Z2Nat.id in * by lia. nia.
Qed.

Lemma bf_negative_cycle dist :
  bf_inv (Z.of_nat (vertex - 1) * Z.of_nat (length edges)) dist →
  bf_short (vertex - 1) dist →
  bf_check edges dist = Ok true →
  ∃ u W c, walk (.∈ edges) s u W ∧ walk (.∈ edges) u u c ∧ c < 0.
Proof.
  intros Hinv Hshort (e & du & dv & He & Hdu & Hne & Hdv & Hlt)%bf_check_true.
  pose proof (HB e He) as Hwe.
  destruct Hinv as (_ & _ & Hval).
  destruct (Hval _ _ Hdu) as [?|[Hwalk Hdub]]; [done|].
  assert (Z.of_nat (vertex - 1) * Z.of_nat (length edges) * B + B
            ≤ B * (Z.of_nat vertex * Z.of_nat (length edges))) as Hb1.
  { destruct edges as [|e0 edges0]; [by apply elem_of_nil in He|].
    rewrite length_cons. nia. }
  rewrite add_small in Hlt by (pose proof INF_val; unfold INT_MIN, INT_MAX; lia).
  assert (walk (.∈ edges) s (to e) (du + weight e)) as Hwalk' by (by apply walk_snoc).
  apply walk_chain in Hwalk' as (es & Hch & HE & Htot).
  destruct (chain_shorten (.∈ edges) vertex s (to e) Hs) with (es := es)
    as [(es' & Hch' & HE' & Hlen & Hle)|(x & p & c & Hp & HEp & Hc & HEc & Hneg)];
    [intros e' He'; by apply Hin|done|done| |].
  - destruct (Hshort es' (to e) Hch' HE' ltac:(lia)) as (d & ? & ?).
    simplify_eq. lia.
  - exists x, (total p), (total c). split_and!; [| |done].
    + apply walk_chain. by exists p.
    + apply walk_chain. by exists c.
Qed.

End bellman_ford.

(** With the source and the ends of every edge below [vertex] and weights so
    small that the relaxations cannot overflow ([B] bounds their absolute
    values, and [B * vertex * |edges|] is below the sentinel), a vector that
    [BellmanFord] returns, unless it is the empty one, has an entry per
    vertex: the sentinel for a vertex no walk leads to from the source, and
    for any other vertex the least weight of such a walk. *)
Theorem BellmanFord_shortest (edges : list Edge) (vertex s : nat) (B : Z) (r : list Z) :
  (s < vertex)%nat →
  (∀ e, e ∈ edges → (from e < vertex)%nat ∧ (to e < vertex)%nat) →
  (∀ e, e ∈ edges → - B ≤ weight e ≤ B) → 0 ≤ B →
  B * (Z.of_nat vertex * Z.of_nat (length edges)) < INF →
  BellmanFord edges vertex s = Ok r → r ≠ [] →
  length r = vertex ∧
  ∀ v, (v < vertex)%nat →
    ∃ d, r !! v = Some d ∧
      ((d = INF ∧ ∀ W, ¬ walk (.∈ edges) s v W) ∨
       (d < INF ∧ walk (.∈ edges) s v d ∧ ∀ W, walk (.∈ edges) s v W → d ≤ W)).
Proof.
  intros Hs Hin HB HB0 Hbound Hrun Hr.
  destruct (BellmanFord_run edges vertex s B Hs Hin HB HB0 Hbound)
    as (dist & b & Hrun' & Hinv & _ & Hb).
  rewrite Hrun in Hrun'. injection Hrun' as ->.
  destruct b; [done|]. split; [apply Hinv|].
  by apply (bf_exact edges vertex s B).
Qed.

(** The edges of the documentation's example with a cycle of weight -1, and
    the same with the cycle made harmless. *)
Definition spiral : list Edge := [mkEdge 0 1 1; mkEdge 1 2 (-3); mkEdge 2 0 1].
Definition detour : list Edge := [mkEdge 0 1 1; mkEdge 1 2 (-3); mkEdge 2 0 5].

Example BellmanFord_spiral : BellmanFord spiral 3 0 = Ok [].
Proof. reflexivity. Qed.

Example BellmanFord_detour : BellmanFord detour 3 0 = Ok [0; 1; -2].
Proof. reflexivity. Qed.

Lemma in_detour e :
  e ∈ detour → ((from e < 3)%nat ∧ (to e < 3)%nat) ∧ - 5 ≤ weight e ≤ 5.
Proof.
  unfold detour. intros He.
  repeat (apply elem_of_cons in He as [->|He]; [simpl; lia|]).
  by apply elem_of_nil in He.
Qed.

Lemma in_spiral e :
  e ∈ spiral → ((from e < 3)%nat ∧ (to e < 3)%nat) ∧ - 3 ≤ weight e ≤ 3.
Proof.
  unfold spiral. intros He.
  repeat (apply elem_of_cons in He as [->|He]; [simpl; lia|]).
  by apply elem_of_nil in He.
Qed.

Lemma BellmanFord_shortest_witness :
  length [0; 1; -2] = 3%nat ∧
  ∀ v, (v < 3)%nat →
    ∃ d, [0; 1; -2] !! v = Some d ∧
      ((d = INF ∧ ∀ W, ¬ walk (.∈ detour) 0 v W) ∨
       (d < INF ∧ walk (.∈ detour) 0 v d ∧ ∀ W, walk (.∈ detour) 0 v W → d ≤ W)).
Proof.
  apply (BellmanFord_shortest detour 3 0 5 [0; 1; -2]);
    [lia | apply in_detour | apply in_detour | lia | reflexivity | reflexivity | done].
Defined.

(** Under the same conditions [BellmanFord] returns the empty vector exactly
    when there is a cycle of negative weight on a walk from the source. *)
Theorem BellmanFord_empty_iff_negative_cycle (edges : list Edge) (vertex s : nat) (B : Z) :
  (s < vertex)%nat →
  (∀ e, e ∈ edges → (from e < vertex)%nat ∧ (to e < vertex)%nat) →
  (∀ e, e ∈ edges → - B ≤ weight e ≤ B) → 0 ≤ B →
  B * (Z.of_nat vertex * Z.of_nat (length edges)) < INF →
  BellmanFord edges vertex s = Ok [] ↔
  ∃ u W c, walk (.∈ edges) s u W ∧ walk (.∈ edges) u u c ∧ c < 0.
Proof.
  intros Hs Hin HB HB0 Hbound.
  destruct (BellmanFord_run edges vertex s B Hs Hin HB HB0 Hbound)
    as (dist & b & -> & Hinv & Hshort & Hb).
  assert (dist ≠ []) as Hne.
  { intros ->. destruct Hinv as (Hlen & _). simpl in Hlen. lia. }
  destruct b.
  - split; [intros _|done]. by apply (bf_negative_cycle edges vertex s B) with dist.
  - split; [intros [=]; done|]. intros (u & W & c & Hwalk & Hcyc & Hneg).
    pose proof (bf_no_negative_cycle edges vertex s B Hs Hin HB HB0 Hbound
                  dist Hinv Hb u W c Hwalk Hcyc). lia.
Qed.

Lemma BellmanFord_empty_iff_negative_cycle_witness :
  BellmanFord spiral 3 0 = Ok [] ↔
  ∃ u W c, walk (.∈ spiral) 0 u W ∧ walk (.∈ spiral) u u c ∧ c < 0.
Proof.
  apply (BellmanFord_empty_iff_negative_cycle spiral 3 0 3);
    [lia | apply in_spiral | apply in_spiral | lia | reflexivity].
Defined.

Lemma walk_nonneg (E : Edge → Prop) u v W :
  (∀ e, E e → 0 ≤ weight e) → walk E u v W → 0 ≤ W.
Proof.
  intros HE. induction 1 as [|e W _ IH He]; [lia|]. pose proof (HE e He). lia.
Qed.

(** On a well-formed graph with weights that are not negative and small
    enough for [BellmanFord] ([B] bounds them, and [B * |g| * |edges|] is
    below the sentinel), [BellmanFord] on a list of the graph's edges and
    [Dijkstra] on the graph return the same vector. *)
Theorem BellmanFord_agrees_with_Dijkstra
    (g : list (list Edge)) (edges : list Edge) (s : nat) (B : Z) (fuel : nat) :
  graph_ok g = true → (s < length g)%nat →
  (∀ e, e ∈ edges ↔ has_edge g e) →
  (∀ e, has_edge g e → 0 ≤ weight e ≤ B) → 0 ≤ B →
  B * (Z.of_nat (length g) * Z.of_nat (length edges)) < INF →
  (length (concat g) < fuel)%nat →
  BellmanFord edges (length g) s = Dijkstra fuel g s.
Proof.
  intros Hok Hs Hedges Hw HB0 Hbound Hfuel.
  assert (∀ e, has_edge g e → 0 ≤ weight e ≤ INT_MAX - INF) as Hw'.
  { intros e He. pose proof (Hw e He). apply Hedges in He.
    destruct edges as [|e0 edges0]; [by apply elem_of_nil in He|].
    rewrite length_cons in Hbound. pose proof INF_val. unfold INT_MAX. nia. }
  assert (∀ e, e ∈ edges → (from e < length g)%nat ∧ (to e < length g)%nat) as Hin.
  { intros e He%Hedges. by apply has_edge_ok. }
  assert (∀ e, e ∈ edges → - B ≤ weight e ≤ B) as HB.
  { intros e He%Hedges%Hw. lia. }
  assert (∀ u v W, walk (.∈ edges) u v W ↔ walk (has_edge g) u v W) as Hwalk.
  { intros u v W. split; apply walk_impl; intros e; apply Hedges. }
  destruct (Dijkstra_run g s Hok Hs Hw' fuel Hfuel) as (dist1 & -> & Hlen1 & Hdist1).
  destruct (BellmanFord_run edges (length g) s B Hs Hin HB HB0 Hbound)
    as (dist2 & b & -> & Hinv & Hshort & Hb).
  destruct b.
  { destruct (bf_negative_cycle edges (length g) s B Hs Hin HB HB0 Hbound
                dist2 Hinv Hshort Hb) as (u & W & c & _ & Hcyc & Hneg).
    apply walk_nonneg in Hcyc; [lia|]. intros e He%Hedges%Hw. lia. }
  f_equal. apply list_eq. intros v.
  destruct (decide (v < length g)%nat) as [Hv|Hv].
  - destruct (Hdist1 v Hv) as (d1 & -> & Hd1 & Hmin1 & Hwalk1).
    destruct (bf_exact edges (length g) s B Hs Hin HB HB0 Hbound dist2 Hinv Hb v Hv)
      as (d2 & -> & [[-> Hno]|(Hlt & Hwalk2 & Hmin2)]); f_equal.
    + destruct (decide (d1 < INF)) as [Hlt|?]; [|lia].
      destruct (Hno d1). by apply Hwalk, Hwalk1.
    + pose proof (Hmin1 d2 (proj1 (Hwalk _ _ _) Hwalk2)).
      pose proof (Hmin2 d1 (proj2 (Hwalk _ _ _) (Hwalk1 ltac:(lia)))). lia.
  - destruct Hinv as (Hlen2 & _).
    rewrite !lookup_ge_None_2 by lia. done.
Qed.

Lemma roads_weights_7 e : has_edge roads e → 0 ≤ weight e ≤ 7.
Proof.
  intros He%has_edge_concat. vm_compute in He.
  repeat (apply elem_of_cons in He as [->|He]; [simpl; lia|]).
  by apply elem_of_nil in He.
Qed.

Lemma BellmanFord_agrees_with_Dijkstra_witness :
  BellmanFord (concat roads) (length roads) 0 = Dijkstra 7 roads 0.
Proof.
  apply (BellmanFord_agrees_with_Dijkstra roads (concat roads) 0 7 7);
    [reflexivity | simpl; lia | intros e; symmetry; apply has_edge_concat
    | apply roads_weights_7 | lia | reflexivity | simpl; lia].
Defined.

(** ** Warshall-Floyd: least weights *)

(** A walk of at least one edge from [i] to [j] that passes, between its
    ends, only through vertices below [k]. *)
Inductive path (E : Edge → Prop) (k : nat) : nat → nat → Z → Prop :=
| path_edge e : E e → path E k (from e) (to e) (weight e)
| path_cons e j W :
    E e → (to e < k)%nat → path E k (to e) j W → path E k (from e) j (weight e + W).

Lemma path_mono E k k' i j W : (k ≤ k')%nat → path E k i j W → path E k' i j W.
Proof.
  intros Hk. induction 1 as [e He|e j W He Hto _ IH].
  - by apply path_edge.
  - apply path_cons; [done|lia|done].
Qed.

Lemma path_app E k i m j W1 W2 :
  path E k i m W1 → (m < k)%nat → path E k m j W2 → path E k i j (W1 + W2).
Proof.
  intros H1 Hm H2. induction H1 as [e He|e m W He Hto _ IH].
  - by apply path_cons.
  - rewrite <- Z.add_assoc. apply path_cons; [done..|]. by apply IH.
Qed.

Lemma path_nonneg E k i j W :
  (∀ e, E e → 0 ≤ weight e) → path E k i j W → 0 ≤ W.
Proof.
  intros HE. induction 1 as [e He|e j W He _ _ IH]; pose proof (HE e He); lia.
Qed.

(** The recurrence of the algorithm: a walk through vertices up to [k]
    avoids [k], or goes to [k] and from [k] on without it. *)
Lemma path_split E k i j W :
  (∀ e, E e → 0 ≤ weight e) →
  path E (S k) i j W →
  path E k i j W ∨
  ∃ W1 W3, path E k i k W1 ∧ path E k k j W3 ∧ W1 + W3 ≤ W.
Proof.
  intros HE. induction 1 as [e He|e j W He Hto Hrest IH].
  { left. by apply path_edge. }
  pose proof (HE e He) as Hwe.
  destruct (decide (to e = k)) as [Heq|Hne].
  - right. exists (weight e).
    destruct IH as [Hp|(W1 & W3 & Hp1 & Hp3 & Hle)].
    + exists W. rewrite Heq in Hp. split_and!; [|done|lia].
      rewrite <- Heq at 2. by apply path_edge.
    + exists W3. pose proof (path_nonneg _ _ _ _ _ HE Hp1). split_and!; [|done|lia].
      rewrite <- Heq at 2. by apply path_edge.
  - assert (to e < k)%nat as Hlt by lia.
    destruct IH as [Hp|(W1 & W3 & Hp1 & Hp3 & Hle)].
    + left. by apply path_cons.
    + right. exists (weight e + W1), W3. split_and!; [|done|lia].
      by apply path_cons.
Qed.

Lemma path_walk E k i j W : path E k i j W → walk E i j W.
Proof.
  induction 1 as [e He|e j W He _ _ IH].
  - replace (weight e) with (0 + weight e) by lia. apply walk_snoc; [constructor|done].
  - apply (walk_trans _ _ (to e)); [|done].
    replace (weight e) with (0 + weight e) by lia. apply walk_snoc; [constructor|done].
Qed.

Lemma chain_path E n i es j :
  (∀ e, E e → (to e < n)%nat) → es ≠ [] → chain i es j → Forall E es →
  path E n i j (total es).
Proof.
  intros Hto. revert i. induction es as [|e es IH]; intros i Hne Hch HE; [done|].
  destruct Hch as [<- Hch]. apply Forall_cons in HE as [He HE].
  destruct es as [|e' es].
  - simpl in *. subst j. rewrite Z.add_0_r. by apply path_edge.
  - change (total (e :: e' :: es)) with (weight e + total (e' :: es)).
    apply path_cons; [done|by apply Hto|]. by apply IH.
Qed.

(** Walks from [i] to [j] through vertices below [k], the empty one among
    them. *)
Definition via (E : Edge → Prop) (k i j : nat) (W : Z) : Prop :=
  (i = j ∧ W = 0) ∨ path E k i j W.

Lemma via_walk E n i j W :
  (∀ e, E e → (to e < n)%nat) → via E n i j W ↔ walk E i j W.
Proof.
  intros Hto. split.
  - intros [[-> ->]|Hp]; [constructor|by eapply path_walk].
  - intros (es & Hch & HE & <-)%walk_chain. destruct es as [|e es].
    + left. by split.
    + right. by apply chain_path.
Qed.

(** [D] holds, for every pair, the least weight of the walks [C] if that is
    below the sentinel, and the sentinel otherwise. *)
Definition exact (n : nat) (C : nat → nat → Z → Prop) (D : list (list Z)) : Prop :=
  square n D ∧
  ∀ i j, (i < n)%nat → (j < n)%nat →
    0 ≤ mat D i j ≤ INF ∧ (∀ W, C i j W → mat D i j ≤ W) ∧
    (mat D i j < INF → C i j (mat D i j)).

Lemma exact_equiv n (C C' : nat → nat → Z → Prop) D :
  (∀ i j W, C i j W → C' i j W) →
  (∀ i j W, C' i j W → ∃ W', C i j W' ∧ W' ≤ W) →
  exact n C D → exact n C' D.
Proof.
  intros H1 H2 [Hsq HD]. split; [done|]. intros i j Hi Hj.
  destruct (HD i j Hi Hj) as (Hr & Hmin & Hatt). split; [done|]. split; [|by auto].
  intros W (W' & HW' & ?)%H2. specialize (Hmin W' HW'). lia.
Qed.

Lemma exact_unique n C D D' : exact n C D → exact n C D' → D = D'.
Proof.
  intros [Hsq HD] [Hsq' HD']. apply (square_ext n); [done..|].
  intros i j Hi Hj.
  destruct (HD i j Hi Hj) as (Hr & Hmin & Hatt).
  destruct (HD' i j Hi Hj) as (Hr' & Hmin' & Hatt').
  destruct (decide (mat D i j < INF)) as [Hlt|Hge].
  - pose proof (Hmin' _ (Hatt Hlt)).
    assert (mat D' i j < INF) as Hlt' by lia.
    pose proof (Hmin _ (Hatt' Hlt')). lia.
  - destruct (decide (mat D' i j < INF)) as [Hlt'|Hge']; [|lia].
    pose proof (Hmin _ (Hatt' Hlt')). lia.
Qed.

(** The walks of [C], and those that go to [k] by one of them and on by
    another. *)
Definition through (k : nat) (C : nat → nat → Z → Prop) (i j : nat) (W : Z) : Prop :=
  C i j W ∨ ∃ W1 W2, C i k W1 ∧ C k j W2 ∧ W = W1 + W2.

Lemma pass_cell_plain M k i j :
  mat M k k = 0 → 0 ≤ mat M i k ≤ INF → 0 ≤ mat M k j ≤ INF →
  pass_cell M k i j = upd (mat M i j) (mat M i k) (mat M k j).
Proof.
  intros Hkk Hik Hkj. pose proof INF_val as HINF.
  assert (pass_kk M k = 0) as Hpkk.
  { unfold pass_kk. rewrite Hkk. reflexivity. }
  assert (∀ x, 0 ≤ x ≤ INF → upd x x 0 = x) as Hx0.
  { intros x Hx. unfold upd. destruct (negb _ && negb _); [|done].
    rewrite add_small by (unfold INT_MIN, INT_MAX; lia). lia. }
  assert (∀ x, 0 ≤ x ≤ INF → upd x 0 x = x) as H0x.
  { intros x Hx. rewrite upd_comm. by apply Hx0. }
  assert (pass_col M k i = mat M i k) as Hcol.
  { unfold pass_col. rewrite Hpkk, Hkk. destruct (k <? i)%nat; by apply Hx0. }
  assert (pass_row M k j = mat M k j) as Hrow.
  { unfold pass_row. rewrite Hpkk, Hkk. destruct (k <? j)%nat; by apply H0x. }
  rewrite pass_cell_unfold, Hcol, Hrow.
  by destruct (k <? j)%nat, (k <? i)%nat.
Qed.

(** One pass of the outermost loop adds the walks through [k]. *)
Lemma wf_pass_exact n (C : nat → nat → Z → Prop) D k :
  (k < n)%nat → exact n C D → C k k 0 → (∀ i j W, C i j W → 0 ≤ W) →
  ∃ D', wf_pass n k D = Ok D' ∧ exact n (through k C) D'.
Proof.
  intros Hk [Hsq HD] Hkk Hpos. pose proof INF_val as HINF.
  destruct (wf_pass_spec D k n Hsq Hk) as (D' & Hrun & Hsq' & HD').
  exists D'. split; [done|]. split; [done|]. intros i j Hi Hj.
  assert (mat D k k = 0) as Hkk0.
  { destruct (HD k k Hk Hk) as (? & Hmin & _). specialize (Hmin 0 Hkk). lia. }
  destruct (HD i j Hi Hj) as (Hx & Hxmin & Hxatt).
  destruct (HD i k Hi Hk) as (Hy & Hymin & Hyatt).
  destruct (HD k j Hk Hj) as (Hz & Hzmin & Hzatt).
  rewrite (HD' i j Hi Hj), pass_cell_plain by done.
  set (x := mat D i j) in *. set (y := mat D i k) in *. set (z := mat D k j) in *.
  unfold upd.
  destruct (Z.eqb_spec y INF) as [Hy'|Hy']; simpl.
  { split; [done|]. split; [|by left; auto].
    intros W [HW|(W1 & W2 & HW1 & HW2 & ->)]; [by apply Hxmin|].
    specialize (Hymin _ HW1). specialize (Hpos _ _ _ HW2). lia. }
  destruct (Z.eqb_spec z INF) as [Hz'|Hz']; simpl.
  { split; [done|]. split; [|by left; auto].
    intros W [HW|(W1 & W2 & HW1 & HW2 & ->)]; [by apply Hxmin|].
    specialize (Hzmin _ HW2). specialize (Hpos _ _ _ HW1). lia. }
  rewrite add_small by (unfold INT_MIN, INT_MAX; lia).
  split; [lia|]. split.
  - intros W [HW|(W1 & W2 & HW1 & HW2 & ->)].
    + specialize (Hxmin _ HW). lia.
    + specialize (Hymin _ HW1). specialize (Hzmin _ HW2). lia.
  - intros Hlt. destruct (Z.min_spec x (y + z)) as [[_ Heq]|[_ Heq]]; rewrite Heq in *.
    + left. by apply Hxatt.
    + right. exists y, z. split_and!; [apply Hyatt; lia|apply Hzatt; lia|done].
Qed.

Section warshall_floyd.
Variable g : list (list Edge).
Hypothesis Hrange : edges_in_range g.
Hypothesis Hw : ∀ e, has_edge g e → 0 ≤ weight e.

Lemma via_nonneg k i j W : via (has_edge g) k i j W → 0 ≤ W.
Proof. intros [[_ ->]|Hp]; [lia|]. by eapply path_nonneg. Qed.

Lemma wf_pass_via D k :
  (k < length g)%nat → exact (length g) (via (has_edge g) k) D →
  ∃ D', wf_pass (length g) k D = Ok D' ∧ exact (length g) (via (has_edge g) (S k)) D'.
Proof.
  intros Hk Hex.
  destruct (wf_pass_exact (length g) (via (has_edge g) k) D k Hk Hex)
    as (D' & Hrun & Hex').
  { by left. }
  { intros i j W. apply via_nonneg. }
  exists D'. split; [done|]. revert Hex'. apply exact_equiv.
  - intros i j W [[[-> ->]|Hp]|(W1 & W2 & H1 & H2 & ->)].
    + by left.
    + right. apply path_mono with k; [lia|done].
    + destruct H1 as [[-> ->]|H1], H2 as [[<- ->]|H2].
      * by left.
      * right. simpl. apply path_mono with k; [lia|done].
      * right. rewrite Z.add_0_r. apply path_mono with k; [lia|done].
      * right. apply (path_app _ _ _ k); [|lia|]; apply path_mono with k; (lia || done).
  - intros i j W [[-> ->]|Hp].
    + exists 0. split; [|lia]. left. by left.
    + destruct (path_split _ _ _ _ _ Hw Hp) as [Hp'|(W1 & W3 & H1 & H3 & Hle)].
      * exists W. split; [|lia]. left. by right.
      * exists (W1 + W3). split; [|done]. right. exists W1, W3.
        split_and!; [by right|by right|done].
Qed.

Lemma wf_init_exact D :
  square (length g) D →
  (∀ a b, (a < length g)%nat → (b < length g)%nat →
     entry_min (has_edge g) a b (wf_base a b) (mat D a b)) →
  exact (length g) (via (has_edge g) 0) D.
Proof.
  intros Hsq HD. split; [done|]. intros i j Hi Hj. pose proof INF_val as HINF.
  destruct (HD i j Hi Hj) as (Hbase & Hmin & Hatt). unfold wf_base in *.
  split; [|split].
  - split; [|case_decide; lia].
    destruct Hatt as [->|(e & He & _ & _ & ->)]; [case_decide; lia|by apply Hw].
  - intros W [[-> ->]|Hp].
    + rewrite decide_True in Hbase by done. done.
    + inversion Hp as [e He|e ? ? ? Hto]; subst; [by apply Hmin|lia].
  - intros Hlt. destruct Hatt as [Heq|(e & He & <- & <- & ->)].
    + rewrite Heq in *. case_decide as Hij; [|lia]. left. by split.
    + right. by apply path_edge.
Qed.

Lemma WarshallFloyd_run :
  ∃ M, WarshallFloyd g = Ok M ∧ exact (length g) (walk (has_edge g)) M.
Proof.
  destruct (WarshallFloyd_init g Hrange) as (D & HsqD & HD & ->).
  destruct (for_range_inv (λ k M, exact (length g) (via (has_edge g) k) M)
              (length g) (λ k dist, wf_pass (length g) k dist) D)
    as (M & Hrun & Hex).
  - by apply wf_init_exact.
  - intros k M Hk Hex. by apply wf_pass_via.
  - exists M. split; [done|]. revert Hex. apply exact_equiv.
    + intros i j W. apply via_walk. intros e He. by apply Hrange.
    + intros i j W HW. exists W. split; [|lia].
      apply via_walk; [|done]. intros e He. by apply Hrange.
Qed.

End warshall_floyd.

(** On a graph whose edges join vertices of the graph and have weights that
    are not negative, [WarshallFloyd] returns a square matrix in which every
    entry lies between 0 and the sentinel, no walk from [i] to [j] weighs
    less than [M[i][j]], and an entry below the sentinel is the weight of a
    walk from [i] to [j]: the least weight of a walk where that is below the
    sentinel, and the sentinel elsewhere. *)
Theorem WarshallFloyd_shortest (g : list (list Edge)) :
  edges_in_range g → (∀ e, has_edge g e → 0 ≤ weight e) →
  ∃ M, WarshallFloyd g = Ok M ∧ square (length g) M ∧
    ∀ i j, (i < length g)%nat → (j < length g)%nat →
      0 ≤ mat M i j ≤ INF ∧
      (∀ W, walk (has_edge g) i j W → mat M i j ≤ W) ∧
      (mat M i j < INF → walk (has_edge g) i j (mat M i j)).
Proof.
  intros Hrange Hw. destruct (WarshallFloyd_run g Hrange Hw) as (M & HM & Hsq & Hex).
  by exists M.
Qed.

Lemma roads_nonneg e : has_edge roads e → 0 ≤ weight e.
Proof. intros He%roads_weights_7. lia. Qed.

Example WarshallFloyd_roads : WarshallFloyd roads = Ok [[0; 4; 5]; [4; 0; 1]; [5; 1; 0]].
Proof. reflexivity. Qed.

Lemma WarshallFloyd_shortest_witness :
  ∃ M, WarshallFloyd roads = Ok M ∧ square (length roads) M ∧
    ∀ i j, (i < length roads)%nat → (j < length roads)%nat →
      0 ≤ mat M i j ≤ INF ∧
      (∀ W, walk (has_edge roads) i j W → mat M i j ≤ W) ∧
      (mat M i j < INF → walk (has_edge roads) i j (mat M i j)).
Proof.
  apply (WarshallFloyd_shortest roads);
    [apply graph_ok_in_range; reflexivity | apply roads_nonneg].
Defined.

(** The row of the source in the matrix of [WarshallFloyd] is the vector
    [Dijkstra] returns: on a well-formed graph with weights between 0 and
    [INT_MAX - INF], a source that is a vertex and enough fuel. *)
Theorem WarshallFloyd_row_is_Dijkstra
    (g : list (list Edge)) (s : nat) (fuel : nat) (M : list (list Z)) :
  graph_ok g = true → (s < length g)%nat →
  (∀ e, has_edge g e → 0 ≤ weight e ≤ INT_MAX - INF) →
  (length (concat g) < fuel)%nat →
  WarshallFloyd g = Ok M →
  ∃ dist, Dijkstra fuel g s = Ok dist ∧ M !! s = Some dist.
Proof.
  intros Hok Hs Hw Hfuel HM.
  destruct (Dijkstra_run g s Hok Hs Hw fuel Hfuel) as (dist & Hrun & Hlen & Hdist).
  destruct (WarshallFloyd_run g (graph_ok_in_range g Hok)) as (M' & HM' & Hsq & Hex).
  { intros e He%Hw. lia. }
  assert (M' = M) as -> by congruence.
  exists dist. split; [done|].
  destruct (lookup_lt_is_Some_2 M s) as [row Hrow]; [destruct Hsq as [-> _]; done|].
  rewrite Hrow. f_equal.
  assert (length row = length g) as Hlr by (destruct Hsq as [_ Hsq]; by eapply Hsq).
  apply list_eq. intros v. destruct (decide (v < length g)%nat) as [Hv|Hv].
  - destruct (Hdist v Hv) as (d & -> & Hd & Hmin & Hatt).
    destruct (Hex s v Hs Hv) as (Hr & Hmin' & Hatt').
    destruct (lookup_lt_is_Some_2 row v) as [x Hx]; [lia|].
    assert (mat M s v = x) as Hmat by (unfold mat; rewrite Hrow; simpl; by rewrite Hx).
    rewrite Hmat in *. rewrite Hx. f_equal.
    destruct (decide (x < INF)) as [Hlt|Hge].
    + pose proof (Hmin _ (Hatt' Hlt)).
      pose proof (Hmin' _ (Hatt ltac:(lia))). lia.
    + destruct (decide (d < INF)) as [Hlt|?]; [|lia].
      pose proof (Hmin' _ (Hatt Hlt)). lia.
  - rewrite !lookup_ge_None_2 by lia. done.
Qed.

Lemma WarshallFloyd_row_is_Dijkstra_witness :
  ∃ dist, Dijkstra 7 roads 0 = Ok dist ∧
    [[0; 4; 5]; [4; 0; 1]; [5; 1; 0]] !! 0%nat = Some dist.
Proof.
  apply (WarshallFloyd_row_is_Dijkstra roads 0 7 [[0; 4; 5]; [4; 0; 1]; [5; 1; 0]]);
    [reflexivity | simpl; lia | apply roads_weights | simpl; lia | reflexivity].
Defined.

(** ** The matrix after one more edge *)

Lemma walk_single (E : Edge → Prop) e : E e → walk E (from e) (to e) (weight e).
Proof.
  intros He. replace (weight e) with (0 + weight e) by lia.
  apply walk_snoc; [constructor|done].
Qed.

Section one_more_edge.
Variable E : Edge → Prop.
Variable u v : nat.
Variable w : Z.
Hypothesis HE : ∀ e, E e → 0 ≤ weight e.
Hypothesis Hw : 0 ≤ w.

(** The edges after [add_edge]. *)
Definition with_edge (e : Edge) : Prop := E e ∨ e = mkEdge u v w ∨ e = mkEdge v u w.

(** What the matrix holds once the two entries are written: the walks of
    the old edges and the new edge by itself. *)
Definition direct (i j : nat) (W : Z) : Prop :=
  walk E i j W ∨ (i = u ∧ j = v ∧ W = w) ∨ (i = v ∧ j = u ∧ W = w).

(** The walks that take the new edge at most once. *)
Definition once (i j : nat) (W : Z) : Prop :=
  walk E i j W ∨
  (∃ a b, walk E i u a ∧ walk E v j b ∧ W = a + w + b) ∨
  (∃ a b, walk E i v a ∧ walk E u j b ∧ W = a + w + b).

Lemma direct_nonneg i j W : direct i j W → 0 ≤ W.
Proof. intros [?%(walk_nonneg E)|[(_ & _ & ->)|(_ & _ & ->)]]; done. Qed.

Lemma through_direct_nonneg i j W : through u direct i j W → 0 ≤ W.
Proof.
  intros [?%direct_nonneg|(W1 & W2 & ?%direct_nonneg & ?%direct_nonneg & ->)]; lia.
Qed.

Lemma direct_walk i j W : direct i j W → walk with_edge i j W.
Proof.
  intros [Hwalk|[(-> & -> & ->)|(-> & -> & ->)]].
  - revert Hwalk. apply walk_impl. intros e He. by left.
  - apply (walk_single with_edge (mkEdge u v w)). right. by left.
  - apply (walk_single with_edge (mkEdge v u w)). right. by right.
Qed.

Lemma through_walk i j W : through v (through u direct) i j W → walk with_edge i j W.
Proof.
  assert (∀ i j W, through u direct i j W → walk with_edge i j W) as H1.
  { intros i' j' W' [?%direct_walk|(W1 & W2 & ?%direct_walk & ?%direct_walk & ->)];
      [done|]. by apply (walk_trans _ _ u). }
  intros [?%H1|(W1 & W2 & ?%H1 & ?%H1 & ->)]; [done|]. by apply (walk_trans _ _ v).
Qed.

Lemma once_through i j W : once i j W → through v (through u direct) i j W.
Proof.
  intros [Hwalk|[(a & b & Ha & Hb & ->)|(a & b & Ha & Hb & ->)]].
  - left. left. by left.
  - right. exists (a + w), b. split_and!; [|left; by left|done].
    right. exists a, w. split_and!; [by left| |done]. right. by left.
  - right. exists a, (w + b). split_and!; [left; by left| |lia].
    right. exists w, b. split_and!; [|by left|done]. right. by right.
Qed.

Lemma once_snoc i e W :
  once i (from e) W → with_edge e → ∃ W', once i (to e) W' ∧ W' ≤ W + weight e.
Proof.
  intros Honce He.
  assert (∀ x, walk E x x 0) as Hnil by (intros; constructor).
  destruct Honce as [Hwalk|[(a & b & Ha & Hb & ->)|(a & b & Ha & Hb & ->)]];
    destruct He as [He|[->| ->]]; simpl in *.
  - exists (W + weight e). split; [|lia]. left. by apply walk_snoc.
  - exists (W + w + 0). split; [|lia]. right. left. exists W, 0. by split_and!.
  - exists (W + w + 0). split; [|lia]. right. right. exists W, 0. by split_and!.
  - exists (a + w + (b + weight e)). split; [|lia]. right. left.
    exists a, (b + weight e). split_and!; [done| |done]. by apply walk_snoc.
  - pose proof (walk_nonneg E _ _ _ HE Hb).
    exists (a + w + 0). split; [|lia]. right. left. exists a, 0. by split_and!.
  - pose proof (walk_nonneg E _ _ _ HE Hb).
    exists a. split; [|lia]. by left.
  - exists (a + w + (b + weight e)). split; [|lia]. right. right.
    exists a, (b + weight e). split_and!; [done| |done]. by apply walk_snoc.
  - pose proof (walk_nonneg E _ _ _ HE Hb).
    exists a. split; [|lia]. by left.
  - pose proof (walk_nonneg E _ _ _ HE Hb).
    exists (a + w + 0). split; [|lia]. right. right. exists a, 0. by split_and!.
Qed.

Lemma walk_once i j W : walk with_edge i j W → ∃ W', once i j W' ∧ W' ≤ W.
Proof.
  induction 1 as [|e W _ (W0 & Honce & Hle) He].
  - exists 0. split; [|lia]. left. constructor.
  - destruct (once_snoc i e W0 Honce He) as (W' & ? & ?). exists W'. split; [done|lia].
Qed.

(** The two entries written, then the passes for [u] and for [v]. *)
Lemma add_edge_to_matrix_exact n M :
  (u < n)%nat → (v < n)%nat → exact n (walk E) M → mat M u v = mat M v u →
  ∃ M', add_edge_to_matrix M u v w = Ok M' ∧ exact n (walk with_edge) M'.
Proof.
  intros Hu Hv [Hsq HM] Hsym. pose proof INF_val as HINF.
  destruct (add_edge_to_matrix_start n M u v w Hsq Hu Hv) as (M1 & Hsq1 & HM1 & ->).
  assert (exact n direct M1) as Hex1.
  { split; [done|]. intros i j Hi Hj. rewrite HM1.
    destruct (HM i j Hi Hj) as (Hr & Hmin & Hatt).
    destruct (HM u v Hu Hv) as (Hruv & Hminuv & Hattuv).
    destruct (HM v u Hv Hu) as (Hrvu & Hminvu & Hattvu).
    case_decide as Hij.
    - split; [lia|]. split.
      + intros W [HW|[(-> & -> & ->)|(-> & -> & ->)]]; [|lia..].
        destruct Hij as [[-> ->]|[-> ->]].
        * specialize (Hminuv _ HW). lia.
        * specialize (Hminvu _ HW). lia.
      + intros Hlt.
        destruct (Z.min_spec (mat M u v) w) as [[_ Heq]|[_ Heq]]; rewrite Heq in *.
        * left. destruct Hij as [[-> ->]|[-> ->]]; [by apply Hattuv|].
          rewrite Hsym. apply Hattvu. lia.
        * right. destruct Hij as [[-> ->]|[-> ->]]; [by left|by right].
    - split; [done|]. split; [|by left; auto].
      intros W [HW|[(-> & -> & ->)|(-> & -> & ->)]]; [by apply Hmin|..];
        destruct Hij; auto. }
  cbn [foldM].
  destruct (wf_pass_exact n direct M1 u Hu Hex1) as (M2 & -> & Hex2).
  { left. constructor. }
  { apply direct_nonneg. }
  simpl.
  destruct (wf_pass_exact n (through u direct) M2 v Hv Hex2) as (M3 & -> & Hex3).
  { left. left. constructor. }
  { apply through_direct_nonneg. }
  simpl. exists M3. split; [done|]. revert Hex3. apply exact_equiv.
  - apply through_walk.
  - intros i j W (W' & ?%once_through & ?)%walk_once. by exists W'.
Qed.

End one_more_edge.

(** The update in place agrees with the computation from scratch: for a
    graph [g] with edges between its vertices and weights that are not
    negative, the matrix [M] of [WarshallFloyd g] with [M[u][v] = M[v][u]],
    and a weight [w] that is not negative, [add_edge_to_matrix M u v w]
    returns what [WarshallFloyd] returns on [g] after [add_edge g u v w]. *)
Theorem add_edge_to_matrix_incremental
    (g g' : list (list Edge)) (u v : nat) (w : Z) (M : list (list Z)) :
  edges_in_range g → (∀ e, has_edge g e → 0 ≤ weight e) → 0 ≤ w →
  WarshallFloyd g = Ok M → mat M u v = mat M v u →
  add_edge g u v w = Ok g' →
  add_edge_to_matrix M u v w = WarshallFloyd g'.
Proof.
  intros Hrange Hw Hw0 HM Hsym (Hu & Hv & Hlen & Hedges & _)%add_edge_Ok.
  destruct (WarshallFloyd_run g Hrange Hw) as (M0 & HM0 & Hex).
  assert (M0 = M) as -> by congruence.
  destruct (add_edge_to_matrix_exact (has_edge g) u v w Hw Hw0 (length g) M
              Hu Hv Hex Hsym) as (M1 & -> & Hex1).
  destruct (WarshallFloyd_run g') as (M2 & -> & Hex2).
  { intros e [He|[->| ->]]%Hedges; rewrite Hlen; [by apply Hrange|done..]. }
  { intros e [He|[->| ->]]%Hedges; [by apply Hw|done..]. }
  f_equal. apply (exact_unique (length g) (walk (has_edge g'))); [|by rewrite <- Hlen].
  revert Hex1. apply exact_equiv.
  - intros i j W. apply walk_impl. intros e He. by apply Hedges.
  - intros i j W HW. exists W. split; [|lia]. revert HW.
    apply walk_impl. intros e He. by apply Hedges.
Qed.

Definition roads_shortcut : list (list Edge) :=
  Eval vm_compute in from_Ok [] (add_edge roads 0 2 2).

Lemma add_edge_to_matrix_incremental_witness :
  add_edge_to_matrix [[0; 4; 5]; [4; 0; 1]; [5; 1; 0]] 0 2 2 =
  WarshallFloyd roads_shortcut.
Proof.
  apply (add_edge_to_matrix_incremental roads roads_shortcut 0 2 2
           [[0; 4; 5]; [4; 0; 1]; [5; 1; 0]]);
    [apply graph_ok_in_range; reflexivity | apply roads_nonneg | lia
    | reflexivity | reflexivity | reflexivity].
Defined.

(** Without [M[u][v] = M[v][u]] the two differ: the update writes
    [min(M[u][v], w)] to [M[v][u]] as well, and loses the lighter arc from
    1 to 0 here. *)
Definition one_way : list (list Edge) :=
  Eval vm_compute in from_Ok [] (build_arcs 2 [und 0 1 5; und 1 0 1]).

Example add_edge_to_matrix_one_way :
  WarshallFloyd one_way = Ok [[0; 5]; [1; 0]] ∧
  add_edge_to_matrix [[0; 5]; [1; 0]] 0 1 3 = Ok [[0; 3]; [3; 0]] ∧
  (add_edge one_way 0 1 3 ≫= WarshallFloyd) = Ok [[0; 3]; [1; 0]].
Proof. by split_and!. Qed.

(** ** Topological sort: the caller's vector after a failure *)







(** ** The depth of the recursive lambdas *)

Lemma zeros_insert_le color i c : c ≠ 0 → (zeros (<[i:=c]> color) ≤ zeros color)%nat.
Proof.
  intros Hc. apply zeros_mono; [by rewrite length_insert|].
  intros x v Hx Hv. destruct (decide (x = i)) as [->|Hne].
  - exists c. split; [|done]. apply list_lookup_insert_eq. by eapply lookup_lt_Some.
  - exists v. by rewrite list_lookup_insert_ne.
Qed.

Lemma zeros_pos color i : color !! i = Some 0 → (0 < zeros color)%nat.
Proof. intros Hi. pose proof (zeros_insert color i 1 Hi). lia. Qed.

(** The colours [TopologicalSort] writes. *)
Definition colours (c : list Z) : Prop := ∀ x k, c !! x = Some k → k = 0 ∨ k = 1 ∨ k = 2.

Lemma colours_insert c i k : colours c → k = 1 ∨ k = 2 → colours (<[i:=k]> c).
Proof.
  intros Hc Hk x k' Hx. destruct (decide (x = i)) as [->|Hne].
  - pose proof (lookup_lt_Some _ _ _ Hx) as Hlt. rewrite length_insert in Hlt.
    rewrite list_lookup_insert_eq in Hx by done. injection Hx as <-. tauto.
  - rewrite list_lookup_insert_ne in Hx by done. by eapply Hc.
Qed.

(** A call on a white vertex with no more white vertices than fuel does
    not run out of it, and leaves no more white vertices than it found. *)
Definition deep_enough
    (rec : nat → list Z * list nat → result (bool * (list Z * list nat)))
    (fuel : nat) : Prop :=
  ∀ w c o, colours c → c !! w = Some 0 → (zeros c ≤ fuel)%nat →
    rec w (c, o) ≠ OutOfFuel ∧
    ∀ ok c' o', rec w (c, o) = Ok (ok, (c', o')) →
      colours c' ∧ (zeros c' ≤ zeros c)%nat.

Lemma visit_edges_deep rec fuel es :
  deep_enough rec fuel →
  ∀ c o, colours c → (zeros c ≤ fuel)%nat →
    visit_edges rec es (c, o) ≠ OutOfFuel ∧
    ∀ ok c' o', visit_edges rec es (c, o) = Ok (ok, (c', o')) →
      colours c' ∧ (zeros c' ≤ zeros c)%nat.
Proof.
  intros Hrec. induction es as [|e es IH]; intros c o Hc Hz; simpl.
  { split; [done|]. by intros ok c' o' [= <- <- <-]. }
  pose proof (vget_fuel c (to e)) as Hnf.
  destruct (vget c (to e)) as [k| |] eqn:Hk; simpl; [|by split|done].
  apply vget_Ok in Hk.
  destruct (Z.eqb_spec k 2) as [->|Hk2]; [by apply IH|].
  destruct (Z.eqb_spec k 1) as [->|Hk1].
  { split; [done|]. by intros ok c' o' [= <- <- <-]. }
  assert (k = 0) as -> by (destruct (Hc _ _ Hk) as [?|[?|?]]; done).
  destruct (Hrec (to e) c o Hc Hk Hz) as [Hfuel Hres].
  destruct (rec (to e) (c, o)) as [[ok1 [c1 o1]]| |]; simpl; [|by split|done].
  destruct (Hres ok1 c1 o1 eq_refl) as [Hc1 Hz1].
  destruct ok1.
  - destruct (IH c1 o1 Hc1 ltac:(lia)) as [Hfuel2 Hres2]. split; [done|].
    intros ok c' o' Hrun. destruct (Hres2 _ _ _ Hrun). split; [done|lia].
  - split; [done|]. by intros ok c' o' [= <- <- <-].
Qed.

Lemma visit_deep fuel g : deep_enough (visit fuel g) fuel.
Proof.
  induction fuel as [|fuel IH]; intros v c o Hc Hv Hz.
  { pose proof (zeros_pos c v Hv). lia. }
  rewrite visit_unfold.
  assert (v < length c)%nat as Hvlt by (by eapply lookup_lt_Some).
  rewrite vset_lt by done. simpl.
  pose proof (vget_fuel g v) as Hnf.
  destruct (vget g v) as [es| |] eqn:Hes; simpl; [|by split|done].
  pose proof (zeros_insert c v 1 Hv ltac:(done)) as Hz1.
  destruct (visit_edges_deep (visit fuel g) fuel es IH (<[v:=1]> c) o)
    as [Hfuel Hres]; [apply colours_insert; auto|lia|].
  destruct (visit_edges (visit fuel g) es (<[v:=1]> c, o))
    as [[ok2 [c2 o2]]| |]; simpl; [|by split|done].
  destruct (Hres ok2 c2 o2 eq_refl) as [Hc2 Hz2].
  destruct ok2.
  - unfold vset. case_decide; simpl; [|by split]. split; [done|].
    intros ok c' o' [= <- <- <-]. split; [apply colours_insert; auto|].
    pose proof (zeros_insert_le c2 v 2 ltac:(done)). lia.
  - split; [done|]. intros ok c' o' [= <- <- <-]. split; [done|lia].
Qed.

(** [visit] never nests deeper than the number of vertices: whatever the
    graph (its edges may lead anywhere), the fuel [TopologicalSort] gives the
    search, one unit per vertex, does not run out. *)
Theorem TopologicalSort_depth (g : list (list Edge)) (order : list nat) :
  TopologicalSort g order ≠ OutOfFuel.
Proof.
  unfold TopologicalSort.
  assert (∀ roots c o, colours c → (zeros c ≤ length g)%nat →
            visit_roots g roots (c, o) ≠ OutOfFuel) as Hroots.
  { induction roots as [|i roots IH]; intros c o Hc Hz; simpl; [done|].
    pose proof (vget_fuel c i) as Hnf.
    destruct (vget c i) as [k| |] eqn:Hk; simpl; [|done..]. apply vget_Ok in Hk.
    destruct (Z.eqb_spec k 0) as [->|_]; [|by apply IH].
    destruct (visit_deep (length g) g i c o Hc Hk Hz) as [Hfuel Hres].
    destruct (visit (length g) g i (c, o)) as [[ok1 [c1 o1]]| |]; simpl; [|done..].
    destruct (Hres ok1 c1 o1 eq_refl) as [Hc1 Hz1].
    destruct ok1; [|done]. apply IH; [done|lia]. }
  specialize (Hroots (seq 0 (length g)) (replicate (length g) 0) order).
  destruct (visit_roots g (seq 0 (length g)) (replicate (length g) 0, order))
    as [[ok [c o]]| |]; simpl.
  - by destruct ok.
  - done.
  - destruct Hroots; [|by rewrite zeros_replicate|done].
    intros x k [-> _]%lookup_replicate. by left.
Qed.

(** The same for [dfs] of [isBipartiteGraph]: a call with fewer white
    vertices than fuel does not run out of it. *)
Lemma dfs_deep fuel g :
  ∀ i clr c r, clr = 1 ∨ clr = -1 → (zeros c < fuel)%nat →
    dfs fuel g i clr (c, r) ≠ OutOfFuel ∧
    ∀ c' r', dfs fuel g i clr (c, r) = Ok (c', r') → (zeros c' ≤ zeros c)%nat.
Proof.
  induction fuel as [|fuel IH]; intros i clr c r Hclr Hz; [lia|].
  rewrite dfs_unfold.
  pose proof (vget_fuel c i) as Hnf.
  destruct (vget c i) as [k| |] eqn:Hk; simpl; [|by split|done]. apply vget_Ok in Hk.
  destruct (Z.eqb_spec k 0) as [->|Hne]; simpl; last first.
  { split; [done|]. by intros c' r' [= <- <-]. }
  assert (i < length c)%nat as Hilt by (by eapply lookup_lt_Some).
  rewrite vset_lt by done. simpl.
  pose proof (vget_fuel g i) as Hnf'.
  destruct (vget g i) as [es| |] eqn:Hes; simpl; [|by split|done].
  assert (clr ≠ 0) as Hclr0 by lia.
  pose proof (zeros_insert c i clr Hk Hclr0) as Hz1.
  assert (∀ c1 r1, (zeros c1 < fuel)%nat →
    foldM (λ '(color, ret) e,
        c ← vget color (to e);
        if c =? 0 then dfs fuel g (to e) (neg clr) (color, ret)
        else if c =? clr then Ok (color, false)
        else Ok (color, ret)) es (c1, r1) ≠ OutOfFuel ∧
    ∀ c' r',
      foldM (λ '(color, ret) e,
        c ← vget color (to e);
        if c =? 0 then dfs fuel g (to e) (neg clr) (color, ret)
        else if c =? clr then Ok (color, false)
        else Ok (color, ret)) es (c1, r1) = Ok (c', r') →
      (zeros c' ≤ zeros c1)%nat) as Hloop.
  { clear Hes Hnf'. induction es as [|e es IHes]; intros c1 r1 Hz'; cbn [foldM].
    { split; [done|]. by intros c' r' [= <- <-]. }
    pose proof (vget_fuel c1 (to e)) as Hnf1.
    destruct (vget c1 (to e)) as [k'| |]; simpl; [|by split|done].
    assert (neg clr = 1 ∨ neg clr = -1) as Hneg.
    { rewrite neg_pm1 by done. lia. }
    destruct (IH (to e) (neg clr) c1 r1 Hneg Hz') as [Hfuel Hres].
    set (step := if k' =? 0 then dfs fuel g (to e) (neg clr) (c1, r1)
                 else if k' =? clr then Ok (c1, false) else Ok (c1, r1)).
    assert (step ≠ OutOfFuel ∧
            ∀ c2 r2, step = Ok (c2, r2) → (zeros c2 ≤ zeros c1)%nat) as [Hs1 Hs2].
    { unfold step. destruct (k' =? 0); [done|].
      destruct (k' =? clr); (split; [done|]); by intros c2 r2 [= <- <-]. }
    fold step. destruct step as [[c2 r2]| |]; simpl; [|by split|done].
    specialize (Hs2 c2 r2 eq_refl).
    destruct (IHes c2 r2 ltac:(lia)) as [Hfuel2 Hres2]. split; [done|].
    intros c' r' Hrun. specialize (Hres2 _ _ Hrun). lia. }
  destruct (Hloop (<[i:=clr]> c) r ltac:(lia)) as [Hfuel Hres]. split; [done|].
  intros c' r' Hrun. specialize (Hres _ _ Hrun). lia.
Qed.

(** [dfs] never nests deeper than the number of vertices plus one: whatever
    the graph, the fuel [isBipartiteGraph] gives it does not run out. *)
Theorem isBipartiteGraph_depth (g : list (list Edge)) : isBipartiteGraph g ≠ OutOfFuel.
Proof.
  unfold isBipartiteGraph.
  destruct (dfs_deep (S (length g)) g 0 1 (replicate (length g) 0) true) as [Hfuel _];
    [by left|rewrite zeros_replicate; lia|].
  by destruct (dfs (S (length g)) g 0 1 (replicate (length g) 0, true)) as [[c r]| |].
Qed.
